(** * Module call graph extraction

    A shallow embedding of [src/extension.ts]: the two-pass scan of the
    command [moduleCallGraph.generate] (function definitions, then call
    sites and module-to-module edges), the regular expressions it scans
    with, the insertion-ordered [Map]s it accumulates into, and the
    directory walk [walkFiles].

    Part I holds the model, Part II the properties. *)

From Stdlib Require Import String Ascii.
From Stdlib Require Import List NArith Arith Bool Lia Permutation Sorted.
From Stdlib Require QArith Qround.
Import ListNotations.

(* ================================================================= *)
(** * Part I: the model *)
(* ================================================================= *)

(** ** JavaScript strings

    A JavaScript string is a sequence of UTF-16 code units; offsets
    ([match.index], [lastIndex]) count code units. *)

Definition char := N.
Definition str := list char.

(** An ASCII literal as a JavaScript string. *)
Definition lit (s : string) : str := map N_of_ascii (list_ascii_of_string s).

(** [a === b] on strings. *)
Fixpoint str_eqb (a b : str) : bool :=
  match a, b with
  | [], [] => true
  | x :: a', y :: b' => N.eqb x y && str_eqb a' b'
  | _, _ => false
  end.

(** [Array.prototype.includes] on an array of strings. *)
Definition includes (l : list str) (x : str) : bool := existsb (str_eqb x) l.

(** ** Character classes of the three regular expressions *)

Definition isDigit (c : char) : bool := (48 <=? c)%N && (c <=? 57)%N.
Definition isUpper (c : char) : bool := (65 <=? c)%N && (c <=? 90)%N.
Definition isLower (c : char) : bool := (97 <=? c)%N && (c <=? 122)%N.

(** [[a-zA-Z_]] *)
Definition isIdentStart (c : char) : bool :=
  isLower c || isUpper c || (c =? 95)%N.

(** [[a-zA-Z0-9_]], which is also the word class of [\b]. *)
Definition isWordChar (c : char) : bool :=
  isLower c || isUpper c || isDigit c || (c =? 95)%N.

(** ECMAScript LineTerminator: LF, CR, LS, PS. *)
Definition isLineTerminator (c : char) : bool :=
  (c =? 10)%N || (c =? 13)%N || (c =? 8232)%N || (c =? 8233)%N.

(** [\s]: ECMAScript WhiteSpace and LineTerminator. *)
Definition isWhiteSpace (c : char) : bool :=
  (c =? 9)%N || (c =? 11)%N || (c =? 12)%N || (c =? 32)%N || (c =? 160)%N ||
  (c =? 5760)%N || ((8192 <=? c)%N && (c <=? 8202)%N) || (c =? 8239)%N ||
  (c =? 8287)%N || (c =? 12288)%N || (c =? 65279)%N || isLineTerminator c.

(** [.] without the [s] flag. *)
Definition isDot (c : char) : bool := negb (isLineTerminator c).

(** [[^)]] *)
Definition notRParen (c : char) : bool := negb (c =? 41)%N.

(** [[\s\S]] *)
Definition anyChar (c : char) : bool := isWhiteSpace c || negb (isWhiteSpace c).

(** ** Regular expressions

    The fragment of ECMAScript patterns the source uses.  Every
    quantifier [*] of the source stands on a character class, so
    [Repeat] takes a class. *)

Inductive regex : Type :=
| Chars (s : str)                          (* a run of pattern characters *)
| Class (p : char -> bool)                 (* one character of a class *)
| Seq (r1 r2 : regex)                      (* r1 r2 *)
| Disj (r1 r2 : regex)                     (* r1|r2 *)
| Repeat (greedy : bool) (p : char -> bool) (* [..]* and [..]*? *)
| Opt (r : regex)                          (* (?:r)? *)
| Group (n : nat) (r : regex)              (* the n-th capturing group *)
| WordBoundary.                            (* \b *)

(** The state of a match in progress: [endIndex] is the current
    position, [before] the code unit just before it, [input] the text
    from it on, [captures] the groups closed so far. *)
Record MatchState : Type := mkState {
  endIndex : nat;
  before : option char;
  input : str;
  captures : list (nat * str)
}.

Definition Continuation := MatchState -> option MatchState.

Fixpoint matchChars (s : str) (i : nat) (prev : option char) (rest : str)
  : option (nat * option char * str) :=
  match s with
  | [] => Some (i, prev, rest)
  | a :: s' =>
      match rest with
      | c :: tl => if (a =? c)%N then matchChars s' (S i) (Some c) tl else None
      | [] => None
      end
  end.

(** Greedy [p*]: the longest run first, giving characters back one by one. *)
Fixpoint repeatGreedy (p : char -> bool) (k : Continuation)
  (caps : list (nat * str)) (i : nat) (prev : option char) (rest : str)
  : option MatchState :=
  match rest with
  | c :: tl =>
      if p c then
        match repeatGreedy p k caps (S i) (Some c) tl with
        | Some r => Some r
        | None => k (mkState i prev rest caps)
        end
      else k (mkState i prev rest caps)
  | [] => k (mkState i prev rest caps)
  end.

(** Lazy [p*?]: the shortest run first. *)
Fixpoint repeatLazy (p : char -> bool) (k : Continuation)
  (caps : list (nat * str)) (i : nat) (prev : option char) (rest : str)
  : option MatchState :=
  match k (mkState i prev rest caps) with
  | Some r => Some r
  | None =>
      match rest with
      | c :: tl => if p c then repeatLazy p k caps (S i) (Some c) tl else None
      | [] => None
      end
  end.

Definition isWordOpt (c : option char) : bool :=
  match c with Some x => isWordChar x | None => false end.

(** [\b] holds where exactly one of the two neighbours is a word character. *)
Definition atWordBoundary (st : MatchState) : bool :=
  xorb (isWordOpt (before st)) (isWordOpt (hd_error (input st))).

Definition setCapture (n : nat) (s : str) (caps : list (nat * str))
  : list (nat * str) :=
  (n, s) :: filter (fun e => negb (Nat.eqb (fst e) n)) caps.

Fixpoint getCapture (n : nat) (caps : list (nat * str)) : option str :=
  match caps with
  | [] => None
  | (m, s) :: tl => if Nat.eqb n m then Some s else getCapture n tl
  end.

(** The backtracking matcher, in continuation-passing style as in the
    ECMAScript specification: alternatives are tried in order and the
    first complete match wins. *)
Fixpoint matcher (r : regex) (st : MatchState) (k : Continuation)
  : option MatchState :=
  match r with
  | Chars s =>
      match matchChars s (endIndex st) (before st) (input st) with
      | Some (i, prev, rest) => k (mkState i prev rest (captures st))
      | None => None
      end
  | Class p =>
      match input st with
      | c :: tl =>
          if p c then k (mkState (S (endIndex st)) (Some c) tl (captures st))
          else None
      | [] => None
      end
  | Seq r1 r2 => matcher r1 st (fun st1 => matcher r2 st1 k)
  | Disj r1 r2 =>
      match matcher r1 st k with
      | Some res => Some res
      | None => matcher r2 st k
      end
  | Repeat true p =>
      repeatGreedy p k (captures st) (endIndex st) (before st) (input st)
  | Repeat false p =>
      repeatLazy p k (captures st) (endIndex st) (before st) (input st)
  | Opt r1 =>
      match matcher r1 st k with
      | Some res => Some res
      | None => k st
      end
  | Group n r1 =>
      matcher r1 st (fun st1 =>
        k (mkState (endIndex st1) (before st1) (input st1)
             (setCapture n
                (firstn (endIndex st1 - endIndex st) (input st))
                (captures st1))))
  | WordBoundary => if atWordBoundary st then k st else None
  end.

(** What [RegExp.prototype.exec] returns: [index], the new [lastIndex]
    and the captures. *)
Record MatchResult : Type := mkResult {
  index : nat;
  lastIndex : nat;
  groups : list (nat * str)
}.

(** The search of [exec]: the pattern is tried at [i], [i+1], ... up to
    and including the end of the text. *)
Fixpoint searchFrom (r : regex) (i : nat) (prev : option char) (rest : str)
  : option MatchResult :=
  match matcher r (mkState i prev rest []) Some with
  | Some st => Some (mkResult i (endIndex st) (captures st))
  | None =>
      match rest with
      | c :: tl => searchFrom r (S i) (Some c) tl
      | [] => None
      end
  end.

Definition charBefore (text : str) (i : nat) : option char :=
  match i with
  | 0 => None
  | S j => nth_error text j
  end.

(** [r.exec(text)] for a global [r] whose [lastIndex] is [from]; [None]
    is [null] (and [lastIndex] is reset to 0). *)
Definition exec (r : regex) (text : str) (from : nat) : option MatchResult :=
  if length text <? from then None
  else searchFrom r from (charBefore text from) (skipn from text).

(** [while ((match = r.exec(text)) !== null) { ... }]: the matches in
    the order the loop body sees them.  Each turn of the loop spends one
    unit of fuel; [None] means the fuel ran out before [exec] returned
    [null]. *)
Fixpoint execLoop (fuel : nat) (r : regex) (text : str) (from : nat)
  : option (list MatchResult) :=
  match fuel with
  | 0 => None
  | S fuel' =>
      match exec r text from with
      | None => Some []
      | Some m =>
          match execLoop fuel' r text (lastIndex m) with
          | Some ms => Some (m :: ms)
          | None => None
          end
      end
  end.

(** A pattern that cannot match the empty string moves [lastIndex]
    forward at every turn, so [length text + 1] turns are enough
    ([execLoop_terminates] below). *)
Definition execAll (r : regex) (text : str) : list MatchResult :=
  match execLoop (S (length text)) r text 0 with
  | Some ms => ms
  | None => []
  end.

(** [text.replace(r, '')] for a global [r]: the text between the matches. *)
Fixpoint removeMatches (ms : list MatchResult) (text : str) (pos : nat) : str :=
  match ms with
  | [] => skipn pos text
  | m :: ms' =>
      firstn (index m - pos) (skipn pos text) ++ removeMatches ms' text (lastIndex m)
  end.

Definition replaceAllEmpty (r : regex) (text : str) : str :=
  removeMatches (execAll r text) text 0.

Declare Scope regex_scope.
Delimit Scope regex_scope with re.
Bind Scope regex_scope with regex.
Notation "r1 ;; r2" := (Seq r1 r2) (at level 61, right associativity) : regex_scope.
Notation "r1 <|> r2" := (Disj r1 r2) (at level 62, right associativity) : regex_scope.

(** [funcRegex], written here part by part:
    [(?:void|int|float|double|char|bool|static)]  [\s+]
    [(] [[a-zA-Z_]] [[a-zA-Z0-9_]*] [)]  [\s*]  [\(]  [[^)]*]  [\)]  [\s*]
    [(?:{)?], with the flag [g]. *)
Definition keywords : list str :=
  [lit "void"; lit "int"; lit "float"; lit "double"; lit "char"; lit "bool";
   lit "static"].

Definition keywordRegex : regex :=
  (Chars (lit "void") <|> Chars (lit "int") <|> Chars (lit "float") <|>
   Chars (lit "double") <|> Chars (lit "char") <|> Chars (lit "bool") <|>
   Chars (lit "static"))%re.

Definition identRegex : regex :=
  Group 1 (Class isIdentStart ;; Repeat true isWordChar)%re.

Definition funcRegex : regex :=
  (keywordRegex ;; Class isWhiteSpace ;; Repeat true isWhiteSpace ;;
   identRegex ;; Repeat true isWhiteSpace ;; Chars (lit "(") ;;
   Repeat true notRParen ;; Chars (lit ")") ;; Repeat true isWhiteSpace ;;
   Opt (Chars (lit "{")))%re.

(** [/\/\*[\s\S]*?\*\/|\/\/.*/g] *)
Definition commentRegex : regex :=
  ((Chars (lit "/*") ;; Repeat false anyChar ;; Chars (lit "*/")) <|>
   (Chars (lit "//") ;; Repeat true isDot))%re.

(** [callRegex], part by part: [\b]  [(] [[a-zA-Z_]] [[a-zA-Z0-9_]*] [)]
    [\s*]  [\(], with the flag [g]. *)
Definition callRegex : regex :=
  (WordBoundary ;; identRegex ;; Repeat true isWhiteSpace ;; Chars (lit "("))%re.

(** [match[1]] *)
Definition group1 (m : MatchResult) : str :=
  match getCapture 1 (groups m) with
  | Some s => s
  | None => []
  end.

(** ** [Map]: insertion-ordered, keyed by strings

    [set] on a key already present replaces the value where it stands;
    a new key goes to the end.  Iteration ([values], [forEach]) follows
    this order. *)

Definition JsMap (V : Type) : Type := list (str * V).

Fixpoint Map_get {V : Type} (m : JsMap V) (k : str) : option V :=
  match m with
  | [] => None
  | (k', v) :: tl => if str_eqb k k' then Some v else Map_get tl k
  end.

Definition Map_has {V : Type} (m : JsMap V) (k : str) : bool :=
  match Map_get m k with Some _ => true | None => false end.

Fixpoint Map_set {V : Type} (m : JsMap V) (k : str) (v : V) : JsMap V :=
  match m with
  | [] => [(k, v)]
  | (k', v') :: tl =>
      if str_eqb k k' then (k', v) :: tl else (k', v') :: Map_set tl k v
  end.

Definition Map_values {V : Type} (m : JsMap V) : list V := map snd m.

(** [Array.from(new Set(l))]: the distinct elements, first occurrences
    in order. *)
Definition Set_add (s : list str) (x : str) : list str :=
  if includes s x then s else s ++ [x].

Definition newSet (l : list str) : list str := fold_left Set_add l [].

(** ** Exceptions *)

Inductive Thrown : Type :=
| EACCES (path : str)     (* readdirSync: permission denied *)
| ENOENT (path : str)     (* statSync: no such file (a dangling link) *)
| ENOTDIR (path : str)    (* readdirSync on something that is no directory *)
| TypeError.              (* a property of undefined was read *)

Inductive Result (A : Type) : Type :=
| Ok (a : A)
| Throw (e : Thrown).
Arguments Ok {A} a.
Arguments Throw {A} e.

Definition bind {A B : Type} (r : Result A) (f : A -> Result B) : Result B :=
  match r with
  | Ok a => f a
  | Throw e => Throw e
  end.

Notation "x <- c1 ;;; c2" := (bind c1 (fun x => c2))
  (at level 100, c1 at next level, right associativity).

(** A loop whose body may throw: the first exception ends it. *)
Fixpoint forEachM {A B : Type} (body : A -> B -> Result A) (l : list B) (a : A)
  : Result A :=
  match l with
  | [] => Ok a
  | x :: l' => a' <- body a x ;;; forEachM body l' a'
  end.

(** ** [path.extname], [path.basename], [path.join]

    Node's functions on '/'-separated paths, for the paths [walkFiles]
    builds (a directory, a slash, an entry name). *)

Definition slash : char := 47%N.
Definition dot : char := 46%N.

Fixpoint dropWhile (p : char -> bool) (s : str) : str :=
  match s with
  | c :: tl => if p c then dropWhile p tl else s
  | [] => []
  end.

Fixpoint takeWhile (p : char -> bool) (s : str) : str :=
  match s with
  | c :: tl => if p c then c :: takeWhile p tl else []
  | [] => []
  end.

(** The last component of a path, trailing slashes ignored. *)
Definition lastComponent (p : str) : str :=
  rev (takeWhile (fun c => negb (c =? slash)%N)
         (dropWhile (fun c => (c =? slash)%N) (rev p))).

(** The extension: from the last dot of the last component on; empty
    when there is no dot, when the only dot comes first, and for [..]. *)
Definition extname (p : str) : str :=
  let base := lastComponent p in
  let ext := rev (takeWhile (fun c => negb (c =? dot)%N) (rev base)) in
  if length base <=? length ext then []            (* no dot at all *)
  else if length base =? S (length ext) then []    (* the dot comes first *)
  else if str_eqb base [dot; dot] then []
  else dot :: ext.

Definition endsWith (s suffix : str) : bool :=
  (length suffix <=? length s) &&
  str_eqb (skipn (length s - length suffix) s) suffix.

(** The last component, without [suffix] when it ends in it (and is
    more than it). *)
Definition basename (p suffix : str) : str :=
  let base := lastComponent p in
  match suffix with
  | [] => base
  | _ =>
      if str_eqb suffix p then []
      else if endsWith base suffix && negb (str_eqb base suffix)
      then firstn (length base - length suffix) base
      else base
  end.

(** [path.join(dir, file)] for a [dir] in normal form without a slash
    at its end (what the folder dialog gives, and what this yields
    again for a subdirectory) and an entry name: there is nothing for
    it to normalise, and the result is the concatenation. *)
Definition join (dir file : str) : str := dir ++ [slash] ++ file.

(** ** The file system, as [walkFiles] sees it *)

#[warnings="-register-all"]
Inductive Node : Type :=
| File                              (* a regular file *)
| Dir (entries : list (str * Node)) (* a directory that can be listed *)
| NoAccessDir                       (* a directory that cannot be read *)
| Dangling.                         (* an entry that cannot be stat'ed *)

(** The [forEach] of [walkFiles] over the entries of [dir]; [walk] is
    the recursive call. *)
Fixpoint walkEntries (walk : Node -> str -> Result (list str))
  (dir : str) (exts : list str) (items : list (str * Node))
  (results : list str) {struct items} : Result (list str) :=
  match items with
  | [] => Ok results
  | (file, child) :: rest =>
      let filePath := join dir file in
      match child with
      | Dangling => Throw (ENOENT filePath)
      | File =>
          if includes exts (extname file)
          then walkEntries walk dir exts rest (results ++ [filePath])
          else walkEntries walk dir exts rest results
      | Dir _ | NoAccessDir =>
          sub <- walk child filePath ;;;
          walkEntries walk dir exts rest (results ++ sub)
      end
  end.

(** [walkFiles(dir, exts)], [node] being what [dir] names.  There is no
    [try] in the source: what [readdirSync] or [statSync] throws leaves
    [walkFiles] and all its callers. *)
Fixpoint walkFiles (node : Node) (dir : str) (exts : list str) {struct node}
  : Result (list str) :=
  match node with
  | Dir entries =>
      walkEntries (fun child path => walkFiles child path exts)
                  dir exts entries []
  | NoAccessDir => Throw (EACCES dir)
  | File => Throw (ENOTDIR dir)
  | Dangling => Throw (ENOENT dir)
  end.

Definition sourceExts : list str := [lit ".c"; lit ".cpp"; lit ".hpp"; lit ".h"].

(** ** The records of the source *)

Record FunctionDef : Type := mkFunctionDef {
  name : str;
  module : str;
  start : nat
}.

Record Edge : Type := mkEdge {
  fromModule : str;
  toModule : str;
  functions : list str
}.

(** ** Phase 1: collect all function definitions *)

(** The body of the first [while] loop: push onto [funcs], set in [defs]. *)
Definition recordDef (fileName : str)
  (acc : list FunctionDef * JsMap FunctionDef) (m : MatchResult)
  : list FunctionDef * JsMap FunctionDef :=
  let funcDef := mkFunctionDef (group1 m) fileName (index m) in
  (fst acc ++ [funcDef], Map_set (snd acc) (name funcDef) funcDef).

Definition moduleOf (file : str) : str := basename file (extname file).

(** The body of the first [for] loop over the files. *)
Definition collectFile (readFileSync : str -> str)
  (acc : JsMap FunctionDef * JsMap (list FunctionDef)) (file : str)
  : JsMap FunctionDef * JsMap (list FunctionDef) :=
  let text := readFileSync file in
  let fileName := moduleOf file in
  let r := fold_left (recordDef fileName) (execAll funcRegex text) ([], fst acc) in
  (snd r, Map_set (snd acc) file (fst r)).

Definition collectDefinitions (readFileSync : str -> str) (files : list str)
  : JsMap FunctionDef * JsMap (list FunctionDef) :=
  fold_left (collectFile readFileSync) files ([], []).

(** ** Phase 2: collect unique function call edges *)

(** [text.replace(/\/\*[\s\S]*?\*\/|\/\/.*/g, '')] *)
Definition stripComments (text : str) : str := replaceAllEmpty commentRegex text.

Definition moduleLevel (moduleName : str) : FunctionDef :=
  mkFunctionDef (lit "<module>") moduleName 0.

(** [funcsInFile.filter(f => f.start <= matchIndex).slice(-1)[0]], and
    the pseudo-function when that is [undefined]. *)
Definition callerOf (funcsInFile : list FunctionDef) (moduleName : str)
  (matchIndex : nat) : FunctionDef :=
  last (filter (fun f => start f <=? matchIndex) funcsInFile)
       (moduleLevel moduleName).

Definition edgeKey (a b : str) : str := a ++ lit "->" ++ b.

Definition pushFunction (e : Edge) (f : str) : Edge :=
  mkEdge (fromModule e) (toModule e) (functions e ++ [f]).

(** The body of the second [while] loop.  [funcsInFile] is what
    [fileFuncMap.get(file)] gave. *)
Definition recordCall (defs : JsMap FunctionDef)
  (funcsInFile : option (list FunctionDef)) (moduleName : str)
  (edgesMap : JsMap Edge) (m : MatchResult) : Result (JsMap Edge) :=
  let matchIndex := index m in
  let calleeName := group1 m in
  match funcsInFile with
  | None => Throw TypeError
  | Some funcs =>
      let callerFunc := callerOf funcs moduleName matchIndex in
      match Map_get defs calleeName with
      | None => Ok edgesMap
      | Some calleeDef =>
          if str_eqb (module callerFunc) (module calleeDef) then Ok edgesMap
          else
            let key := edgeKey (module callerFunc) (module calleeDef) in
            let edgesMap1 :=
              if Map_has edgesMap key then edgesMap
              else Map_set edgesMap key
                     (mkEdge (module callerFunc) (module calleeDef) []) in
            match Map_get edgesMap1 key with
            | None => Throw TypeError
            | Some edge =>
                if includes (functions edge) calleeName then Ok edgesMap1
                else Ok (Map_set edgesMap1 key (pushFunction edge calleeName))
            end
      end
  end.

(** The body of the second [for] loop over the files. *)
Definition scanFile (readFileSync : str -> str) (defs : JsMap FunctionDef)
  (fileFuncMap : JsMap (list FunctionDef)) (edgesMap : JsMap Edge) (file : str)
  : Result (JsMap Edge) :=
  let text := readFileSync file in
  let noComments := stripComments text in
  let funcsInFile := Map_get fileFuncMap file in
  let moduleName := moduleOf file in
  forEachM (recordCall defs funcsInFile moduleName)
           (execAll callRegex noComments) edgesMap.

Definition collectEdges (readFileSync : str -> str) (defs : JsMap FunctionDef)
  (fileFuncMap : JsMap (list FunctionDef)) (files : list str)
  : Result (JsMap Edge) :=
  forEachM (scanFile readFileSync defs fileFuncMap) files [].

(** ** The graph *)

Record Graph : Type := mkGraph {
  modules : list str;
  edges : JsMap Edge
}.

(** [Array.from(new Set(Array.from(defs.values()).map(d => d.module)))] *)
Definition moduleNames (defs : JsMap FunctionDef) : list str :=
  newSet (map module (Map_values defs)).

(** Lines 46 to 99 of the command: both passes, then the module names. *)
Definition buildGraph (readFileSync : str -> str) (files : list str)
  : Result Graph :=
  let phase1 := collectDefinitions readFileSync files in
  edgesMap <- collectEdges readFileSync (fst phase1) (snd phase1) files ;;;
  Ok (mkGraph (moduleNames (fst phase1)) edgesMap).

(** ** The command

    What the handler of [moduleCallGraph.generate] does between the
    folder dialog and the webview: walk the folder, build the graph,
    write it as a Mermaid flowchart. *)

Definition quote : char := 34%N.
Definition newline : char := 10%N.

(** [l.join(sep)] *)
Fixpoint joinWith (sep : str) (l : list str) : str :=
  match l with
  | [] => []
  | [x] => x
  | x :: l' => x ++ sep ++ joinWith sep l'
  end.

(** Lines 98 to 105: one node per module, one labelled arrow per edge.
    The functions of an edge are joined by a backslash and an [n]. *)
Definition mermaidOf (g : Graph) : str :=
  lit "flowchart LR" ++ [newline] ++
  concat (map (fun name => name ++ lit "[" ++ [quote] ++ name ++ [quote] ++
                           lit "]" ++ [newline]) (modules g)) ++
  concat (map (fun edge =>
                 fromModule edge ++ lit " -->|" ++
                 joinWith (lit "\n") (functions edge) ++ lit "| " ++
                 toModule edge ++ [newline])
              (Map_values (edges g))).

(** The file system of a run in which every listed file can be read:
    what a path names, and the text [readFileSync] gives for a file.
    The run writes nothing.  (Files that cannot be read come below.) *)
Record FileSystem : Type := mkFileSystem {
  nodeAt : str -> Node;
  readFileSync : str -> str
}.

(** What the user did: whether a project is open, and the folder
    picked in the dialog, if any. *)
Record Invocation : Type := mkInvocation {
  workspaceFolders : bool;
  folderUri : option str
}.

Inductive Outcome : Type :=
| OpenAProjectFirst                       (* showErrorMessage, return *)
| NoFolderSelected                        (* showErrorMessage, return *)
| NoSourceFiles                           (* showWarningMessage, return *)
| Rendered (g : Graph) (mermaid : str)    (* the webview gets the chart *)
| Rejected (e : Thrown).                  (* the exception leaves the handler *)

Definition generate (fs : FileSystem) (inv : Invocation) : Outcome :=
  if negb (workspaceFolders inv) then OpenAProjectFirst
  else
    match folderUri inv with
    | None => NoFolderSelected
    | Some selectedFolder =>
        match walkFiles (nodeAt fs selectedFolder) selectedFolder sourceExts with
        | Throw e => Rejected e
        | Ok [] => NoSourceFiles
        | Ok files =>
            match buildGraph (readFileSync fs) files with
            | Throw e => Rejected e
            | Ok g => Rendered g (mermaidOf g)
            end
        end
    end.

(** ** Files that cannot be read

    [fs.readFileSync] throws for a listed file that cannot be read (a
    file without read permission, a file removed since the walk).
    Here [readFileSync] gives the text or throws, the same at line 51
    and at line 70; the exception leaves the loop and the handler, as
    there is no [try].  The rest of either loop body is the one above,
    on the text read. *)

Definition collectFile_io (readFileSync : str -> Result str)
  (acc : JsMap FunctionDef * JsMap (list FunctionDef)) (file : str)
  : Result (JsMap FunctionDef * JsMap (list FunctionDef)) :=
  text <- readFileSync file ;;;
  Ok (collectFile (fun _ => text) acc file).

Definition collectDefinitions_io (readFileSync : str -> Result str)
  (files : list str)
  : Result (JsMap FunctionDef * JsMap (list FunctionDef)) :=
  forEachM (collectFile_io readFileSync) files ([], []).

Definition scanFile_io (readFileSync : str -> Result str)
  (defs : JsMap FunctionDef) (fileFuncMap : JsMap (list FunctionDef))
  (edgesMap : JsMap Edge) (file : str) : Result (JsMap Edge) :=
  text <- readFileSync file ;;;
  scanFile (fun _ => text) defs fileFuncMap edgesMap file.

Definition collectEdges_io (readFileSync : str -> Result str)
  (defs : JsMap FunctionDef) (fileFuncMap : JsMap (list FunctionDef))
  (files : list str) : Result (JsMap Edge) :=
  forEachM (scanFile_io readFileSync defs fileFuncMap) files [].

(** Lines 46 to 99 of the command, with reads that may throw. *)
Definition buildGraph_io (readFileSync : str -> Result str) (files : list str)
  : Result Graph :=
  phase1 <- collectDefinitions_io readFileSync files ;;;
  edgesMap <- collectEdges_io readFileSync (fst phase1) (snd phase1) files ;;;
  Ok (mkGraph (moduleNames (fst phase1)) edgesMap).

(** The file system with files that may be unreadable. *)
Record Disk : Type := mkDisk {
  entryAt : str -> Node;
  readOrThrow : str -> Result str
}.

Definition generate_io (fs : Disk) (inv : Invocation) : Outcome :=
  if negb (workspaceFolders inv) then OpenAProjectFirst
  else
    match folderUri inv with
    | None => NoFolderSelected
    | Some selectedFolder =>
        match walkFiles (entryAt fs selectedFolder) selectedFolder sourceExts with
        | Throw e => Rejected e
        | Ok [] => NoSourceFiles
        | Ok files =>
            match buildGraph_io (readOrThrow fs) files with
            | Throw e => Rejected e
            | Ok g => Rendered g (mermaidOf g)
            end
        end
    end.

(** What [readFileSync] throws for the first of the files that cannot
    be read, if there is one. *)
Fixpoint firstReadError (readFileSync : str -> Result str) (files : list str)
  : option Thrown :=
  match files with
  | [] => None
  | file :: rest =>
      match readFileSync file with
      | Throw e => Some e
      | Ok _ => firstReadError readFileSync rest
      end
  end.

(** The texts of the files that can be read. *)
Definition textOf (readFileSync : str -> Result str) (file : str) : str :=
  match readFileSync file with
  | Ok text => text
  | Throw _ => []
  end.

(** Whether a directory that cannot be read lies somewhere under a node. *)
Fixpoint containsNoAccess (node : Node) : bool :=
  match node with
  | Dir entries => existsb (fun entry => containsNoAccess (snd entry)) entries
  | NoAccessDir => true
  | File | Dangling => false
  end.

(** Whether everything under a node can be listed and stat'ed. *)
Fixpoint readable (node : Node) : bool :=
  match node with
  | Dir entries => forallb (fun entry => readable (snd entry)) entries
  | File => true
  | NoAccessDir | Dangling => false
  end.

Definition isDirectory (node : Node) : bool :=
  match node with
  | Dir _ | NoAccessDir => true
  | File | Dangling => false
  end.

(** [FirstFailure node dir e]: the walk of [node] (which [dir] names)
    comes to an entry that cannot be listed or stat'ed, everything it
    visits before that entry can be, and [e] is what [readdirSync] or
    [statSync] throws for the entry: [EACCES] with its path for a
    directory that cannot be read, [ENOENT] for a dangling entry. *)
Inductive FirstFailure : Node -> str -> Thrown -> Prop :=
| Fails_unreadable dir :
    FirstFailure NoAccessDir dir (EACCES dir)
| Fails_dangling dir :
    FirstFailure Dangling dir (ENOENT dir)
| Fails_below before file child after dir e :
    forallb (fun entry => readable (snd entry)) before = true ->
    FirstFailure child (join dir file) e ->
    FirstFailure (Dir (before ++ (file, child) :: after)) dir e.

(** Whether the names of all entries under a node are names as
    [readdirSync] gives them: not empty and without a slash. *)
Fixpoint plainNames (node : Node) : bool :=
  match node with
  | Dir entries =>
      forallb (fun entry =>
                 negb (length (fst entry) =? 0) &&
                 forallb (fun c => negb (c =? slash)%N) (fst entry) &&
                 plainNames (snd entry)) entries
  | File | NoAccessDir | Dangling => true
  end.

(** ** Views of the two passes

    The same computations, cut the way the properties speak of them:
    the definitions a file contributes, the calls that survive the two
    [continue]s, and what one such call does to [edgesMap]. *)

(** What the first [while] loop pushes onto [funcs] for one file. *)
Definition scanDefs (fileName text : str) : list FunctionDef :=
  map (fun m => mkFunctionDef (group1 m) fileName (index m))
      (execAll funcRegex text).

Definition definitionsOf (readFileSync : str -> str) (file : str)
  : list FunctionDef :=
  scanDefs (moduleOf file) (readFileSync file).

(** The names a file defines. *)
Definition definedNames (readFileSync : str -> str) (file : str) : list str :=
  map name (definitionsOf readFileSync file).

(** How many entries of a map stand under a key. *)
Definition Map_count {V : Type} (m : JsMap V) (k : str) : nat :=
  length (filter (fun kv => str_eqb (fst kv) k) m).

(** Every definition of every file, in the order [defs.set] sees them. *)
Definition allDefs (readFileSync : str -> str) (files : list str)
  : list FunctionDef :=
  flat_map (definitionsOf readFileSync) files.

Definition setDef (defs : JsMap FunctionDef) (d : FunctionDef)
  : JsMap FunctionDef :=
  Map_set defs (name d) d.

(** The call sites of a file: callee name and offset in the text
    without comments. *)
Definition scanCalls (text : str) : list (str * nat) :=
  map (fun m => (group1 m, index m)) (execAll callRegex (stripComments text)).

(** The variables of one turn of the second [while] loop, as lines 79
    to 83 set them. *)
Record Attribution : Type := mkAttribution {
  calleeName : str;
  matchIndex : nat;
  callerFunc : FunctionDef
}.

Definition attribute (funcsInFile : list FunctionDef) (moduleName : str)
  (m : MatchResult) : Attribution :=
  mkAttribution (group1 m) (index m) (callerOf funcsInFile moduleName (index m)).

(** Lines 85 to 93: what a turn with these variables does to [edgesMap]. *)
Definition recordAttributed (defs : JsMap FunctionDef) (edgesMap : JsMap Edge)
  (a : Attribution) : Result (JsMap Edge) :=
  match Map_get defs (calleeName a) with
  | None => Ok edgesMap
  | Some calleeDef =>
      if str_eqb (module (callerFunc a)) (module calleeDef) then Ok edgesMap
      else
        let key := edgeKey (module (callerFunc a)) (module calleeDef) in
        let edgesMap1 :=
          if Map_has edgesMap key then edgesMap
          else Map_set edgesMap key
                 (mkEdge (module (callerFunc a)) (module calleeDef) []) in
        match Map_get edgesMap1 key with
        | None => Throw TypeError
        | Some edge =>
            if includes (functions edge) (calleeName a) then Ok edgesMap1
            else Ok (Map_set edgesMap1 key (pushFunction edge (calleeName a)))
        end
  end.

(** The turns of the second [while] loop for one file, in order. *)
Definition attributionsOf (readFileSync : str -> str)
  (fileFuncMap : JsMap (list FunctionDef)) (file : str)
  : option (list Attribution) :=
  match Map_get fileFuncMap file with
  | None => None
  | Some funcsInFile =>
      Some (map (attribute funcsInFile (moduleOf file))
                (execAll callRegex (stripComments (readFileSync file))))
  end.

(** A call that reaches [edgesMap]: caller module, callee module, callee. *)
Definition CallEvent : Type := (str * str * str)%type.

Definition callEvent (defs : JsMap FunctionDef) (moduleName : str)
  (m : MatchResult) : option CallEvent :=
  match Map_get defs (group1 m) with
  | None => None
  | Some calleeDef =>
      if str_eqb moduleName (module calleeDef) then None
      else Some (moduleName, module calleeDef, group1 m)
  end.

Fixpoint filterMap {A B : Type} (f : A -> option B) (l : list A) : list B :=
  match l with
  | [] => []
  | x :: l' =>
      match f x with
      | Some y => y :: filterMap f l'
      | None => filterMap f l'
      end
  end.

Definition eventsOfFile (readFileSync : str -> str) (defs : JsMap FunctionDef)
  (file : str) : list CallEvent :=
  filterMap (callEvent defs (moduleOf file))
            (execAll callRegex (stripComments (readFileSync file))).

Definition allEvents (readFileSync : str -> str) (defs : JsMap FunctionDef)
  (files : list str) : list CallEvent :=
  flat_map (eventsOfFile readFileSync defs) files.

(** Look up or create the edge, then add the callee unless present. *)
Definition addEdge (edgesMap : JsMap Edge) (ev : CallEvent) : JsMap Edge :=
  let '(from, to, fn) := ev in
  let key := edgeKey from to in
  match Map_get edgesMap key with
  | None => Map_set edgesMap key (mkEdge from to [fn])
  | Some edge =>
      if includes (functions edge) fn then edgesMap
      else Map_set edgesMap key (pushFunction edge fn)
  end.

Definition edgesOf (evs : list CallEvent) : JsMap Edge :=
  fold_left addEdge evs [].

(** ** What a pattern matches

    The relation the matcher searches: [Matches r st st'] when [r] can
    take the match from [st] to [st'].  The matcher decides which of
    these it finds first; this relation says which exist. *)

(** The code unit before the position, after moving over [w]. *)
Definition lastOr (prev : option char) (w : str) : option char :=
  match rev w with
  | [] => prev
  | c :: _ => Some c
  end.

(** [st] moved forward over [w], with [rest] left to read. *)
Definition moved (st : MatchState) (w rest : str) : MatchState :=
  mkState (endIndex st + length w) (lastOr (before st) w) rest (captures st).

Definition closeGroup (n : nat) (st st1 : MatchState) : MatchState :=
  mkState (endIndex st1) (before st1) (input st1)
    (setCapture n (firstn (endIndex st1 - endIndex st) (input st))
       (captures st1)).

Inductive Matches : regex -> MatchState -> MatchState -> Prop :=
| M_Chars s st rest :
    input st = s ++ rest -> Matches (Chars s) st (moved st s rest)
| M_Class p st c rest :
    input st = c :: rest -> p c = true ->
    Matches (Class p) st (moved st [c] rest)
| M_Seq r1 r2 st st1 st2 :
    Matches r1 st st1 -> Matches r2 st1 st2 -> Matches (Seq r1 r2) st st2
| M_DisjL r1 r2 st st' : Matches r1 st st' -> Matches (Disj r1 r2) st st'
| M_DisjR r1 r2 st st' : Matches r2 st st' -> Matches (Disj r1 r2) st st'
| M_Repeat g p st w rest :
    input st = w ++ rest -> forallb p w = true ->
    Matches (Repeat g p) st (moved st w rest)
| M_OptSome r st st' : Matches r st st' -> Matches (Opt r) st st'
| M_OptNone r st : Matches (Opt r) st (moved st [] (input st))
| M_Group n r st st1 :
    Matches r st st1 -> Matches (Group n r) st (closeGroup n st st1)
| M_WordBoundary st :
    atWordBoundary st = true -> Matches WordBoundary st (moved st [] (input st)).

(** The fewest code units a match of the pattern takes. *)
Fixpoint minLen (r : regex) : nat :=
  match r with
  | Chars s => length s
  | Class _ => 1
  | Seq r1 r2 => minLen r1 + minLen r2
  | Disj r1 r2 => Nat.min (minLen r1) (minLen r2)
  | Repeat _ _ => 0
  | Opt _ => 0
  | Group _ r1 => minLen r1
  | WordBoundary => 0
  end.

(** The state [exec] starts from when it tries the pattern at [i]. *)
Definition stateAt (text : str) (i : nat) : MatchState :=
  mkState i (charBefore text i) (skipn i text) [].

(** One try of the pattern, at [i] exactly. *)
Definition matchAt (r : regex) (text : str) (i : nat) : option MatchState :=
  matcher r (stateAt text i) Some.

(** What the [while] loop over [exec] sees, said without the loop: the
    leftmost match from [from] on, then the same from its end. *)
Inductive Scan (r : regex) (text : str) : nat -> list MatchResult -> Prop :=
| Scan_done from :
    (forall j, from <= j <= length text -> matchAt r text j = None) ->
    Scan r text from []
| Scan_match from m ms st' :
    from <= index m <= length text ->
    (forall j, from <= j < index m -> matchAt r text j = None) ->
    matchAt r text (index m) = Some st' ->
    lastIndex m = endIndex st' ->
    groups m = captures st' ->
    Scan r text (lastIndex m) ms ->
    Scan r text from (m :: ms).

(** One match ends before the other starts. *)
Definition precedes (m1 m2 : MatchResult) : Prop := lastIndex m1 <= index m2.

(** One definition starts before the other. *)
Definition startsBefore (d1 d2 : FunctionDef) : Prop := start d1 < start d2.

(** ** Signatures and call sites, read off the text *)

(** [[a-zA-Z_][a-zA-Z0-9_]*] *)
Definition isIdentifier (s : str) : bool :=
  match s with
  | c :: cs => isIdentStart c && forallb isWordChar cs
  | [] => false
  end.

(** The state after the group of [identRegex] closed on [nm]. *)
Definition afterIdent (st : MatchState) (nm rest : str) : MatchState :=
  mkState (endIndex st + length nm) (lastOr (before st) nm) rest
    (setCapture 1 nm (captures st)).

(** The text has, at offset [i], a keyword, white space, the name
    [nm], optional white space and a parameter list. *)
Definition signatureAt (text : str) (i : nat) (nm : str) : Prop :=
  exists kw ws1 ws2 params rest,
    In kw keywords /\
    ws1 <> [] /\ forallb isWhiteSpace ws1 = true /\
    isIdentifier nm = true /\
    forallb isWhiteSpace ws2 = true /\
    forallb notRParen params = true /\
    i <= length text /\
    skipn i text =
      kw ++ ws1 ++ nm ++ ws2 ++ lit "(" ++ params ++ lit ")" ++ rest.

(** The text has, at offset [i], the name [nm] starting a word, then
    optional white space and an opening parenthesis. *)
Definition callAt (text : str) (i : nat) (nm : str) : Prop :=
  exists ws rest,
    atWordBoundary (stateAt text i) = true /\
    isIdentifier nm = true /\
    forallb isWhiteSpace ws = true /\
    i <= length text /\
    skipn i text = nm ++ ws ++ lit "(" ++ rest.

(** The stretch of the text from [i] to [j] touches none of the
    comments that [stripComments] removes. *)
Definition outsideComments (text : str) (i j : nat) : bool :=
  forallb (fun m => (lastIndex m <=? i) || (j <=? index m))
          (execAll commentRegex text).

(** A run of a class ends where the rest begins. *)
Definition stopsAt (p : char -> bool) (r : str) : Prop :=
  match r with
  | [] => True
  | c :: _ => p c = false
  end.

(** The pattern of the first pass with the keyword made optional: what
    it would be if a signature needed no leading keyword. *)
Definition funcRegexOptionalKeyword : regex :=
  (Opt (keywordRegex ;; Class isWhiteSpace ;; Repeat true isWhiteSpace) ;;
   identRegex ;; Repeat true isWhiteSpace ;; Chars (lit "(") ;;
   Repeat true notRParen ;; Chars (lit ")") ;; Repeat true isWhiteSpace ;;
   Opt (Chars (lit "{")))%re.

(** ** Comparing edge collections, and when the order of files is free *)

(** The same pair of modules, with the same set of functions. *)
Definition sameEdge (e1 e2 : Edge) : Prop :=
  fromModule e1 = fromModule e2 /\ toModule e1 = toModule e2 /\
  forall fn, In fn (functions e1) <-> In fn (functions e2).

Definition edgesIncluded (E1 E2 : JsMap Edge) : Prop :=
  forall e1, In e1 (Map_values E1) ->
    exists e2, In e2 (Map_values E2) /\ sameEdge e1 e2.

Definition sameEdgeSet (E1 E2 : JsMap Edge) : Prop :=
  edgesIncluded E1 E2 /\ edgesIncluded E2 E1.

(** No name is defined in two files of different modules. *)
Definition singleOwner (readFileSync : str -> str) (files : list str) : bool :=
  forallb (fun f1 =>
    forallb (fun f2 =>
      str_eqb (moduleOf f1) (moduleOf f2) ||
      forallb (fun n => negb (includes (definedNames readFileSync f2) n))
              (definedNames readFileSync f1))
      files)
    files.

(** Different pairs of modules have different keys in [edgesMap]. *)
Definition keysDistinct (mods : list str) : bool :=
  forallb (fun a => forallb (fun b => forallb (fun a' => forallb (fun b' =>
    negb (str_eqb (edgeKey a b) (edgeKey a' b')) ||
    (str_eqb a a' && str_eqb b b')) mods) mods) mods) mods.

(** ** Worked inputs *)

(** A file system holding the given files and nothing else. *)
Fixpoint filesystem (content : list (str * str)) (file : str) : str :=
  match content with
  | [] => []
  | (f, text) :: rest => if str_eqb file f then text else filesystem rest file
  end.

(** Example 1 of the specification. *)
Definition example1 : str -> str :=
  filesystem [(lit "proj/a.c", lit "int main(){ bar(); }");
              (lit "proj/b.c", lit "void bar(){}")].

(** A caller without a function definition of its own. *)
Definition exampleNoDef : str -> str :=
  filesystem [(lit "proj/a.c", lit "main(){ bar(); }");
              (lit "proj/b.c", lit "void bar(){}")].

(** Example 4 of the specification: two files define [init]. *)
Definition example4 : str -> str :=
  filesystem [(lit "proj/a.c", lit "void init(){}");
              (lit "proj/b.c", lit "void init(){}");
              (lit "proj/c.c", lit "int main(){ init(); }")].

(** A comment in front of a function moves its calls, not its start. *)
Definition exampleComment : str :=
  lit "void a(){} /* the helper below is still in use */ void f(){ g(); }".

Definition exampleCommentFirst : str :=
  lit "/* entry point of the tool */ void f(){ g(); }".

(** The two texts as the files [m.c] and [n.c] of a folder. *)
Definition exampleShifted : str -> str :=
  filesystem [(lit "proj/m.c", exampleComment);
              (lit "proj/n.c", exampleCommentFirst)].

(** A folder with a directory that cannot be read. *)
Definition exampleLocked : Node :=
  Dir [(lit "a.c", File); (lit "locked", NoAccessDir); (lit "b.c", File)].

(** The folder of Example 1, and the same with one more file that the
    walk does not pick up. *)
Definition example1Folder : Node := Dir [(lit "a.c", File); (lit "b.c", File)].

Definition example1Before : FileSystem :=
  mkFileSystem (fun _ => example1Folder) example1.

Definition example1After : FileSystem :=
  mkFileSystem (fun _ => example1Folder)
    (filesystem [(lit "proj/a.c", lit "int main(){ bar(); }");
                 (lit "proj/b.c", lit "void bar(){}");
                 (lit "proj/tmp_diagram.html", lit "<svg/>")]).

(** Two pairs of modules with one key: [a->b] calls into [c], and [a]
    calls into [b->c]. *)
Definition exampleKeyClash : str -> str :=
  filesystem [(lit "proj/a->b.c", lit "int f(){ g(); }");
              (lit "proj/c.c", lit "void g(){}");
              (lit "proj/a.c", lit "int h(){ k(); }");
              (lit "proj/b->c.c", lit "void k(){}")].

(** A function whose return type is none of the keywords. *)
Definition exampleNoKeyword : str := lit "long count(){}".

(** A return type that is none of the keywords and ends in the letters
    of one. *)
Definition exampleKeywordTail : str := lit "Point origin(){}".

(** A folder in which a dangling entry comes before the directory that
    cannot be read. *)
Definition exampleDanglingFirst : Node :=
  Dir [(lit "a.c", File); (lit "gone", Dangling); (lit "locked", NoAccessDir)].

(** Example 1 with [b.c] listed and not readable. *)
Definition example1Unreadable : Disk :=
  mkDisk (fun _ => example1Folder)
    (fun file =>
       if str_eqb file (lit "proj/b.c") then Throw (EACCES file)
       else Ok (example1 file)).

(** A signature inside a comment, and the same name defined elsewhere. *)
Definition exampleCommented : str -> str :=
  filesystem [(lit "proj/a.c", lit "/* void init(); */ int main(){ return 0; }");
              (lit "proj/b.c", lit "void init(){}")].

(** Two definitions of [init] and no call of it; [a.c] has a comment
    above its definition. *)
Definition exampleTwoInits : str -> str :=
  filesystem [(lit "proj/a.c", lit "/* set up */ void init(){}");
              (lit "proj/b.c", lit "void init(){}")].

(** ** Exporting the chart

    The handler of the messages [exportPNG], [exportJPEG] and
    [exportPDF] that the webview posts, with [createTempHtml] and
    [exportDiagramPuppeteer].  The files are a map from paths to
    contents (two spellings of one path are two keys), with what the
    system lets the extension write and remove.  The headless browser
    is outside the code: a [Browser] says which of the awaited calls
    reject and what the page gives back. *)

Definition FileStore : Type := JsMap str.

Record Access : Type := mkAccess {
  mayWrite : str -> bool;
  mayUnlink : str -> bool
}.

(** [Map.prototype.delete] *)
Definition Map_delete {V : Type} (m : JsMap V) (k : str) : JsMap V :=
  filter (fun kv => negb (str_eqb k (fst kv))) m.

(** [fs.writeFileSync]: creates the file or replaces its content. *)
Definition writeFileSync (acc : Access) (store : FileStore) (path content : str)
  : Result FileStore :=
  if mayWrite acc path then Ok (Map_set store path content)
  else Throw (EACCES path).

(** [fs.unlinkSync]: throws when there is no such file. *)
Definition unlinkSync (acc : Access) (store : FileStore) (path : str)
  : Result FileStore :=
  if negb (Map_has store path) then Throw (ENOENT path)
  else if mayUnlink acc path then Ok (Map_delete store path)
  else Throw (EACCES path).

(** The page of the temporary file, around the SVG. *)
Definition tempHtml (svgContent : str) : str :=
  [newline] ++
  lit "<!DOCTYPE html>" ++ [newline] ++
  lit "<html lang=" ++ [quote] ++ lit "en" ++ [quote] ++ lit ">" ++ [newline] ++
  lit "<head>" ++ [newline] ++
  lit "<meta charset=" ++ [quote] ++ lit "UTF-8" ++ [quote] ++ lit ">" ++
    [newline] ++
  lit "<style>" ++ [newline] ++
  lit "body { margin:0; padding:0; }" ++ [newline] ++
  lit "svg { width: 100%; height: 100%; }" ++ [newline] ++
  lit "</style>" ++ [newline] ++
  lit "</head>" ++ [newline] ++
  lit "<body>" ++ [newline] ++
  svgContent ++ [newline] ++
  lit "</body>" ++ [newline] ++
  lit "</html>".

Definition tmpDiagram (contextPath : str) : str :=
  join contextPath (lit "tmp_diagram.html").

(** [createTempHtml(svgContent, contextPath)]: the files afterwards and
    the path returned. *)
Definition createTempHtml (acc : Access) (store : FileStore)
  (svgContent contextPath : str) : Result (FileStore * str) :=
  let tmpHtmlPath := tmpDiagram contextPath in
  let htmlContent := tempHtml svgContent in
  files <- writeFileSync acc store tmpHtmlPath htmlContent ;;;
  Ok (files, tmpHtmlPath).

(** The awaited calls of [exportDiagramPuppeteer], in the order of the
    source. *)
Inductive Step : Type :=
| launch | newPage | goto | waitForSelector | pdf | query | boundingBox
| setViewport | screenshot | close.

(** What [element.boundingBox()] resolves to.  The numbers are
    JavaScript numbers; a finite one is a rational, and multiplying it
    by 4 and rounding up are exact as long as the product is finite
    (a side of more than about 4e307 pixels gives [Infinity]; no
    property below speaks of the sizes). *)
Record Box : Type := mkBox {
  width : QArith_base.Q;
  height : QArith_base.Q
}.

Record Browser : Type := mkBrowser {
  rejects : Step -> bool;   (* the awaited call of this step rejects *)
  element : bool;           (* [page.$('svg')] is not [null] *)
  box : option Box;         (* what [element.boundingBox()] resolves to *)
  printed : str;            (* the bytes [page.pdf] writes *)
  image : str               (* the bytes [element.screenshot] writes *)
}.

(** The calls made on the browser, each recorded when it is made. *)
Inductive Action : Type :=
| Launched
| PageOpened
| WentTo (url : str)
| Waited
| Printed (path : str)
| Queried
| Measured
| ViewportSet (w h : Z)
| Shot (path type : str) (w h : Z)
| Closed.

(** The files, the calls made on the browser so far, and the messages
    shown by [showInformationMessage]. *)
Record Session : Type := mkSession {
  store : FileStore;
  trace : list Action;
  notices : list str
}.

Inductive Rejection : Type :=
| Exception (e : Thrown)          (* thrown by the code or by [fs] *)
| BrowserRejected (at_ : Step).   (* an awaited browser call rejected *)

Inductive Completion : Type :=
| Returned
| Failed (r : Rejection).

(** [await] of one browser call: the call is made; then it rejects,
    and the function is left, or it resolves and the rest runs. *)
Definition await (b : Browser) (s : Step) (a : Action)
  (rest : Session -> Session * Completion) (st : Session)
  : Session * Completion :=
  let called := mkSession (store st) (trace st ++ [a]) (notices st) in
  if rejects b s then (called, Failed (BrowserRejected s))
  else rest called.

(** The call a recorded action is. *)
Definition stepOf (a : Action) : Step :=
  match a with
  | Launched => launch
  | PageOpened => newPage
  | WentTo _ => goto
  | Waited => waitForSelector
  | Printed _ => pdf
  | Queried => query
  | Measured => boundingBox
  | ViewportSet _ _ => setViewport
  | Shot _ _ _ _ => screenshot
  | Closed => close
  end.

(** The browser has written a file. *)
Definition written (path content : str) (st : Session) : Session :=
  mkSession (Map_set (store st) path content) (trace st) (notices st).

Definition scale : QArith_base.Q := QArith_base.Qmake (Zpos 4) 1.

(** [Math.ceil(x * scale)] *)
Definition ceilScaled (x : QArith_base.Q) : Z :=
  Qround.Qceiling (QArith_base.Qmult x scale).

(** [savePath.endsWith(`.${type}`) ? savePath : `${savePath}.${type}`] *)
Definition screenshotPath (savePath type : str) : str :=
  if endsWith savePath (dot :: type) then savePath
  else savePath ++ dot :: type.

Definition exportDiagramPuppeteer (b : Browser)
  (tmpHtmlPath savePath type : str) : Session -> Session * Completion :=
  let finish := await b close Closed (fun st => (st, Returned)) in
  await b launch Launched (
  await b newPage PageOpened (
  await b goto (WentTo (lit "file://" ++ tmpHtmlPath)) (
  await b waitForSelector Waited (
    if str_eqb type (lit "pdf") then
      await b pdf (Printed savePath)
        (fun st => finish (written savePath (printed b) st))
    else
      await b query Queried (
        if element b then
          await b boundingBox Measured (
            match box b with
            | Some bx =>
                let w := ceilScaled (width bx) in
                let h := ceilScaled (height bx) in
                await b setViewport (ViewportSet w h) (
                  let path := screenshotPath savePath type in
                  await b screenshot (Shot path type w h)
                    (fun st => finish (written path (image b) st)))
            | None => finish
            end)
        else finish))))).

Record Message : Type := mkMessage {
  command : str;
  svg : str
}.

Definition exportCommands : list str :=
  [lit "exportPNG"; lit "exportJPEG"; lit "exportPDF"].

(** [extMap[command]] *)
Definition extMap (cmd : str) : option str :=
  if str_eqb cmd (lit "exportPNG") then Some (lit "png")
  else if str_eqb cmd (lit "exportJPEG") then Some (lit "jpeg")
  else if str_eqb cmd (lit "exportPDF") then Some (lit "pdf")
  else None.

(** The handler given to [onDidReceiveMessage].  [uri] is what the
    save dialog gave: the chosen path, or nothing. *)
Definition onDidReceiveMessage (acc : Access) (b : Browser)
  (extensionPath : str) (uri : option str) (message : Message) (st : Session)
  : Session * Completion :=
  if negb (includes exportCommands (command message)) then (st, Returned)
  else
    match extMap (command message) with
    | None => (st, Failed (Exception TypeError))
    | Some type =>
        match uri with
        | None => (st, Returned)
        | Some fsPath =>
            match createTempHtml acc (store st) (svg message) extensionPath with
            | Throw e => (st, Failed (Exception e))
            | Ok (files, tmpHtmlPath) =>
                let exported :=
                  exportDiagramPuppeteer b tmpHtmlPath fsPath type
                    (mkSession files (trace st) (notices st)) in
                match snd exported with
                | Failed r => (fst exported, Failed r)
                | Returned =>
                    match unlinkSync acc (store (fst exported)) tmpHtmlPath with
                    | Throw e => (fst exported, Failed (Exception e))
                    | Ok files' =>
                        (mkSession files' (trace (fst exported))
                           (notices (fst exported) ++ [lit "Saved " ++ fsPath]),
                         Returned)
                    end
                end
            end
        end
    end.

(** A browser that does all it is asked, on a page whose SVG measures
    100.5 by 40. *)
Definition goodBrowser : Browser :=
  mkBrowser (fun _ => false) true
    (Some (mkBox (QArith_base.Qmake (Zpos 201) 2) (QArith_base.Qmake (Zpos 40) 1)))
    (lit "%PDF") (lit "PNG").

(** A browser in which no SVG shows up before the time-out. *)
Definition stuckBrowser : Browser :=
  mkBrowser (fun s => match s with waitForSelector => true | _ => false end)
    false None (lit "%PDF") (lit "PNG").

(** A browser whose SVG has no box (it is not displayed). *)
Definition hiddenBrowser : Browser :=
  mkBrowser (fun _ => false) true None (lit "%PDF") (lit "PNG").

Definition emptySession : Session := mkSession [] [] [].

Definition fullAccess : Access := mkAccess (fun _ => true) (fun _ => true).

(** The file the browser writes when all goes well, and its content. *)
Definition outputOf (b : Browser) (savePath type : str) : option (str * str) :=
  if str_eqb type (lit "pdf") then Some (savePath, printed b)
  else if element b then
    match box b with
    | Some _ => Some (screenshotPath savePath type, image b)
    | None => None
    end
  else None.

(** ** What the walk lists *)

(** [Listed exts node dir p]: [p] is the path of a regular file
    somewhere under [node] (which [dir] names) whose name has one of
    the extensions [exts]. *)
Inductive Listed (exts : list str) : Node -> str -> str -> Prop :=
| Listed_here entries dir file :
    In (file, File) entries ->
    includes exts (extname file) = true ->
    Listed exts (Dir entries) dir (join dir file)
| Listed_below entries dir file child p :
    In (file, child) entries ->
    Listed exts child (join dir file) p ->
    Listed exts (Dir entries) dir p.

(** A header and a source file of one base name. *)
Definition exampleHeader : str -> str :=
  filesystem [(lit "proj/a.h", lit "void helper();");
              (lit "proj/a.c", lit "void helper(){} int main(){ helper(); }")].

(** A folder with a subdirectory. *)
Definition exampleNested : Node :=
  Dir [(lit "a.c", File);
       (lit "lib", Dir [(lit "b.h", File); (lit "notes.txt", File)]);
       (lit "README.md", File)].

(** ** Proof steps *)

(** Facts about the character classes come down to comparing code units. *)
Ltac class_arith :=
  unfold isIdentStart, isWordChar, isWhiteSpace, isLineTerminator, isLower,
    isUpper, isDigit, notRParen in *;
  repeat match goal with
         | H : _ = true |- _ =>
             progress rewrite ?orb_true_iff, ?andb_true_iff, ?N.eqb_eq,
               ?N.leb_le, ?negb_true_iff, ?N.eqb_neq in H
         end;
  lia.

(** The cases of one run of [exportDiagramPuppeteer]. *)
Ltac export_cases b :=
  cbv beta iota zeta delta [exportDiagramPuppeteer await written outputOf
                            store trace notices];
  repeat (match goal with
          | |- context [if rejects b ?s then _ else _] =>
              destruct (rejects b s) eqn:?
          | |- context [if str_eqb ?t (lit "pdf") then _ else _] =>
              destruct (str_eqb t (lit "pdf")) eqn:?
          | |- context [if element b then _ else _] =>
              destruct (element b) eqn:?
          | |- context [match box b with _ => _ end] =>
              destruct (box b) eqn:?
          end;
          cbv beta iota zeta delta [store trace notices]).

(* ================================================================= *)
(** * Part II: properties *)
(* ================================================================= *)

(** ** Strings and maps *)

Lemma str_eqb_eq (a b : str) : str_eqb a b = true <-> a = b.
Proof.
  revert b; induction a as [|x a IH]; intros [|y b]; simpl; split;
    try congruence; try reflexivity.
  - intros H. apply andb_true_iff in H as [Hx Hab].
    apply N.eqb_eq in Hx. apply IH in Hab. congruence.
  - intros H. injection H as -> ->. rewrite N.eqb_refl. simpl. now apply IH.
Qed.

Lemma str_eqb_refl (a : str) : str_eqb a a = true.
Proof. now apply str_eqb_eq. Qed.

Lemma str_eqb_neq (a b : str) : str_eqb a b = false <-> a <> b.
Proof.
  split.
  - intros H E. apply str_eqb_eq in E. congruence.
  - intros H. destruct (str_eqb a b) eqn:E; [|reflexivity].
    apply str_eqb_eq in E. contradiction.
Qed.

Lemma str_eqb_sym (a b : str) : str_eqb a b = str_eqb b a.
Proof.
  destruct (str_eqb a b) eqn:E, (str_eqb b a) eqn:E'; try reflexivity.
  - apply str_eqb_eq in E. subst. now rewrite str_eqb_refl in E'.
  - apply str_eqb_eq in E'. subst. now rewrite str_eqb_refl in E.
Qed.

Lemma includes_In (l : list str) (x : str) : includes l x = true <-> In x l.
Proof.
  unfold includes. rewrite existsb_exists. split.
  - intros [y [Hy E]]. apply str_eqb_eq in E. now subst.
  - intros H. exists x. split; [assumption|apply str_eqb_refl].
Qed.

Lemma includes_not_In (l : list str) (x : str) : includes l x = false <-> ~ In x l.
Proof.
  rewrite <- includes_In. destruct (includes l x); split; congruence.
Qed.

Section MapFacts.
Variable V : Type.
Implicit Types (m : JsMap V) (k : str) (v : V).

Lemma Map_get_set_same m k v : Map_get (Map_set m k v) k = Some v.
Proof.
  induction m as [|[k' v'] m IH]; simpl.
  - now rewrite str_eqb_refl.
  - destruct (str_eqb k k') eqn:E; simpl; rewrite E; [reflexivity|exact IH].
Qed.

Lemma Map_get_set_other m k k' v :
  k <> k' -> Map_get (Map_set m k v) k' = Map_get m k'.
Proof.
  intros Hne. induction m as [|[k0 v0] m IH]; simpl.
  - destruct (str_eqb k' k) eqn:E; [|reflexivity].
    apply str_eqb_eq in E. congruence.
  - destruct (str_eqb k k0) eqn:E; simpl.
    + apply str_eqb_eq in E. subst k0.
      destruct (str_eqb k' k) eqn:E'; [|reflexivity].
      apply str_eqb_eq in E'. congruence.
    + now rewrite IH.
Qed.

Lemma Map_set_set m k v v' : Map_set (Map_set m k v) k v' = Map_set m k v'.
Proof.
  induction m as [|[k0 v0] m IH]; simpl.
  - now rewrite str_eqb_refl.
  - destruct (str_eqb k k0) eqn:E; simpl; rewrite E; [reflexivity|now rewrite IH].
Qed.

Lemma Map_get_In m k v : Map_get m k = Some v -> In (k, v) m.
Proof.
  induction m as [|[k0 v0] m IH]; simpl; [discriminate|].
  destruct (str_eqb k k0) eqn:E.
  - apply str_eqb_eq in E. intros [= ->]. left. now subst.
  - intros H. right. now apply IH.
Qed.

Lemma Map_get_None m k : Map_get m k = None <-> ~ In k (map fst m).
Proof.
  induction m as [|[k0 v0] m IH]; simpl; [tauto|].
  destruct (str_eqb k k0) eqn:E.
  - apply str_eqb_eq in E. subst. split; [discriminate|tauto].
  - apply str_eqb_neq in E. rewrite IH. split; [intros H [H'|H']|]; try tauto.
    congruence.
Qed.

Lemma Map_set_keys_new m k v :
  Map_get m k = None -> Map_set m k v = m ++ [(k, v)].
Proof.
  induction m as [|[k0 v0] m IH]; simpl; [reflexivity|].
  destruct (str_eqb k k0); [discriminate|]. intros H. now rewrite IH.
Qed.

Lemma Map_set_keys_old m k v [v0] :
  Map_get m k = Some v0 -> map fst (Map_set m k v) = map fst m.
Proof.
  induction m as [|[k1 v1] m IH]; simpl; [discriminate|].
  destruct (str_eqb k k1); simpl; [reflexivity|].
  intros H. now rewrite IH.
Qed.

Lemma Map_In_get m k v :
  NoDup (map fst m) -> In (k, v) m -> Map_get m k = Some v.
Proof.
  induction m as [|[k0 v0] m IH]; simpl; [tauto|].
  intros Hnd [[= -> ->]|Hin].
  - now rewrite str_eqb_refl.
  - inversion Hnd as [|? ? Hk0 Hnd']; subst.
    destruct (str_eqb k k0) eqn:E; [|now apply IH].
    apply str_eqb_eq in E. subst k0. exfalso. apply Hk0.
    change k with (fst (k, v)). now apply in_map.
Qed.

Lemma Map_set_NoDup m k v :
  NoDup (map fst m) -> NoDup (map fst (Map_set m k v)).
Proof.
  intros Hnd. destruct (Map_get m k) eqn:E.
  - now rewrite (Map_set_keys_old m k v E).
  - rewrite (Map_set_keys_new m k v E), map_app. simpl.
    apply NoDup_app; [assumption|constructor; [tauto|constructor]|].
    intros x Hx [<-|[]]. now apply Map_get_None in E.
Qed.

Lemma Map_get_values m k v : Map_get m k = Some v -> In v (Map_values m).
Proof.
  intros H. apply Map_get_In in H. unfold Map_values.
  change v with (snd (k, v)). now apply in_map.
Qed.

End MapFacts.

Lemma forEachM_app {A B : Type} (body : A -> B -> Result A) (l1 l2 : list B) (a : A) :
  forEachM body (l1 ++ l2) a = (a' <- forEachM body l1 a ;;; forEachM body l2 a').
Proof.
  revert a; induction l1 as [|x l1 IH]; intros a; simpl; [reflexivity|].
  destruct (body a x); simpl; [apply IH|reflexivity].
Qed.

(** ** The first pass, as one fold over all definitions *)

Section Passes.
Variable readFileSync : str -> str.

Lemma recordDef_fold (fileName : str) (ms : list MatchResult)
  (funcs : list FunctionDef) (defs : JsMap FunctionDef) :
  fold_left (recordDef fileName) ms (funcs, defs) =
  (funcs ++ map (fun m => mkFunctionDef (group1 m) fileName (index m)) ms,
   fold_left setDef
     (map (fun m => mkFunctionDef (group1 m) fileName (index m)) ms) defs).
Proof.
  revert funcs defs; induction ms as [|m ms IH]; intros funcs defs; simpl.
  - now rewrite app_nil_r.
  - unfold recordDef at 2. simpl. rewrite IH, <- app_assoc. reflexivity.
Qed.

Lemma collectFile_eq (acc : JsMap FunctionDef * JsMap (list FunctionDef))
  (file : str) :
  collectFile readFileSync acc file =
  (fold_left setDef (definitionsOf readFileSync file) (fst acc),
   Map_set (snd acc) file (definitionsOf readFileSync file)).
Proof.
  unfold collectFile. rewrite recordDef_fold. reflexivity.
Qed.

Lemma collect_fst (files : list str)
  (acc : JsMap FunctionDef * JsMap (list FunctionDef)) :
  fst (fold_left (collectFile readFileSync) files acc) =
  fold_left setDef (allDefs readFileSync files) (fst acc).
Proof.
  revert acc; induction files as [|f files IH]; intros acc; simpl; [reflexivity|].
  rewrite IH, collectFile_eq. simpl. unfold allDefs. simpl.
  now rewrite fold_left_app.
Qed.

(** [fileFuncMap.get(file)] is never [undefined] in the second pass. *)
Lemma collect_snd (files : list str)
  (acc : JsMap FunctionDef * JsMap (list FunctionDef)) (f : str) :
  Map_get (snd (fold_left (collectFile readFileSync) files acc)) f =
  if includes files f then Some (definitionsOf readFileSync f)
  else Map_get (snd acc) f.
Proof.
  revert acc; induction files as [|f0 files IH]; intros acc; simpl; [reflexivity|].
  rewrite IH, collectFile_eq. simpl.
  destruct (includes files f) eqn:E; [now rewrite orb_true_r|].
  rewrite orb_false_r. destruct (str_eqb f f0) eqn:E0.
  - apply str_eqb_eq in E0. subst f0. apply Map_get_set_same.
  - apply str_eqb_neq in E0. apply Map_get_set_other. congruence.
Qed.

Lemma fileFuncMap_get (files : list str) (f : str) :
  In f files ->
  Map_get (snd (collectDefinitions readFileSync files)) f =
  Some (definitionsOf readFileSync f).
Proof.
  intros H. unfold collectDefinitions. rewrite collect_snd.
  apply includes_In in H. now rewrite H.
Qed.

Lemma defs_eq (files : list str) :
  fst (collectDefinitions readFileSync files) =
  fold_left setDef (allDefs readFileSync files) [].
Proof. unfold collectDefinitions. now rewrite collect_fst. Qed.

(** ** The second pass, as one fold over the calls that reach [edgesMap] *)

Lemma scanDefs_module (fileName text : str) :
  Forall (fun f => module f = fileName) (scanDefs fileName text).
Proof.
  unfold scanDefs. apply Forall_forall. intros f Hf.
  apply in_map_iff in Hf as [m [<- _]]. reflexivity.
Qed.

Lemma last_In_or_default {A : Type} (l : list A) (d : A) :
  last l d = d \/ In (last l d) l.
Proof.
  induction l as [|x l IH]; [now left|].
  destruct l as [|y l]; [right; now left|].
  destruct IH as [IH|IH].
  - left. exact IH.
  - right. right. exact IH.
Qed.

(** The caller's module is always the module of the file being scanned:
    every definition of a file carries that file's module, and so does
    the pseudo-function. *)
Lemma callerOf_module (funcs : list FunctionDef) (moduleName : str) (i : nat) :
  Forall (fun f => module f = moduleName) funcs ->
  module (callerOf funcs moduleName i) = moduleName.
Proof.
  intros H. unfold callerOf.
  destruct (last_In_or_default (filter (fun f => start f <=? i) funcs)
              (moduleLevel moduleName)) as [E|Hin].
  - rewrite E. reflexivity.
  - apply filter_In in Hin as [Hin _].
    rewrite Forall_forall in H. now apply H.
Qed.

Lemma recordCall_eq (defs : JsMap FunctionDef) (funcs : list FunctionDef)
  (moduleName : str) (edgesMap : JsMap Edge) (m : MatchResult) :
  Forall (fun f => module f = moduleName) funcs ->
  recordCall defs (Some funcs) moduleName edgesMap m =
  Ok (match callEvent defs moduleName m with
      | Some ev => addEdge edgesMap ev
      | None => edgesMap
      end).
Proof.
  intros Hm. unfold recordCall, callEvent.
  rewrite (callerOf_module _ _ (index m) Hm).
  destruct (Map_get defs (group1 m)) as [d|]; [|reflexivity].
  destruct (str_eqb moduleName (module d)); [reflexivity|].
  unfold addEdge, Map_has.
  destruct (Map_get edgesMap (edgeKey moduleName (module d))) as [e|] eqn:E.
  - rewrite E. destruct (includes (functions e) (group1 m)); reflexivity.
  - rewrite Map_get_set_same. simpl. now rewrite Map_set_set.
Qed.

Lemma recordCalls_eq (defs : JsMap FunctionDef) (funcs : list FunctionDef)
  (moduleName : str) (ms : list MatchResult) (edgesMap : JsMap Edge) :
  Forall (fun f => module f = moduleName) funcs ->
  forEachM (recordCall defs (Some funcs) moduleName) ms edgesMap =
  Ok (fold_left addEdge (filterMap (callEvent defs moduleName) ms) edgesMap).
Proof.
  intros Hm. revert edgesMap; induction ms as [|m ms IH]; intros em;
    cbn [forEachM filterMap].
  - reflexivity.
  - rewrite recordCall_eq by exact Hm. cbn [bind].
    destruct (callEvent defs moduleName m); cbn [fold_left]; apply IH.
Qed.

Lemma scanFile_eq (defs : JsMap FunctionDef)
  (fileFuncMap : JsMap (list FunctionDef)) (edgesMap : JsMap Edge) (file : str) :
  Map_get fileFuncMap file = Some (definitionsOf readFileSync file) ->
  scanFile readFileSync defs fileFuncMap edgesMap file =
  Ok (fold_left addEdge (eventsOfFile readFileSync defs file) edgesMap).
Proof.
  intros H. unfold scanFile. rewrite H.
  apply recordCalls_eq. apply scanDefs_module.
Qed.

Lemma collectEdges_from (defs : JsMap FunctionDef)
  (fileFuncMap : JsMap (list FunctionDef)) (files : list str)
  (edgesMap : JsMap Edge) :
  (forall f, In f files ->
     Map_get fileFuncMap f = Some (definitionsOf readFileSync f)) ->
  forEachM (scanFile readFileSync defs fileFuncMap) files edgesMap =
  Ok (fold_left addEdge (allEvents readFileSync defs files) edgesMap).
Proof.
  revert edgesMap; induction files as [|f files IH]; intros em H;
    cbn [forEachM].
  - reflexivity.
  - rewrite scanFile_eq by (apply H; now left). cbn [bind].
    rewrite IH by (intros; apply H; now right).
    unfold allEvents. cbn [flat_map]. now rewrite fold_left_app.
Qed.

(** The two passes never throw, and this is the graph they build. *)
Lemma buildGraph_eq (files : list str) :
  buildGraph readFileSync files =
  Ok (mkGraph
        (moduleNames (fold_left setDef (allDefs readFileSync files) []))
        (fold_left addEdge
           (allEvents readFileSync
              (fold_left setDef (allDefs readFileSync files) []) files) [])).
Proof.
  unfold buildGraph, collectEdges.
  rewrite collectEdges_from by (intros f Hf; now apply fileFuncMap_get).
  simpl. now rewrite defs_eq.
Qed.

End Passes.

(** ** What [edgesMap] holds after a run of calls *)

Lemma edgesOf_snoc (evs : list CallEvent) (ev : CallEvent) :
  edgesOf (evs ++ [ev]) = addEdge (edgesOf evs) ev.
Proof. unfold edgesOf. now rewrite fold_left_app. Qed.

Lemma addEdge_NoDup (em : JsMap Edge) (ev : CallEvent) :
  NoDup (map fst em) -> NoDup (map fst (addEdge em ev)).
Proof.
  intros H. destruct ev as [[a b] fn]. unfold addEdge.
  destruct (Map_get em (edgeKey a b)) as [e|].
  - destruct (includes (functions e) fn); [assumption|now apply Map_set_NoDup].
  - now apply Map_set_NoDup.
Qed.

Lemma edgesOf_NoDup (evs : list CallEvent) : NoDup (map fst (edgesOf evs)).
Proof.
  induction evs as [|ev evs IH] using rev_ind; [constructor|].
  rewrite edgesOf_snoc. now apply addEdge_NoDup.
Qed.

(** How one call changes a lookup. *)
Lemma addEdge_get (em : JsMap Edge) (a b fn k : str) :
  Map_get (addEdge em (a, b, fn)) k =
  if str_eqb k (edgeKey a b) then
    match Map_get em k with
    | None => Some (mkEdge a b [fn])
    | Some e => if includes (functions e) fn then Some e
                else Some (pushFunction e fn)
    end
  else Map_get em k.
Proof.
  unfold addEdge. destruct (str_eqb k (edgeKey a b)) eqn:E.
  - apply str_eqb_eq in E. subst k.
    destruct (Map_get em (edgeKey a b)) as [e|] eqn:G.
    + destruct (includes (functions e) fn); [exact G|apply Map_get_set_same].
    + apply Map_get_set_same.
  - apply str_eqb_neq in E.
    destruct (Map_get em (edgeKey a b)) as [e|] eqn:G.
    + destruct (includes (functions e) fn); [reflexivity|].
      apply Map_get_set_other. congruence.
    + apply Map_get_set_other. congruence.
Qed.

(** Every entry was created by a call its key comes from, keeps the two
    modules of that call, and lists only callees of calls with its key. *)
Lemma edgesOf_sound (evs : list CallEvent) (k : str) (e : Edge) :
  Map_get (edgesOf evs) k = Some e ->
  k = edgeKey (fromModule e) (toModule e) /\
  (exists fn, In (fromModule e, toModule e, fn) evs) /\
  (forall fn, In fn (functions e) ->
     exists a b, In (a, b, fn) evs /\ edgeKey a b = k).
Proof.
  revert e; induction evs as [|[[a b] fn] evs IH] using rev_ind; intros e.
  - discriminate.
  - rewrite edgesOf_snoc, addEdge_get.
    assert (Hmono : forall e0, Map_get (edgesOf evs) k = Some e0 ->
      k = edgeKey (fromModule e0) (toModule e0) /\
      (exists fn0, In (fromModule e0, toModule e0, fn0) (evs ++ [(a, b, fn)])) /\
      (forall fn0, In fn0 (functions e0) ->
         exists a0 b0, In (a0, b0, fn0) (evs ++ [(a, b, fn)]) /\
                       edgeKey a0 b0 = k)).
    { intros e0 H0. destruct (IH e0 H0) as (Hk & [fn0 Hc] & Hf).
      split; [exact Hk|]. split.
      - exists fn0. apply in_or_app. now left.
      - intros fn1 H1. destruct (Hf fn1 H1) as (a0 & b0 & Hin & Hkey).
        exists a0, b0. split; [apply in_or_app; now left|exact Hkey]. }
    destruct (str_eqb k (edgeKey a b)) eqn:E; [|apply Hmono].
    apply str_eqb_eq in E.
    destruct (Map_get (edgesOf evs) k) as [e0|] eqn:G.
    + destruct (Hmono e0 eq_refl) as (Hk & Hc & Hf).
      destruct (includes (functions e0) fn) eqn:I; intros [= <-].
      * auto.
      * split; [exact Hk|]. split; [exact Hc|].
        simpl. intros fn1 H1. apply in_app_or in H1 as [H1|[<-|[]]].
        -- now apply Hf.
        -- exists a, b. split; [apply in_or_app; right; now left|now symmetry].
    + intros [= <-]. simpl. split; [exact E|]. split.
      * exists fn. apply in_or_app. right. now left.
      * intros fn1 [<-|[]]. exists a, b.
        split; [apply in_or_app; right; now left|now symmetry].
Qed.

(** Every call is listed under its key. *)
Lemma edgesOf_complete (evs : list CallEvent) (a b fn : str) :
  In (a, b, fn) evs ->
  exists e, Map_get (edgesOf evs) (edgeKey a b) = Some e /\ In fn (functions e).
Proof.
  induction evs as [|[[a0 b0] fn0] evs IH] using rev_ind; [intros []|].
  intros H. rewrite edgesOf_snoc, addEdge_get.
  apply in_app_or in H as [H|[[= -> -> ->]|[]]].
  - destruct (IH H) as (e & G & Hfn). rewrite G.
    destruct (str_eqb (edgeKey a b) (edgeKey a0 b0)); [|eauto].
    destruct (includes (functions e) fn0); [eauto|].
    eexists. split; [reflexivity|]. simpl. apply in_or_app. now left.
  - rewrite str_eqb_refl.
    destruct (Map_get (edgesOf evs) (edgeKey a b)) as [e|].
    + destruct (includes (functions e) fn) eqn:I.
      * apply includes_In in I. eauto.
      * eexists. split; [reflexivity|]. simpl. apply in_or_app. right. now left.
    + eexists. split; [reflexivity|]. now left.
Qed.

(** ** The symbol table and the module names *)

Lemma Set_add_In (s : list str) (x y : str) :
  In y (Set_add s x) <-> In y s \/ y = x.
Proof.
  unfold Set_add. destruct (includes s x) eqn:E.
  - apply includes_In in E. split; [tauto|]. intros [H| ->]; assumption.
  - rewrite in_app_iff. simpl. intuition (subst; auto).
Qed.

Lemma newSet_fold_In (l acc : list str) (y : str) :
  In y (fold_left Set_add l acc) <-> In y acc \/ In y l.
Proof.
  revert acc; induction l as [|x l IH]; intros acc; simpl; [tauto|].
  rewrite IH, Set_add_In. split; intros H; intuition (subst; auto).
Qed.

Lemma newSet_In (l : list str) (y : str) : In y (newSet l) <-> In y l.
Proof. unfold newSet. rewrite newSet_fold_In. simpl. tauto. Qed.

Lemma moduleNames_In (defs : JsMap FunctionDef) (n : str) (d : FunctionDef) :
  Map_get defs n = Some d -> In (module d) (moduleNames defs).
Proof.
  intros H. unfold moduleNames. apply newSet_In, in_map.
  now apply Map_get_values with (k := n).
Qed.

Lemma filterMap_In {A B : Type} (f : A -> option B) (l : list A) (y : B) :
  In y (filterMap f l) <-> exists x, In x l /\ f x = Some y.
Proof.
  induction l as [|x l IH]; simpl.
  - split; [intros []|intros [x [[] _]]].
  - destruct (f x) as [y0|] eqn:E; simpl; rewrite IH; split.
    + intros [<-|[x0 [H0 H1]]]; eauto.
    + intros [x0 [[<-|H0] H1]]; [left; congruence|right; eauto].
    + intros [x0 [H0 H1]]; eauto.
    + intros [x0 [[<-|H0] H1]]; [congruence|eauto].
Qed.

(** A call reaches [edgesMap] exactly when its name is in the symbol
    table under another module than the file's. *)
Lemma allEvents_In (readFileSync : str -> str) (defs : JsMap FunctionDef)
  (files : list str) (a b fn : str) :
  In (a, b, fn) (allEvents readFileSync defs files) <->
  exists f d, In f files /\ a = moduleOf f /\
    In fn (map fst (scanCalls (readFileSync f))) /\
    Map_get defs fn = Some d /\ module d = b /\ a <> b.
Proof.
  unfold allEvents. rewrite in_flat_map. split.
  - intros (f & Hf & Hev). unfold eventsOfFile in Hev.
    apply filterMap_In in Hev as (m & Hm & Hev). unfold callEvent in Hev.
    destruct (Map_get defs (group1 m)) as [d|] eqn:G; [|discriminate].
    destruct (str_eqb (moduleOf f) (module d)) eqn:E; [discriminate|].
    injection Hev as <- <- <-. apply str_eqb_neq in E.
    exists f, d. repeat split; try assumption.
    unfold scanCalls. rewrite map_map. simpl.
    apply in_map_iff. now exists m.
  - intros (f & d & Hf & -> & Hfn & G & <- & Hne).
    exists f. split; [assumption|]. unfold eventsOfFile.
    unfold scanCalls in Hfn. rewrite map_map in Hfn. simpl in Hfn.
    apply in_map_iff in Hfn as (m & <- & Hm).
    apply filterMap_In. exists m. split; [assumption|].
    unfold callEvent. rewrite G.
    apply str_eqb_neq in Hne. now rewrite Hne.
Qed.

(** ** The graph of a run *)

(** C1.  Example 1: [a.c] holds [int main(){ bar(); }] and [b.c] holds
    [void bar(){}].  The walk finds the two files; the graph has the
    modules [a] and [b] and the single edge from [a] to [b], which
    lists exactly [bar] -- in either order of the two files (the order
    only turns the module list around). *)
Theorem example1_graph :
  walkFiles (Dir [(lit "a.c", File); (lit "b.c", File)]) (lit "proj") sourceExts
    = Ok [lit "proj/a.c"; lit "proj/b.c"] /\
  buildGraph example1 [lit "proj/a.c"; lit "proj/b.c"]
    = Ok (mkGraph [lit "a"; lit "b"]
            [(lit "a->b", mkEdge (lit "a") (lit "b") [lit "bar"])]) /\
  buildGraph example1 [lit "proj/b.c"; lit "proj/a.c"]
    = Ok (mkGraph [lit "b"; lit "a"]
            [(lit "a->b", mkEdge (lit "a") (lit "b") [lit "bar"])]).
Proof. repeat split; vm_compute; reflexivity. Qed.

(** C2, as the code has it.  Every edge of the graph leads to a module
    of [modules] and joins two different modules; its source is the
    module of one of the scanned files.  (The source need not be in
    [modules]: see [edge_source_outside_modules].) *)
Theorem edges_join_scanned_modules (readFileSync : str -> str)
  (files : list str) (g : Graph) (k : str) (e : Edge) :
  buildGraph readFileSync files = Ok g ->
  In (k, e) (edges g) ->
  In (toModule e) (modules g) /\
  fromModule e <> toModule e /\
  exists f, In f files /\ fromModule e = moduleOf f.
Proof.
  rewrite buildGraph_eq. intros [= <-]. simpl. intros Hin.
  apply Map_In_get in Hin; [|apply edgesOf_NoDup].
  apply edgesOf_sound in Hin as (_ & [fn Hev] & _).
  apply allEvents_In in Hev as (f & d & Hf & Ha & _ & G & Hb & Hne).
  split; [|split].
  - rewrite <- Hb. now apply moduleNames_In with (n := fn).
  - exact Hne.
  - now exists f.
Qed.

(** On Example 1: the edge from [a] to [b]. *)
Lemma edges_join_scanned_modules_witness :
  In (lit "b") [lit "a"; lit "b"] /\
  lit "a" <> lit "b" /\
  exists f, In f [lit "proj/a.c"; lit "proj/b.c"] /\ lit "a" = moduleOf f.
Proof.
  apply (edges_join_scanned_modules example1
           [lit "proj/a.c"; lit "proj/b.c"]
           (mkGraph [lit "a"; lit "b"]
              [(lit "a->b", mkEdge (lit "a") (lit "b") [lit "bar"])])
           (lit "a->b") (mkEdge (lit "a") (lit "b") [lit "bar"])).
  - vm_compute. reflexivity.
  - simpl. left. reflexivity.
Defined.

(** C2 fails as stated: with [a.c] holding [main(){ bar(); }] (no
    definition is recorded for it) and [b.c] holding [void bar(){}],
    the graph has the edge from [a] to [b], and [a] is not in
    [modules]. *)
Lemma edge_source_outside_modules :
  exists g e,
    buildGraph exampleNoDef [lit "proj/a.c"; lit "proj/b.c"] = Ok g /\
    In (lit "a->b", e) (edges g) /\
    fromModule e = lit "a" /\
    modules g = [lit "b"] /\
    ~ In (fromModule e) (modules g).
Proof.
  eexists. eexists. split; [vm_compute; reflexivity|].
  split; [left; reflexivity|]. split; [reflexivity|]. split; [reflexivity|].
  simpl. intros [H|[]]. discriminate H.
Qed.

(** ** The symbol table: the last definition of a name wins *)

Lemma str_eq_dec (a b : str) : {a = b} + {a <> b}.
Proof. apply list_eq_dec, N.eq_dec. Qed.

Lemma setDef_fold_other (l : list FunctionDef) (m : JsMap FunctionDef) (n : str) :
  ~ In n (map name l) ->
  Map_get (fold_left setDef l m) n = Map_get m n.
Proof.
  revert m; induction l as [|d l IH]; intros m H; simpl; [reflexivity|].
  simpl in H. rewrite IH by tauto. unfold setDef.
  apply Map_get_set_other. tauto.
Qed.

Lemma setDef_fold_last (l l2 : list FunctionDef) (d : FunctionDef)
  (m : JsMap FunctionDef) :
  ~ In (name d) (map name l2) ->
  Map_get (fold_left setDef (l ++ d :: l2) m) (name d) = Some d.
Proof.
  intros H. rewrite fold_left_app. simpl.
  rewrite setDef_fold_other by assumption.
  unfold setDef. apply Map_get_set_same.
Qed.

Lemma last_with_name (l : list FunctionDef) (n : str) :
  In n (map name l) ->
  exists l1 d l2, l = l1 ++ d :: l2 /\ name d = n /\ ~ In n (map name l2).
Proof.
  induction l as [|d l IH] using rev_ind; [intros []|].
  rewrite map_app, in_app_iff. simpl. intros H.
  destruct (str_eq_dec (name d) n) as [E|E].
  - exists l, d, []. simpl. tauto.
  - destruct H as [H|[H|[]]]; [|contradiction].
    destruct (IH H) as (l1 & d0 & l2 & -> & Hn & Hl2).
    exists l1, d0, (l2 ++ [d]). split; [now rewrite <- app_assoc|].
    split; [exact Hn|]. rewrite map_app, in_app_iff. simpl. tauto.
Qed.

Lemma setDef_fold_NoDup (l : list FunctionDef) (m : JsMap FunctionDef) :
  NoDup (map fst m) -> NoDup (map fst (fold_left setDef l m)).
Proof.
  revert m; induction l as [|d l IH]; intros m H; simpl; [exact H|].
  apply IH. now apply Map_set_NoDup.
Qed.

(** What a lookup in the symbol table gives: a definition of that name
    from the list, and one for every name of the list. *)
Lemma setDef_fold_get (l : list FunctionDef) (n : str) (d : FunctionDef) :
  Map_get (fold_left setDef l []) n = Some d -> In d l /\ name d = n.
Proof.
  intros H. destruct (in_dec str_eq_dec n (map name l)) as [Hin|Hout].
  - destruct (last_with_name _ _ Hin) as (l1 & d0 & l2 & -> & Hn & Hl2).
    subst n. rewrite setDef_fold_last in H by assumption.
    injection H as <-. split; [apply in_or_app; right; now left|reflexivity].
  - rewrite setDef_fold_other in H by assumption. discriminate.
Qed.

Lemma setDef_fold_defined (l : list FunctionDef) (n : str) :
  In n (map name l) -> exists d, Map_get (fold_left setDef l []) n = Some d.
Proof.
  intros Hin. destruct (last_with_name _ _ Hin) as (l1 & d0 & l2 & -> & Hn & Hl2).
  subst n. exists d0. now apply setDef_fold_last.
Qed.

Lemma Map_count_one {V : Type} (m : JsMap V) (k : str) (v : V) :
  NoDup (map fst m) -> Map_get m k = Some v -> Map_count m k = 1.
Proof.
  unfold Map_count. induction m as [|[k0 v0] m IH]; simpl; [discriminate|].
  intros Hnd. inversion Hnd as [|? ? Hk0 Hnd']; subst.
  rewrite (str_eqb_sym k0 k). destruct (str_eqb k k0) eqn:E.
  - apply str_eqb_eq in E. subst k0. intros _. simpl. f_equal.
    apply length_zero_iff_nil.
    destruct (filter (fun kv => str_eqb (fst kv) k) m) as [|[k1 v1] r] eqn:F;
      [reflexivity|].
    exfalso. assert (Hin : In (k1, v1) (filter (fun kv => str_eqb (fst kv) k) m)).
    { rewrite F. now left. }
    apply filter_In in Hin as [Hin E1]. simpl in E1. apply str_eqb_eq in E1.
    subst k1. apply Hk0. change k with (fst (k, v1)). now apply in_map.
  - intros H. now apply IH.
Qed.

Lemma allDefs_app (readFileSync : str -> str) (l1 l2 : list str) :
  allDefs readFileSync (l1 ++ l2) =
  allDefs readFileSync l1 ++ allDefs readFileSync l2.
Proof. unfold allDefs. apply flat_map_app. Qed.

Lemma allDefs_names (readFileSync : str -> str) (files : list str) (n : str) :
  In n (map name (allDefs readFileSync files)) <->
  exists f, In f files /\ In n (definedNames readFileSync f).
Proof.
  unfold allDefs, definedNames. rewrite in_map_iff. split.
  - intros (d & <- & Hd). apply in_flat_map in Hd as (f & Hf & Hd).
    exists f. split; [assumption|now apply in_map].
  - intros (f & Hf & Hn). apply in_map_iff in Hn as (d & <- & Hd).
    exists d. split; [reflexivity|]. apply in_flat_map. now exists f.
Qed.

(** C4.  After the first pass the symbol table holds exactly one entry
    for a defined name; it is a definition from the last file, in
    processing order, that defines the name, so it carries that file's
    module; and every call of that name that reaches the edges is
    resolved to that module. *)
Theorem symbol_table_last_file_wins (readFileSync : str -> str)
  (earlier later : list str) (f n : str) :
  In n (definedNames readFileSync f) ->
  (forall f', In f' later -> ~ In n (definedNames readFileSync f')) ->
  let files := earlier ++ f :: later in
  let defs := fst (collectDefinitions readFileSync files) in
  (exists d, Map_get defs n = Some d /\
             In d (definitionsOf readFileSync f) /\
             name d = n /\ module d = moduleOf f) /\
  Map_count defs n = 1 /\
  (forall a b, In (a, b, n) (allEvents readFileSync defs files) ->
               b = moduleOf f).
Proof.
  intros Hf Hafter files defs.
  assert (Hd : exists d, Map_get defs n = Some d /\
             In d (definitionsOf readFileSync f) /\
             name d = n /\ module d = moduleOf f).
  { unfold defs, files. rewrite defs_eq.
    change (earlier ++ f :: later) with (earlier ++ [f] ++ later).
    rewrite !allDefs_app. unfold allDefs at 2. simpl. rewrite app_nil_r.
    destruct (last_with_name _ _ Hf) as (l1 & d & l2 & E & Hn & Hl2).
    exists d.
    replace (allDefs readFileSync earlier ++
             definitionsOf readFileSync f ++
             allDefs readFileSync later)
      with ((allDefs readFileSync earlier ++ l1) ++
            d :: (l2 ++ allDefs readFileSync later)).
    2:{ rewrite E, <- !app_assoc. reflexivity. }
    rewrite <- Hn. split.
    - apply setDef_fold_last. rewrite map_app, in_app_iff, Hn.
      intros [H|H]; [contradiction|].
      apply allDefs_names in H as (f' & Hf' & H). now apply (Hafter f').
    - split; [rewrite E; apply in_or_app; right; now left|].
      split; [reflexivity|].
      assert (Hin : In d (definitionsOf readFileSync f))
        by (rewrite E; apply in_or_app; right; now left).
      pose proof (scanDefs_module (moduleOf f) (readFileSync f)) as Hm.
      rewrite Forall_forall in Hm. now apply Hm. }
  split; [exact Hd|]. destruct Hd as (d & G & _ & _ & Hm). split.
  - apply Map_count_one with (v := d); [|exact G].
    unfold defs. rewrite defs_eq. apply setDef_fold_NoDup. constructor.
  - intros a b Hev. apply allEvents_In in Hev as (f0 & d0 & _ & _ & _ & G0 & <- & _).
    rewrite G in G0. injection G0 as <-. exact Hm.
Qed.

(** On Example 4, with [a.c] earlier [b.c] earlier [c.c]: [b.c] is the last
    file that defines [init]. *)
Lemma symbol_table_last_file_wins_witness :
  let files := [lit "proj/a.c"] ++ lit "proj/b.c" :: [lit "proj/c.c"] in
  let defs := fst (collectDefinitions example4 files) in
  (exists d, Map_get defs (lit "init") = Some d /\
             In d (definitionsOf example4 (lit "proj/b.c")) /\
             name d = lit "init" /\ module d = moduleOf (lit "proj/b.c")) /\
  Map_count defs (lit "init") = 1 /\
  (forall a b, In (a, b, lit "init") (allEvents example4 defs files) ->
               b = moduleOf (lit "proj/b.c")).
Proof.
  apply (symbol_table_last_file_wins example4 [lit "proj/a.c"] [lit "proj/c.c"]
           (lit "proj/b.c") (lit "init")).
  - vm_compute. left. reflexivity.
  - intros f' [<-|[]]. vm_compute. intros [H|[]]. discriminate H.
Defined.

(** ** The matcher finds exactly the matches of [Matches] *)

Lemma moved_nil (st : MatchState) : moved st [] (input st) = st.
Proof.
  destruct st as [i prev rest caps]. unfold moved, lastOr. simpl.
  now rewrite Nat.add_0_r.
Qed.

Lemma lastOr_cons (prev : option char) (c : char) (w : str) :
  lastOr prev (c :: w) = lastOr (Some c) w.
Proof.
  unfold lastOr. simpl. destruct (rev w) as [|x r] eqn:E; simpl; reflexivity.
Qed.

Lemma lastOr_app (prev : option char) (w1 w2 : str) :
  lastOr prev (w1 ++ w2) = lastOr (lastOr prev w1) w2.
Proof.
  revert prev; induction w1 as [|c w1 IH]; intros prev; simpl.
  - reflexivity.
  - now rewrite !lastOr_cons, IH.
Qed.

Lemma matchChars_Some (s : str) (i : nat) (prev : option char) (rest : str)
  (i' : nat) (prev' : option char) (rest' : str) :
  matchChars s i prev rest = Some (i', prev', rest') <->
  rest = s ++ rest' /\ i' = i + length s /\ prev' = lastOr prev s.
Proof.
  revert i prev rest; induction s as [|a s IH]; intros i prev rest; simpl.
  - unfold lastOr. simpl. rewrite Nat.add_0_r. split.
    + intros [= -> -> ->]. auto.
    + intros (-> & -> & ->). reflexivity.
  - destruct rest as [|c tl].
    + split; [discriminate|]. intros (H & _). discriminate.
    + destruct (a =? c)%N eqn:E.
      * apply N.eqb_eq in E. subst c. rewrite IH, lastOr_cons.
        rewrite Nat.add_succ_comm. split.
        -- intros (-> & -> & ->). auto.
        -- intros ([= ->] & -> & ->). auto.
      * apply N.eqb_neq in E. split; [discriminate|].
        intros ([= H _] & _). congruence.
Qed.

Lemma repeatGreedy_sound (p : char -> bool) (k : Continuation)
  (caps : list (nat * str)) (rest : str) (i : nat) (prev : option char)
  (res : MatchState) :
  repeatGreedy p k caps i prev rest = Some res ->
  exists w rest',
    rest = w ++ rest' /\ forallb p w = true /\
    k (mkState (i + length w) (lastOr prev w) rest' caps) = Some res.
Proof.
  revert i prev; induction rest as [|c tl IH]; intros i prev; simpl.
  - intros H. exists [], []. simpl. rewrite Nat.add_0_r. auto.
  - destruct (p c) eqn:Pc.
    + destruct (repeatGreedy p k caps (S i) (Some c) tl) as [r|] eqn:R.
      * intros [= <-]. destruct (IH _ _ R) as (w & rest' & -> & Hw & Hk).
        exists (c :: w), rest'. simpl. rewrite Pc, Hw, lastOr_cons.
        rewrite <- Nat.add_succ_comm. auto.
      * intros H. exists [], (c :: tl). simpl. rewrite Nat.add_0_r. auto.
    + intros H. exists [], (c :: tl). simpl. rewrite Nat.add_0_r. auto.
Qed.

Lemma repeatLazy_sound (p : char -> bool) (k : Continuation)
  (caps : list (nat * str)) (rest : str) (i : nat) (prev : option char)
  (res : MatchState) :
  repeatLazy p k caps i prev rest = Some res ->
  exists w rest',
    rest = w ++ rest' /\ forallb p w = true /\
    k (mkState (i + length w) (lastOr prev w) rest' caps) = Some res.
Proof.
  revert i prev; induction rest as [|c tl IH]; intros i prev; simpl.
  - destruct (k (mkState i prev [] caps)) as [r|] eqn:K; [|discriminate].
    intros [= <-]. exists [], []. simpl. rewrite Nat.add_0_r. auto.
  - destruct (k (mkState i prev (c :: tl) caps)) as [r|] eqn:K.
    + intros [= <-]. exists [], (c :: tl). simpl. rewrite Nat.add_0_r. auto.
    + destruct (p c) eqn:Pc; [|discriminate]. intros R.
      destruct (IH _ _ R) as (w & rest' & -> & Hw & Hk).
      exists (c :: w), rest'. simpl. rewrite Pc, Hw, lastOr_cons.
      rewrite <- Nat.add_succ_comm. auto.
Qed.

(** Whatever the matcher returns comes from a match of the pattern
    that the continuation accepted. *)
Lemma matcher_sound (r : regex) :
  forall (st : MatchState) (k : Continuation) (res : MatchState),
    matcher r st k = Some res ->
    exists st', Matches r st st' /\ k st' = Some res.
Proof.
  induction r as [s|p|r1 IH1 r2 IH2|r1 IH1 r2 IH2|g p|r1 IH1|n r1 IH1|];
    intros st k res; simpl.
  - destruct (matchChars s (endIndex st) (before st) (input st))
      as [[[i prev] rest]|] eqn:E; [|discriminate].
    apply matchChars_Some in E as (Hin & -> & ->). intros H.
    exists (moved st s rest). split; [now constructor|exact H].
  - destruct (input st) as [|c tl] eqn:E; [discriminate|].
    destruct (p c) eqn:Pc; [|discriminate]. intros H.
    exists (moved st [c] tl). split; [now constructor|].
    unfold moved, lastOr. simpl. now rewrite Nat.add_1_r.
  - intros H. apply IH1 in H as (st1 & M1 & H).
    apply IH2 in H as (st2 & M2 & H).
    exists st2. split; [econstructor; eassumption|exact H].
  - destruct (matcher r1 st k) as [r|] eqn:E.
    + intros [= <-]. apply IH1 in E as (st' & M & H).
      exists st'. split; [now apply M_DisjL|exact H].
    + intros H. apply IH2 in H as (st' & M & H).
      exists st'. split; [now apply M_DisjR|exact H].
  - destruct g; intros H;
      [apply repeatGreedy_sound in H|apply repeatLazy_sound in H];
      destruct H as (w & rest' & Hin & Hw & Hk);
      (exists (moved st w rest'); split; [now constructor|exact Hk]).
  - destruct (matcher r1 st k) as [r|] eqn:E.
    + intros [= <-]. apply IH1 in E as (st' & M & H).
      exists st'. split; [now apply M_OptSome|exact H].
    + intros H. exists (moved st [] (input st)).
      split; [apply M_OptNone|now rewrite moved_nil].
  - intros H. apply IH1 in H as (st1 & M & H).
    exists (closeGroup n st st1). split; [now constructor|exact H].
  - destruct (atWordBoundary st) eqn:E; [|discriminate]. intros H.
    exists (moved st [] (input st)).
    split; [now constructor|now rewrite moved_nil].
Qed.

Lemma repeatGreedy_complete (p : char -> bool) (k : Continuation)
  (caps : list (nat * str)) (w rest' : str) (i : nat) (prev : option char) :
  forallb p w = true ->
  k (mkState (i + length w) (lastOr prev w) rest' caps) <> None ->
  repeatGreedy p k caps i prev (w ++ rest') <> None.
Proof.
  revert i prev; induction w as [|c w IH]; intros i prev Hw Hk.
  - simpl in *. unfold lastOr in Hk. simpl in Hk. rewrite Nat.add_0_r in Hk.
    destruct rest' as [|c tl]; simpl; [exact Hk|].
    destruct (p c); [|exact Hk].
    destruct (repeatGreedy p k caps (S i) (Some c) tl); [discriminate|exact Hk].
  - simpl in Hw. apply andb_true_iff in Hw as [Pc Hw]. simpl. rewrite Pc.
    rewrite lastOr_cons in Hk. simpl in Hk. rewrite <- Nat.add_succ_comm in Hk.
    specialize (IH (S i) (Some c) Hw Hk).
    destruct (repeatGreedy p k caps (S i) (Some c) (w ++ rest'));
      [discriminate|contradiction].
Qed.

Lemma repeatLazy_complete (p : char -> bool) (k : Continuation)
  (caps : list (nat * str)) (w rest' : str) (i : nat) (prev : option char) :
  forallb p w = true ->
  k (mkState (i + length w) (lastOr prev w) rest' caps) <> None ->
  repeatLazy p k caps i prev (w ++ rest') <> None.
Proof.
  revert i prev; induction w as [|c w IH]; intros i prev Hw Hk.
  - simpl in *. unfold lastOr in Hk. simpl in Hk. rewrite Nat.add_0_r in Hk.
    destruct rest' as [|c tl]; simpl;
      destruct (k (mkState i prev _ caps)); try discriminate; contradiction.
  - simpl in Hw. apply andb_true_iff in Hw as [Pc Hw]. simpl.
    destruct (k (mkState i prev (c :: w ++ rest') caps)); [discriminate|].
    rewrite Pc. rewrite lastOr_cons in Hk. simpl in Hk.
    rewrite <- Nat.add_succ_comm in Hk. now apply IH.
Qed.

(** Where the pattern has a match the continuation accepts, the
    matcher returns a result (this one or one it tries earlier). *)
Lemma matcher_complete [r : regex] [st st' : MatchState] :
  Matches r st st' ->
  forall k : Continuation, k st' <> None -> matcher r st k <> None.
Proof.
  induction 1 as [s st rest Hin|p st c rest Hin Pc|r1 r2 st st1 st2 _ IH1 _ IH2
                 |r1 r2 st st' _ IH|r1 r2 st st' _ IH|g p st w rest Hin Hw
                 |r st st' _ IH|r st|n r st st1 _ IH|st Hb];
    intros k Hk; simpl.
  - assert (E : matchChars s (endIndex st) (before st) (input st) =
                Some (endIndex st + length s, lastOr (before st) s, rest))
      by now apply matchChars_Some.
    rewrite E. exact Hk.
  - rewrite Hin, Pc. unfold moved, lastOr in Hk. simpl in Hk.
    now rewrite Nat.add_1_r in Hk.
  - apply IH1. now apply IH2.
  - specialize (IH k Hk). destruct (matcher r1 st k); [discriminate|contradiction].
  - destruct (matcher r1 st k); [discriminate|now apply IH].
  - rewrite Hin. destruct g;
      [now apply repeatGreedy_complete|now apply repeatLazy_complete].
  - specialize (IH k Hk). destruct (matcher r st k); [discriminate|contradiction].
  - rewrite moved_nil in Hk. destruct (matcher r st k); [discriminate|exact Hk].
  - apply IH. exact Hk.
  - rewrite Hb. now rewrite moved_nil in Hk.
Qed.

(** A match consumes a word of the input, at least [minLen] long, and
    leaves the state at its end. *)
Lemma Matches_consumes [r : regex] [st st' : MatchState] :
  Matches r st st' ->
  exists w, input st = w ++ input st' /\
            endIndex st' = endIndex st + length w /\
            before st' = lastOr (before st) w /\
            minLen r <= length w.
Proof.
  induction 1 as [s st rest Hin|p st c rest Hin Pc|r1 r2 st st1 st2 _ IH1 _ IH2
                 |r1 r2 st st' _ IH|r1 r2 st st' _ IH|g p st w rest Hin Hw
                 |r st st' _ IH|r st|n r st st1 _ IH|st Hb]; simpl.
  - exists s. auto.
  - exists [c]. auto.
  - destruct IH1 as (w1 & E1 & I1 & B1 & L1).
    destruct IH2 as (w2 & E2 & I2 & B2 & L2).
    exists (w1 ++ w2). rewrite E1, E2, I2, I1, B2, B1, length_app, lastOr_app.
    rewrite <- app_assoc. repeat split; lia.
  - destruct IH as (w & E & I & B & L). exists w. repeat split; auto; lia.
  - destruct IH as (w & E & I & B & L). exists w. repeat split; auto; lia.
  - exists w. repeat split; auto; lia.
  - destruct IH as (w & E & I & B & L). exists w. repeat split; auto; lia.
  - exists []. simpl. unfold lastOr. simpl. repeat split; auto.
  - destruct IH as (w & E & I & B & L). exists w. repeat split; auto.
  - exists []. simpl. unfold lastOr. simpl. repeat split; auto.
Qed.

(** ** [exec] and the loop over it *)

Lemma skipn_next {A : Type} (l : list A) (i : nat) [c : A] [tl : list A] :
  skipn i l = c :: tl ->
  skipn (S i) l = tl /\ nth_error l i = Some c /\ i < length l.
Proof.
  revert l; induction i as [|i IH]; intros [|x l]; simpl; try discriminate.
  - intros [= -> ->]. repeat split. lia.
  - intros H. destruct (IH _ H) as (H1 & H2 & H3). repeat split; auto. lia.
Qed.

Lemma matchAt_bounds (r : regex) (text : str) (i : nat) (st' : MatchState) :
  i <= length text ->
  matchAt r text i = Some st' ->
  i + minLen r <= endIndex st' /\ endIndex st' <= length text /\
  Matches r (stateAt text i) st'.
Proof.
  intros Hi H. unfold matchAt in H.
  apply matcher_sound in H as (st'' & M & [= ->]).
  destruct (Matches_consumes M) as (w & E & I & _ & L). simpl in E, I.
  assert (Hlen : length (skipn i text) = length w + length (input st'))
    by (rewrite E; apply length_app).
  rewrite length_skipn in Hlen. repeat split; [lia|lia|exact M].
Qed.

Lemma searchFrom_Some (r : regex) (text : str) (rest : str) :
  forall (i : nat) (m : MatchResult),
    i <= length text -> rest = skipn i text ->
    searchFrom r i (charBefore text i) rest = Some m ->
    i <= index m <= length text /\
    (forall j, i <= j < index m -> matchAt r text j = None) /\
    exists st', matchAt r text (index m) = Some st' /\
                lastIndex m = endIndex st' /\ groups m = captures st'.
Proof.
  induction rest as [|c tl IH]; intros i m Hi Hrest; simpl;
    destruct (matcher r (mkState i (charBefore text i) _ []) Some)
      as [st'|] eqn:E; try discriminate.
  - intros [= <-]. simpl. split; [lia|]. split; [intros; lia|].
    exists st'. unfold matchAt, stateAt. rewrite <- Hrest. auto.
  - intros [= <-]. simpl. split; [lia|]. split; [intros; lia|].
    exists st'. unfold matchAt, stateAt. rewrite <- Hrest. auto.
  - intros H. symmetry in Hrest.
    destruct (skipn_next _ _ Hrest) as (Hs & Hn & Hlt).
    assert (Hc : charBefore text (S i) = Some c) by exact Hn.
    rewrite <- Hc in H. apply IH in H; [|lia|now symmetry].
    destruct H as (Hb & Hnone & Hst). split; [lia|]. split; [|exact Hst].
    intros j Hj. destruct (Nat.eq_dec j i) as [->|Hne].
    + unfold matchAt, stateAt. now rewrite Hrest.
    + apply Hnone. lia.
Qed.

Lemma searchFrom_None (r : regex) (text : str) (rest : str) :
  forall i : nat,
    i <= length text -> rest = skipn i text ->
    searchFrom r i (charBefore text i) rest = None ->
    forall j, i <= j <= length text -> matchAt r text j = None.
Proof.
  induction rest as [|c tl IH]; intros i Hi Hrest; simpl;
    destruct (matcher r (mkState i (charBefore text i) _ []) Some)
      as [st'|] eqn:E; try discriminate.
  - intros _ j Hj.
    assert (Hlen : length (skipn i text) = 0) by now rewrite <- Hrest.
    rewrite length_skipn in Hlen. assert (j = i) by lia. subst j.
    unfold matchAt, stateAt. now rewrite <- Hrest.
  - intros H j Hj. symmetry in Hrest.
    destruct (skipn_next _ _ Hrest) as (Hs & Hn & Hlt).
    assert (Hc : charBefore text (S i) = Some c) by exact Hn.
    rewrite <- Hc in H. destruct (Nat.eq_dec j i) as [->|Hne].
    + unfold matchAt, stateAt. now rewrite Hrest.
    + apply (IH (S i)); [lia|now symmetry|exact H|lia].
Qed.

(** The loop ends, and sees the leftmost matches one after the other:
    a pattern that cannot match the empty string moves [lastIndex]
    forward, so the fuel of [execAll] is enough. *)
Lemma execLoop_Scan (r : regex) (text : str) :
  0 < minLen r ->
  forall fuel from,
    length text - from < fuel ->
    exists ms, execLoop fuel r text from = Some ms /\ Scan r text from ms.
Proof.
  intros Hr. induction fuel as [|fuel IH]; intros from Hfuel; [lia|].
  simpl. unfold exec. destruct (length text <? from) eqn:Hlt.
  - apply Nat.ltb_lt in Hlt. exists []. split; [reflexivity|].
    constructor. intros; lia.
  - apply Nat.ltb_ge in Hlt.
    destruct (searchFrom r from (charBefore text from) (skipn from text))
      as [m|] eqn:E.
    + apply searchFrom_Some in E; [|assumption|reflexivity].
      destruct E as (Hb & Hnone & st' & Hm & Hl & Hg).
      destruct (matchAt_bounds r text (index m) st' (proj2 Hb) Hm) as (H1 & H2 & _).
      destruct (IH (lastIndex m)) as (ms & -> & Hscan); [lia|].
      exists (m :: ms). split; [reflexivity|].
      now apply Scan_match with (st' := st').
    + exists []. split; [reflexivity|]. constructor.
      now apply (searchFrom_None r text (skipn from text) from).
Qed.

Lemma execAll_Scan (r : regex) (text : str) :
  0 < minLen r -> Scan r text 0 (execAll r text).
Proof.
  intros Hr. unfold execAll.
  destruct (execLoop_Scan r text Hr (S (length text)) 0) as (ms & -> & H);
    [lia|exact H].
Qed.

(** The fuel of [execAll] never runs out on such a pattern: the loops
    over [funcRegex], [callRegex] and [commentRegex] all end. *)
Lemma execAll_terminates (r : regex) (text : str) :
  0 < minLen r ->
  exists ms, execLoop (S (length text)) r text 0 = Some ms /\ execAll r text = ms.
Proof.
  intros Hr. destruct (execLoop_Scan r text Hr (S (length text)) 0)
    as (ms & E & _); [lia|].
  exists ms. split; [exact E|]. unfold execAll. now rewrite E.
Qed.

(** More fuel changes nothing. *)
Lemma execLoop_more_fuel (r : regex) (text : str) :
  forall fuel fuel' from ms,
    execLoop fuel r text from = Some ms -> fuel <= fuel' ->
    execLoop fuel' r text from = Some ms.
Proof.
  induction fuel as [|fuel IH]; intros fuel' from ms; simpl; [discriminate|].
  intros H Hle. destruct fuel' as [|fuel']; [lia|]. simpl.
  destruct (exec r text from) as [m|]; [|exact H].
  destruct (execLoop fuel r text (lastIndex m)) as [ms'|] eqn:E; [|discriminate].
  rewrite (IH fuel' _ _ E) by lia. exact H.
Qed.

Section ScanFacts.
Variables (r : regex) (text : str).

Lemma Scan_matches (from : nat) (ms : list MatchResult) :
  Scan r text from ms ->
  Forall (fun m =>
            from <= index m /\ index m + minLen r <= lastIndex m /\
            lastIndex m <= length text /\
            exists st', matchAt r text (index m) = Some st' /\
                        lastIndex m = endIndex st' /\
                        groups m = captures st' /\
                        Matches r (stateAt text (index m)) st') ms.
Proof.
  induction 1 as [from Hnone|from m ms st' Hb Hnone Hm Hl Hg Hscan IH];
    constructor.
  - destruct (matchAt_bounds r text (index m) st' (proj2 Hb) Hm) as (H1 & H2 & M).
    repeat split; try lia. exists st'. auto.
  - destruct (matchAt_bounds r text (index m) st' (proj2 Hb) Hm) as (H1 & H2 & M).
    eapply Forall_impl; [|exact IH]. simpl.
    intros m' (H3 & H4). split; [lia|exact H4].
Qed.

(** The matches come in text order and do not overlap. *)
Lemma Scan_sorted (from : nat) (ms : list MatchResult) :
  Scan r text from ms -> StronglySorted precedes ms.
Proof.
  induction 1 as [from Hnone|from m ms st' Hb Hnone Hm Hl Hg Hscan IH];
    constructor; [exact IH|].
  apply Scan_matches in Hscan. eapply Forall_impl; [|exact Hscan].
  simpl. intros m' (H & _). exact H.
Qed.

(** Every position where the pattern matches is reported or lies
    inside a reported match. *)
Lemma Scan_covers (from : nat) (ms : list MatchResult) :
  Scan r text from ms ->
  forall j, from <= j <= length text -> matchAt r text j <> None ->
    exists m, In m ms /\ index m <= j < lastIndex m.
Proof.
  induction 1 as [from Hnone|from m ms st' Hb Hnone Hm Hl Hg Hscan IH];
    intros j Hj Hmatch.
  - exfalso. apply Hmatch. now apply Hnone.
  - destruct (Nat.lt_ge_cases j (index m)) as [Hlt|Hge].
    + exfalso. apply Hmatch. apply Hnone. lia.
    + destruct (Nat.lt_ge_cases j (lastIndex m)) as [Hin|Hout].
      * exists m. split; [now left|lia].
      * destruct (IH j) as (m' & Hm' & Hj'); [lia|assumption|].
        exists m'. split; [now right|exact Hj'].
Qed.

End ScanFacts.
Arguments Scan_matches [r text from ms] _.
Arguments Scan_sorted [r text from ms] _.
Arguments Scan_covers [r text from ms] _ j _ _.

(** ** The definitions of a file, and the caller of a call site *)

Lemma minLen_funcRegex : 0 < minLen funcRegex.
Proof. vm_compute. lia. Qed.

Lemma minLen_callRegex : 0 < minLen callRegex.
Proof. vm_compute. lia. Qed.

Lemma minLen_commentRegex : 0 < minLen commentRegex.
Proof. vm_compute. lia. Qed.

Lemma StronglySorted_map {A B : Type} (R : A -> A -> Prop) (R' : B -> B -> Prop)
  (f : A -> B) (l : list A) :
  (forall x y, R x y -> R' (f x) (f y)) ->
  StronglySorted R l -> StronglySorted R' (map f l).
Proof.
  intros HR. induction 1 as [|x l _ IH Hx]; simpl; constructor; [exact IH|].
  apply Forall_map. eapply Forall_impl; [|exact Hx]. intros y. apply HR.
Qed.

Lemma StronglySorted_filter {A : Type} (R : A -> A -> Prop) (p : A -> bool)
  (l : list A) :
  StronglySorted R l -> StronglySorted R (filter p l).
Proof.
  induction 1 as [|x l _ IH Hx]; simpl; [constructor|].
  destruct (p x); [|exact IH]. constructor; [exact IH|].
  apply Forall_forall. intros y Hy. apply filter_In in Hy as [Hy _].
  rewrite Forall_forall in Hx. now apply Hx.
Qed.

Lemma last_In {A : Type} (l : list A) (d : A) : l <> [] -> In (last l d) l.
Proof.
  induction l as [|x l IH]; [congruence|]. intros _.
  destruct l as [|y l]; [now left|]. right. apply IH. discriminate.
Qed.

Lemma StronglySorted_last {A : Type} (R : A -> A -> Prop) (l : list A) (d : A) :
  StronglySorted R l ->
  forall x, In x l -> x = last l d \/ R x (last l d).
Proof.
  induction 1 as [|y l Hs IH Hy]; intros x; [intros []|].
  intros [<-|Hin].
  - destruct l as [|z l]; [now left|]. right.
    rewrite Forall_forall in Hy. apply Hy.
    change (last (y :: z :: l) d) with (last (z :: l) d).
    apply last_In. discriminate.
  - destruct l as [|z l]; [destruct Hin|].
    change (last (y :: z :: l) d) with (last (z :: l) d). now apply IH.
Qed.

Arguments last_In [A l] d _.
Arguments StronglySorted_last [A R l] d _ x _.

Lemma scanDefs_sorted (fileName text : str) :
  StronglySorted startsBefore (scanDefs fileName text).
Proof.
  unfold scanDefs.
  pose proof (execAll_Scan funcRegex text minLen_funcRegex) as Hscan.
  pose proof (Scan_matches Hscan) as Hm.
  pose proof (Scan_sorted Hscan) as Hs.
  clear Hscan. induction Hs as [|m ms _ IH Hfa]; simpl; constructor.
  - apply IH. now inversion Hm.
  - apply Forall_map. inversion Hm as [|? ? (_ & Hlen & _) _]; subst.
    eapply Forall_impl; [|exact Hfa]. unfold precedes, startsBefore. simpl.
    intros m' H. pose proof minLen_funcRegex. lia.
Qed.

(** The caller chosen for a call site at offset [o]: the definition
    with the greatest start at or before [o]; the pseudo-function of
    the module when the file has none. *)
Lemma callerOf_nearest (funcs : list FunctionDef) (moduleName : str) (o : nat) :
  StronglySorted startsBefore funcs ->
  let c := callerOf funcs moduleName o in
  (forall d, In d funcs -> start d <= o ->
     In c funcs /\ start c <= o /\
     forall d', In d' funcs -> start d' <= o -> start d' <= start c) /\
  ((forall d, In d funcs -> o < start d) -> c = moduleLevel moduleName).
Proof.
  intros Hs c. unfold c, callerOf.
  set (upto := filter (fun f => start f <=? o) funcs).
  assert (Hb : forall d, In d upto <-> In d funcs /\ start d <= o).
  { intros d. unfold upto. rewrite filter_In, Nat.leb_le. tauto. }
  split.
  - intros d Hd Ho.
    assert (Hne : upto <> []).
    { intros E. assert (Hin : In d upto) by now apply Hb.
      rewrite E in Hin. destruct Hin. }
    pose proof (last_In (moduleLevel moduleName) Hne) as Hlast.
    apply Hb in Hlast as [H1 H2]. split; [exact H1|]. split; [exact H2|].
    intros d' Hd' Ho'.
    assert (Hs' : StronglySorted startsBefore upto)
      by now apply StronglySorted_filter.
    destruct (StronglySorted_last (moduleLevel moduleName) Hs' d') as [->|Hlt].
    + now apply Hb.
    + lia.
    + unfold startsBefore in Hlt. lia.
  - intros Hall. destruct upto as [|d l] eqn:E; [reflexivity|].
    exfalso. assert (Hin : In d (d :: l)) by now left.
    apply Hb in Hin as [H1 H2]. specialize (Hall d H1). lia.
Qed.

(** C3, as the code has it.  In the second pass the definitions of the
    file are at hand, and the caller of a call site at offset [o] is
    the definition of the file with the greatest start at or before
    [o]; when the file has no definition at or before [o], it is the
    pseudo-function named [<module>], of the file's module, at offset
    0.  (The name is [<module>], not [<module-level>]: see
    [pseudo_function_is_named_module].) *)
Theorem caller_of_call_site (readFileSync : str -> str) (files : list str)
  (file : str) (o : nat) :
  In file files ->
  exists funcsInFile,
    Map_get (snd (collectDefinitions readFileSync files)) file
      = Some funcsInFile /\
    let c := callerOf funcsInFile (moduleOf file) o in
    (forall d, In d funcsInFile -> start d <= o ->
       In c funcsInFile /\ start c <= o /\
       forall d', In d' funcsInFile -> start d' <= o -> start d' <= start c) /\
    ((forall d, In d funcsInFile -> o < start d) ->
       c = mkFunctionDef (lit "<module>") (moduleOf file) 0).
Proof.
  intros Hin. exists (definitionsOf readFileSync file).
  split; [now apply fileFuncMap_get|].
  apply callerOf_nearest. apply scanDefs_sorted.
Qed.

(** On Example 1: the call of [bar] at offset 12 of [a.c]. *)
Lemma caller_of_call_site_witness :
  exists funcsInFile,
    Map_get (snd (collectDefinitions example1 [lit "proj/a.c"; lit "proj/b.c"]))
            (lit "proj/a.c") = Some funcsInFile /\
    let c := callerOf funcsInFile (moduleOf (lit "proj/a.c")) 12 in
    (forall d, In d funcsInFile -> start d <= 12 ->
       In c funcsInFile /\ start c <= 12 /\
       forall d', In d' funcsInFile -> start d' <= 12 -> start d' <= start c) /\
    ((forall d, In d funcsInFile -> 12 < start d) ->
       c = mkFunctionDef (lit "<module>") (moduleOf (lit "proj/a.c")) 0).
Proof.
  apply (caller_of_call_site example1 [lit "proj/a.c"; lit "proj/b.c"]
           (lit "proj/a.c") 12).
  simpl. left. reflexivity.
Defined.

(** C3 fails as stated: for a call site with no definition before it,
    the caller is the pseudo-function named [<module>]; the name
    [<module-level>] occurs nowhere. *)
Lemma pseudo_function_is_named_module :
  definitionsOf exampleNoDef (lit "proj/a.c") = [] /\
  callerOf (definitionsOf exampleNoDef (lit "proj/a.c")) (lit "a") 8
    = mkFunctionDef (lit "<module>") (lit "a") 0 /\
  callerOf (definitionsOf exampleNoDef (lit "proj/a.c")) (lit "a") 8
    <> mkFunctionDef (lit "<module-level>") (lit "a") 0.
Proof.
  split; [vm_compute; reflexivity|]. split; [vm_compute; reflexivity|].
  vm_compute. discriminate.
Qed.

Lemma forEachM_map {A B C : Type} (body : A -> C -> Result A) (f : B -> C)
  (l : list B) (a : A) :
  forEachM body (map f l) a = forEachM (fun a' x => body a' (f x)) l a.
Proof.
  revert a; induction l as [|x l IH]; intros a; simpl; [reflexivity|].
  destruct (body a (f x)); simpl; [apply IH|reflexivity].
Qed.

Lemma forEachM_ext {A B : Type} (body body' : A -> B -> Result A)
  (l : list B) (a : A) :
  (forall a' x, body a' x = body' a' x) ->
  forEachM body l a = forEachM body' l a.
Proof.
  intros H. revert a; induction l as [|x l IH]; intros a; simpl;
    [reflexivity|].
  rewrite H. destruct (body' a x); simpl; [apply IH|reflexivity].
Qed.

(** A turn of the second loop sets its variables, then uses them. *)
Lemma recordCall_attribute (defs : JsMap FunctionDef)
  (funcsInFile : list FunctionDef) (moduleName : str) (edgesMap : JsMap Edge)
  (m : MatchResult) :
  recordCall defs (Some funcsInFile) moduleName edgesMap m
  = recordAttributed defs edgesMap (attribute funcsInFile moduleName m).
Proof. reflexivity. Qed.

(** The second pass over a file is its turns, one after the other. *)
Lemma scanFile_attributions (readFileSync : str -> str)
  (defs : JsMap FunctionDef) (fileFuncMap : JsMap (list FunctionDef))
  (edgesMap : JsMap Edge) (file : str) (turns : list Attribution) :
  attributionsOf readFileSync fileFuncMap file = Some turns ->
  scanFile readFileSync defs fileFuncMap edgesMap file
  = forEachM (recordAttributed defs) turns edgesMap.
Proof.
  unfold attributionsOf, scanFile.
  destruct (Map_get fileFuncMap file) as [funcs|]; [|discriminate].
  intros H. inversion H; subst. rewrite forEachM_map.
  apply forEachM_ext. intros a' x. apply recordCall_attribute.
Qed.

(** C9.  Definitions are located in the text as read, call sites in
    the text without comments, and the two offsets are compared as
    they are.  A run over [m.c] and [n.c]: the first pass records for
    [m.c] the definitions [a] at 0 and [f] at 50, for [n.c] the
    definition [f] at 30.  In [m.c] the call of [g] stands at offset 60
    of the file, inside the braces of [f]; the second pass finds it at
    22 and sets [callerFunc] to [a].  In [n.c] the call of [g] stands
    at 40, inside [f]; the second pass finds it at 11, before every
    definition, and sets [callerFunc] to the pseudo-function of the
    module.  What the second pass does to [edgesMap] for a file is
    what these turns do, whatever the symbol table holds. *)
Theorem comment_shifts_caller :
  (Map_get (snd (collectDefinitions exampleShifted
                   [lit "proj/m.c"; lit "proj/n.c"])) (lit "proj/m.c")
     = Some [mkFunctionDef (lit "a") (lit "m") 0;
             mkFunctionDef (lit "f") (lit "m") 50] /\
   skipn 50 (exampleShifted (lit "proj/m.c")) = lit "void f(){ g(); }" /\
   firstn 2 (skipn 60 (exampleShifted (lit "proj/m.c"))) = lit "g(" /\
   attributionsOf exampleShifted
     (snd (collectDefinitions exampleShifted [lit "proj/m.c"; lit "proj/n.c"]))
     (lit "proj/m.c")
     = Some [mkAttribution (lit "a") 5 (mkFunctionDef (lit "a") (lit "m") 0);
             mkAttribution (lit "f") 17 (mkFunctionDef (lit "a") (lit "m") 0);
             mkAttribution (lit "g") 22 (mkFunctionDef (lit "a") (lit "m") 0)] /\
   (forall defs edgesMap,
      scanFile exampleShifted defs
        (snd (collectDefinitions exampleShifted [lit "proj/m.c"; lit "proj/n.c"]))
        edgesMap (lit "proj/m.c")
      = forEachM (recordAttributed defs)
          [mkAttribution (lit "a") 5 (mkFunctionDef (lit "a") (lit "m") 0);
           mkAttribution (lit "f") 17 (mkFunctionDef (lit "a") (lit "m") 0);
           mkAttribution (lit "g") 22 (mkFunctionDef (lit "a") (lit "m") 0)]
          edgesMap)) /\
  (Map_get (snd (collectDefinitions exampleShifted
                   [lit "proj/m.c"; lit "proj/n.c"])) (lit "proj/n.c")
     = Some [mkFunctionDef (lit "f") (lit "n") 30] /\
   skipn 30 (exampleShifted (lit "proj/n.c")) = lit "void f(){ g(); }" /\
   firstn 2 (skipn 40 (exampleShifted (lit "proj/n.c"))) = lit "g(" /\
   attributionsOf exampleShifted
     (snd (collectDefinitions exampleShifted [lit "proj/m.c"; lit "proj/n.c"]))
     (lit "proj/n.c")
     = Some [mkAttribution (lit "f") 6 (mkFunctionDef (lit "<module>") (lit "n") 0);
             mkAttribution (lit "g") 11 (mkFunctionDef (lit "<module>") (lit "n") 0)] /\
   (forall defs edgesMap,
      scanFile exampleShifted defs
        (snd (collectDefinitions exampleShifted [lit "proj/m.c"; lit "proj/n.c"]))
        edgesMap (lit "proj/n.c")
      = forEachM (recordAttributed defs)
          [mkAttribution (lit "f") 6 (mkFunctionDef (lit "<module>") (lit "n") 0);
           mkAttribution (lit "g") 11 (mkFunctionDef (lit "<module>") (lit "n") 0)]
          edgesMap)).
Proof.
  split; (repeat split; try (vm_compute; reflexivity));
    intros defs edgesMap; apply scanFile_attributions; vm_compute; reflexivity.
Qed.

(** ** Running the command again *)

Lemma flat_map_ext_In {A B : Type} (f g : A -> list B) (l : list A) :
  (forall x, In x l -> f x = g x) -> flat_map f l = flat_map g l.
Proof.
  induction l as [|x l IH]; intros H; simpl; [reflexivity|].
  rewrite (H x) by now left. rewrite IH; [reflexivity|].
  intros y Hy. apply H. now right.
Qed.

(** The graph depends on the file system only through the texts of
    the files scanned. *)
Lemma buildGraph_ext (read1 read2 : str -> str) (files : list str) :
  (forall f, In f files -> read1 f = read2 f) ->
  buildGraph read1 files = buildGraph read2 files.
Proof.
  intros H. rewrite !buildGraph_eq.
  assert (Hd : allDefs read1 files = allDefs read2 files).
  { apply flat_map_ext_In. intros f Hf. unfold definitionsOf.
    now rewrite (H f Hf). }
  rewrite Hd.
  assert (He : forall defs, allEvents read1 defs files = allEvents read2 defs files).
  { intros defs. apply flat_map_ext_In. intros f Hf. unfold eventsOfFile.
    now rewrite (H f Hf). }
  now rewrite He.
Qed.

(** C7.  Two runs over the same folder that find the same files, in
    the same order, with the same texts, end the same way: both build
    one and the same graph (the same modules, the same edges with the
    same functions) and show the same chart.  Nothing else of the file
    system, and nothing of an earlier run, has a part in it. *)
Theorem rerun_builds_same_graph (fs1 fs2 : FileSystem) (selectedFolder : str)
  (files : list str) :
  nodeAt fs1 selectedFolder = nodeAt fs2 selectedFolder ->
  walkFiles (nodeAt fs1 selectedFolder) selectedFolder sourceExts = Ok files ->
  (forall f, In f files -> readFileSync fs1 f = readFileSync fs2 f) ->
  (exists g, buildGraph (readFileSync fs1) files = Ok g /\
             buildGraph (readFileSync fs2) files = Ok g) /\
  generate fs1 (mkInvocation true (Some selectedFolder)) =
  generate fs2 (mkInvocation true (Some selectedFolder)).
Proof.
  intros Hnode Hwalk Htext.
  pose proof (buildGraph_ext _ _ files Htext) as Hg. split.
  - rewrite <- Hg, buildGraph_eq. eexists. split; reflexivity.
  - unfold generate. simpl. rewrite <- Hnode, Hwalk.
    destruct files as [|f files']; [reflexivity|]. now rewrite Hg.
Qed.

(** On Example 1, before and after a file appeared that the walk does not
    pick up. *)
Lemma rerun_builds_same_graph_witness :
  (exists g,
     buildGraph (readFileSync example1Before)
       [lit "proj/a.c"; lit "proj/b.c"] = Ok g /\
     buildGraph (readFileSync example1After)
       [lit "proj/a.c"; lit "proj/b.c"] = Ok g) /\
  generate example1Before (mkInvocation true (Some (lit "proj"))) =
  generate example1After (mkInvocation true (Some (lit "proj"))).
Proof.
  apply (rerun_builds_same_graph example1Before example1After (lit "proj")
           [lit "proj/a.c"; lit "proj/b.c"]).
  - reflexivity.
  - vm_compute. reflexivity.
  - intros f [<-|[<-|[]]]; vm_compute; reflexivity.
Defined.

(** ** The walk and what it cannot read *)

Lemma Node_nested_ind (P : Node -> Prop) :
  P File -> P NoAccessDir -> P Dangling ->
  (forall entries, Forall (fun entry => P (snd entry)) entries -> P (Dir entries)) ->
  forall node, P node.
Proof.
  intros HF HN HD HDir. fix IH 1. intros [|entries| |]; try assumption.
  apply HDir. induction entries as [|[file child] rest IHrest]; constructor.
  - simpl. apply IH.
  - exact IHrest.
Qed.

Lemma walkEntries_throws (walk : Node -> str -> Result (list str))
  (dir : str) (exts : list str) (items : list (str * Node)) :
  Forall (fun entry => forall path,
            containsNoAccess (snd entry) = true ->
            exists e, walk (snd entry) path = Throw e) items ->
  existsb (fun entry => containsNoAccess (snd entry)) items = true ->
  forall results, exists e, walkEntries walk dir exts items results = Throw e.
Proof.
  induction 1 as [|[file child] rest Hchild _ IH]; simpl; [discriminate|].
  intros Hex results. simpl in Hchild.
  destruct child as [|entries| |].
  - simpl in Hex. destruct (includes exts (extname file)); now apply IH.
  - destruct (walk (Dir entries) (join dir file)) as [sub|e] eqn:W;
      simpl; [|now exists e].
    destruct (containsNoAccess (Dir entries)) eqn:C.
    + destruct (Hchild (join dir file) eq_refl) as [e He]. congruence.
    + now apply IH.
  - destruct (Hchild (join dir file) eq_refl) as [e He]. rewrite He. simpl.
    now exists e.
  - eexists. reflexivity.
Qed.

Lemma walkFiles_throws (exts : list str) (node : Node) :
  forall dir, containsNoAccess node = true ->
              exists e, walkFiles node dir exts = Throw e.
Proof.
  induction node as [| | |entries IH] using Node_nested_ind; intros dir; simpl;
    try discriminate.
  - intros _. eexists. reflexivity.
  - intros Hex. apply walkEntries_throws; [|exact Hex].
    eapply Forall_impl; [|exact IH]. simpl. intros entry H path. apply H.
Qed.

Lemma walkEntries_returns (walk : Node -> str -> Result (list str))
  (dir : str) (exts : list str) (items : list (str * Node)) :
  Forall (fun entry => forall path,
            readable (snd entry) = true -> isDirectory (snd entry) = true ->
            exists files, walk (snd entry) path = Ok files) items ->
  forallb (fun entry => readable (snd entry)) items = true ->
  forall results, exists files, walkEntries walk dir exts items results = Ok files.
Proof.
  induction 1 as [|[file child] rest Hchild _ IH]; simpl; [eauto|].
  intros Hall results. apply andb_true_iff in Hall as [Hc Hrest].
  simpl in Hchild, Hc. destruct child as [|entries| |]; try discriminate.
  - destruct (includes exts (extname file)); now apply IH.
  - destruct (Hchild (join dir file) Hc eq_refl) as [sub ->]. simpl.
    now apply IH.
Qed.

(** Where everything can be listed and stat'ed, the walk returns. *)
Lemma walkFiles_returns (exts : list str) (node : Node) :
  forall dir, readable node = true -> isDirectory node = true ->
              exists files, walkFiles node dir exts = Ok files.
Proof.
  induction node as [| | |entries IH] using Node_nested_ind; intros dir; simpl;
    try discriminate.
  intros Hall _. apply walkEntries_returns; [|exact Hall].
  eapply Forall_impl; [|exact IH]. simpl. intros entry H path. apply H.
Qed.

Lemma forallb_first_false {A : Type} (p : A -> bool) (l : list A) :
  forallb p l = false ->
  exists before x after,
    l = before ++ x :: after /\ forallb p before = true /\ p x = false.
Proof.
  induction l as [|y l IH]; simpl; [discriminate|].
  destruct (p y) eqn:E; simpl.
  - intros H. destruct (IH H) as (before & x & after & -> & Hb & Hx).
    exists (y :: before), x, after. simpl. now rewrite E.
  - intros _. exists [], y, l. auto.
Qed.

(** Where something cannot be listed or stat'ed, the walk comes to a
    first such entry. *)
Lemma unreadable_FirstFailure (node : Node) :
  readable node = false -> forall dir, exists e, FirstFailure node dir e.
Proof.
  induction node as [| | |entries IH] using Node_nested_ind; simpl;
    try discriminate.
  - intros _ dir. eexists. constructor.
  - intros _ dir. eexists. constructor.
  - intros Hall dir.
    destruct (forallb_first_false _ _ Hall)
      as (before & [file child] & after & -> & Hb & Hx).
    apply Forall_app in IH as [_ IH]. inversion IH as [|? ? Hchild _]; subst.
    destruct (Hchild Hx (join dir file)) as [e He].
    exists e. now constructor.
Qed.

Lemma containsNoAccess_unreadable (node : Node) :
  containsNoAccess node = true -> readable node = false.
Proof.
  induction node as [| | |entries IH] using Node_nested_ind; simpl;
    try discriminate; try reflexivity.
  intros Hex. apply existsb_exists in Hex as (entry & Hin & Hc).
  rewrite Forall_forall in IH.
  destruct (forallb (fun entry0 => readable (snd entry0)) entries) eqn:E;
    [|reflexivity].
  rewrite forallb_forall in E. pose proof (E entry Hin) as E'.
  cbv beta in E'. rewrite (IH entry Hin Hc) in E'. discriminate E'.
Qed.

(** The walk passes the entries that can be read. *)
Lemma walkEntries_past_readable (exts : list str) (dir : str)
  (before rest : list (str * Node)) :
  forallb (fun entry => readable (snd entry)) before = true ->
  forall results, exists results',
    walkEntries (fun child path => walkFiles child path exts) dir exts
      (before ++ rest) results
    = walkEntries (fun child path => walkFiles child path exts) dir exts
        rest results'.
Proof.
  induction before as [|[file child] before IH]; intros Hall results.
  - now exists results.
  - cbn [forallb snd] in Hall. apply andb_true_iff in Hall as [Hc Hb].
    cbn [app walkEntries].
    destruct child as [|entries| |]; try discriminate.
    + destruct (includes exts (extname file)); now apply IH.
    + destruct (walkFiles_returns exts (Dir entries) (join dir file) Hc eq_refl)
        as [sub Hs].
      rewrite Hs. cbn [bind]. now apply IH.
Qed.

(** The walk throws what its first failure throws. *)
Lemma FirstFailure_throws (exts : list str) (node : Node) (dir : str)
  (e : Thrown) :
  FirstFailure node dir e -> walkFiles node dir exts = Throw e.
Proof.
  induction 1 as [dir|dir|before file child after dir e Hb Hf IH];
    [reflexivity|reflexivity|].
  cbn [walkFiles].
  destruct (walkEntries_past_readable exts dir before ((file, child) :: after)
              Hb []) as [results ->].
  cbn [walkEntries].
  destruct child as [|entries| |].
  - inversion Hf.
  - rewrite IH. reflexivity.
  - rewrite IH. reflexivity.
  - inversion Hf; subst. reflexivity.
Qed.

(** C8, as the code has it.  A directory that cannot be read, anywhere
    under the selected folder, ends the walk with an exception -- no
    file list comes back -- and the exception leaves the command: no
    graph is built and no warning is shown.  The exception is the one
    of the first entry, in the order of the walk, that cannot be
    listed or stat'ed, and of no other; so when the walk comes to a
    directory that cannot be read (everything before it can be), the
    command is rejected with the [EACCES] of that very directory. *)
Theorem unreadable_directory_rejects_run (fs : FileSystem) (selectedFolder : str) :
  containsNoAccess (nodeAt fs selectedFolder) = true ->
  exists e,
    walkFiles (nodeAt fs selectedFolder) selectedFolder sourceExts = Throw e /\
    generate fs (mkInvocation true (Some selectedFolder)) = Rejected e /\
    FirstFailure (nodeAt fs selectedFolder) selectedFolder e /\
    (forall e', FirstFailure (nodeAt fs selectedFolder) selectedFolder e' ->
                e' = e) /\
    (forall p, FirstFailure (nodeAt fs selectedFolder) selectedFolder (EACCES p) ->
               generate fs (mkInvocation true (Some selectedFolder))
                 = Rejected (EACCES p)).
Proof.
  intros H.
  destruct (unreadable_FirstFailure _ (containsNoAccess_unreadable _ H)
              selectedFolder) as [e Hf].
  pose proof (FirstFailure_throws sourceExts _ _ _ Hf) as He.
  assert (Hgen : generate fs (mkInvocation true (Some selectedFolder))
                 = Rejected e).
  { unfold generate. cbn [workspaceFolders folderUri negb]. now rewrite He. }
  assert (Huniq : forall e', FirstFailure (nodeAt fs selectedFolder)
                               selectedFolder e' -> e' = e).
  { intros e' Hf'. apply (FirstFailure_throws sourceExts) in Hf'. congruence. }
  exists e. split; [exact He|]. split; [exact Hgen|]. split; [exact Hf|].
  split; [exact Huniq|].
  intros p Hp. now rewrite (Huniq _ Hp).
Qed.

(** On a folder with an unreadable directory between two source files. *)
Lemma unreadable_directory_rejects_run_witness :
  exists e,
    walkFiles (nodeAt (mkFileSystem (fun _ => exampleLocked) example1) (lit "proj"))
              (lit "proj") sourceExts = Throw e /\
    generate (mkFileSystem (fun _ => exampleLocked) example1)
             (mkInvocation true (Some (lit "proj"))) = Rejected e /\
    FirstFailure exampleLocked (lit "proj") e /\
    (forall e', FirstFailure exampleLocked (lit "proj") e' -> e' = e) /\
    (forall p, FirstFailure exampleLocked (lit "proj") (EACCES p) ->
               generate (mkFileSystem (fun _ => exampleLocked) example1)
                        (mkInvocation true (Some (lit "proj")))
                 = Rejected (EACCES p)).
Proof.
  apply (unreadable_directory_rejects_run
           (mkFileSystem (fun _ => exampleLocked) example1) (lit "proj")).
  reflexivity.
Defined.

(** In [exampleLocked] the walk comes to [locked]; in
    [exampleDanglingFirst] it comes to the dangling entry first, and
    the exception is that entry's. *)
Lemma first_failure_examples :
  FirstFailure exampleLocked (lit "proj") (EACCES (lit "proj/locked")) /\
  FirstFailure exampleDanglingFirst (lit "proj") (ENOENT (lit "proj/gone")) /\
  walkFiles exampleDanglingFirst (lit "proj") sourceExts
    = Throw (ENOENT (lit "proj/gone")).
Proof.
  split; [|split; [|vm_compute; reflexivity]].
  - apply (Fails_below [(lit "a.c", File)] (lit "locked") NoAccessDir
             [(lit "b.c", File)] (lit "proj")); [reflexivity|].
    apply Fails_unreadable.
  - apply (Fails_below [(lit "a.c", File)] (lit "gone") Dangling
             [(lit "locked", NoAccessDir)] (lit "proj")); [reflexivity|].
    apply Fails_dangling.
Qed.

(** C8 fails as stated: with a directory [locked] that cannot be read
    between [a.c] and [b.c], the walk does not skip it and go on to
    [b.c]; it throws, and the command is rejected with that exception. *)
Lemma unreadable_directory_not_skipped :
  walkFiles exampleLocked (lit "proj") sourceExts
    = Throw (EACCES (lit "proj/locked")) /\
  walkFiles exampleLocked (lit "proj") sourceExts
    <> Ok [lit "proj/a.c"; lit "proj/b.c"] /\
  generate (mkFileSystem (fun _ => exampleLocked) example1)
           (mkInvocation true (Some (lit "proj")))
    = Rejected (EACCES (lit "proj/locked")).
Proof.
  split; [vm_compute; reflexivity|]. split; [vm_compute; discriminate|].
  vm_compute. reflexivity.
Qed.

(** ** The order of the files *)

Lemma singleOwner_spec (readFileSync : str -> str) (files : list str) :
  singleOwner readFileSync files = true ->
  forall f1 f2 n,
    In f1 files -> In f2 files ->
    In n (definedNames readFileSync f1) ->
    In n (definedNames readFileSync f2) ->
    moduleOf f1 = moduleOf f2.
Proof.
  unfold singleOwner. intros H f1 f2 n H1 H2 N1 N2.
  rewrite forallb_forall in H. specialize (H f1 H1).
  rewrite forallb_forall in H. specialize (H f2 H2).
  apply orb_true_iff in H as [H|H]; [now apply str_eqb_eq|].
  rewrite forallb_forall in H. specialize (H n N1).
  apply negb_true_iff, includes_not_In in H. contradiction.
Qed.

Lemma keysDistinct_spec (mods : list str) :
  keysDistinct mods = true ->
  forall a b a' b',
    In a mods -> In b mods -> In a' mods -> In b' mods ->
    edgeKey a b = edgeKey a' b' -> a = a' /\ b = b'.
Proof.
  unfold keysDistinct. intros H a b a' b' Ha Hb Ha' Hb' E.
  rewrite forallb_forall in H. specialize (H a Ha).
  rewrite forallb_forall in H. specialize (H b Hb).
  rewrite forallb_forall in H. specialize (H a' Ha').
  rewrite forallb_forall in H. specialize (H b' Hb').
  rewrite E, str_eqb_refl in H. simpl in H.
  apply andb_true_iff in H as [H1 H2].
  split; now apply str_eqb_eq.
Qed.

Lemma keysDistinct_perm (l l' : list str) :
  (forall x, In x l' -> In x l) ->
  keysDistinct l = true -> keysDistinct l' = true.
Proof.
  intros Hsub H. pose proof (keysDistinct_spec l H) as Hspec.
  unfold keysDistinct.
  apply forallb_forall. intros a Ha. apply forallb_forall. intros b Hb.
  apply forallb_forall. intros a' Ha'. apply forallb_forall. intros b' Hb'.
  destruct (str_eqb (edgeKey a b) (edgeKey a' b')) eqn:E; [|reflexivity].
  apply str_eqb_eq in E. simpl.
  destruct (Hspec a b a' b') as [-> ->]; auto.
  now rewrite !str_eqb_refl.
Qed.

(** With distinct keys, an edge lists exactly the callees of the calls
    between its two modules. *)
Lemma edgesOf_functions (evs : list CallEvent) (k : str) (e : Edge) :
  (forall a b fn a' b' fn',
     In (a, b, fn) evs -> In (a', b', fn') evs ->
     edgeKey a b = edgeKey a' b' -> a = a' /\ b = b') ->
  Map_get (edgesOf evs) k = Some e ->
  forall fn, In fn (functions e) <-> In (fromModule e, toModule e, fn) evs.
Proof.
  intros Hinj G fn.
  destruct (edgesOf_sound evs k e G) as (Hk & [fn0 H0] & Hf). split.
  - intros Hfn. destruct (Hf fn Hfn) as (a & b & Hin & Hkey).
    rewrite Hk in Hkey.
    destruct (Hinj a b fn _ _ fn0 Hin H0 Hkey) as [-> ->]. exact Hin.
  - intros Hin. destruct (edgesOf_complete evs _ _ _ Hin) as (e2 & G2 & Hfn).
    rewrite <- Hk, G in G2. now injection G2 as <-.
Qed.

Lemma edgesOf_included (evs evs' : list CallEvent) :
  (forall a b fn a' b' fn',
     In (a, b, fn) evs -> In (a', b', fn') evs ->
     edgeKey a b = edgeKey a' b' -> a = a' /\ b = b') ->
  (forall ev, In ev evs <-> In ev evs') ->
  edgesIncluded (edgesOf evs) (edgesOf evs').
Proof.
  intros Hinj Hsame e He.
  assert (Hinj' : forall a b fn a' b' fn',
            In (a, b, fn) evs' -> In (a', b', fn') evs' ->
            edgeKey a b = edgeKey a' b' -> a = a' /\ b = b').
  { intros a b fn a' b' fn' H1 H2. apply Hsame in H1, H2. now apply (Hinj a b fn a' b' fn'). }
  unfold Map_values in He. apply in_map_iff in He as ([k e0] & E & Hin).
  simpl in E. subst e0.
  apply Map_In_get in Hin; [|apply edgesOf_NoDup].
  destruct (edgesOf_sound evs k e Hin) as (Hk & [fn0 H0] & _).
  pose proof H0 as H0'. apply Hsame in H0'.
  destruct (edgesOf_complete evs' _ _ _ H0') as (e' & G' & _).
  destruct (edgesOf_sound evs' _ e' G') as (Hk' & [fn1 H1] & _).
  destruct (Hinj' _ _ fn0 _ _ fn1 H0' H1 Hk') as [Ef Et].
  exists e'. split.
  - apply Map_get_values with (k := edgeKey (fromModule e) (toModule e)).
    exact G'.
  - split; [exact Ef|]. split; [exact Et|]. intros fn.
    rewrite (edgesOf_functions evs k e Hinj Hin).
    rewrite (edgesOf_functions evs' _ e' Hinj' G').
    rewrite <- Ef, <- Et. apply Hsame.
Qed.

Lemma allDefs_In (readFileSync : str -> str) (files : list str) (d : FunctionDef) :
  In d (allDefs readFileSync files) <->
  exists f, In f files /\ In d (definitionsOf readFileSync f).
Proof. unfold allDefs. apply in_flat_map. Qed.

Lemma definitionsOf_module (readFileSync : str -> str) (f : str) (d : FunctionDef) :
  In d (definitionsOf readFileSync f) -> module d = moduleOf f.
Proof.
  intros H. pose proof (scanDefs_module (moduleOf f) (readFileSync f)) as Hm.
  rewrite Forall_forall in Hm. now apply Hm.
Qed.

Section Order.
Variable readFileSync : str -> str.
Variables files files' : list str.
Hypothesis same_files : forall f, In f files <-> In f files'.
Hypothesis owner :
  forall f1 f2 n,
    In f1 files -> In f2 files ->
    In n (definedNames readFileSync f1) ->
    In n (definedNames readFileSync f2) ->
    moduleOf f1 = moduleOf f2.

Local Abbreviation defs := (fold_left setDef (allDefs readFileSync files) []).
Local Abbreviation defs' := (fold_left setDef (allDefs readFileSync files') []).

(** Whichever definition of a name wins, it has the same module. *)
Lemma resolve_same_module (n : str) (d : FunctionDef) :
  Map_get defs n = Some d ->
  exists d', Map_get defs' n = Some d' /\ module d' = module d.
Proof.
  intros G. apply setDef_fold_get in G as [Hd Hn].
  apply allDefs_In in Hd as (f & Hf & Hd).
  assert (N : In n (definedNames readFileSync f))
    by (rewrite <- Hn; now apply in_map).
  destruct (setDef_fold_defined (allDefs readFileSync files') n) as [d' G'].
  { apply allDefs_names. exists f. split; [now apply same_files|exact N]. }
  exists d'. split; [exact G'|].
  apply setDef_fold_get in G' as [Hd' Hn'].
  apply allDefs_In in Hd' as (f' & Hf' & Hd').
  rewrite (definitionsOf_module _ _ _ Hd), (definitionsOf_module _ _ _ Hd').
  apply (owner f' f n); auto.
  - now apply same_files.
  - rewrite <- Hn'. now apply in_map.
Qed.

Lemma events_same (ev : CallEvent) :
  In ev (allEvents readFileSync defs files) ->
  In ev (allEvents readFileSync defs' files').
Proof.
  destruct ev as [[a b] fn]. rewrite !allEvents_In.
  intros (f & d & Hf & Ha & Hc & G & Hb & Hne).
  destruct (resolve_same_module _ _ G) as (d' & G' & Hm).
  exists f, d'. repeat split; auto.
  - now apply same_files.
  - congruence.
Qed.

Lemma events_modules (a b fn : str) :
  In (a, b, fn) (allEvents readFileSync defs files) ->
  In a (map moduleOf files) /\ In b (map moduleOf files).
Proof.
  rewrite allEvents_In. intros (f & d & Hf & Ha & _ & G & Hb & _).
  split; [subst a; now apply in_map|].
  apply setDef_fold_get in G as [Hd _].
  apply allDefs_In in Hd as (f' & Hf' & Hd).
  rewrite <- Hb, (definitionsOf_module _ _ _ Hd). now apply in_map.
Qed.

End Order.

Lemma events_injective (readFileSync : str -> str) (files : list str) :
  keysDistinct (map moduleOf files) = true ->
  forall a b fn a' b' fn',
    In (a, b, fn) (allEvents readFileSync
                     (fold_left setDef (allDefs readFileSync files) []) files) ->
    In (a', b', fn') (allEvents readFileSync
                        (fold_left setDef (allDefs readFileSync files) []) files) ->
    edgeKey a b = edgeKey a' b' -> a = a' /\ b = b'.
Proof.
  intros K a b fn a' b' fn' H1 H2 E.
  apply events_modules in H1 as [Ha Hb]. apply events_modules in H2 as [Ha' Hb'].
  now apply (keysDistinct_spec _ K a b a' b').
Qed.

(** C6, as the code has it.  When no name is defined in two files of
    different modules, and different pairs of modules have different
    keys in [edgesMap], the edges of the graph -- the pairs of modules,
    each with its set of functions -- are the same for every order of
    the files. *)
Theorem edge_set_independent_of_file_order (readFileSync : str -> str)
  (files files' : list str) (g g' : Graph) :
  Permutation files files' ->
  singleOwner readFileSync files = true ->
  keysDistinct (map moduleOf files) = true ->
  buildGraph readFileSync files = Ok g ->
  buildGraph readFileSync files' = Ok g' ->
  sameEdgeSet (edges g) (edges g').
Proof.
  intros Hperm Hown Hkeys. rewrite !buildGraph_eq. intros [= <-] [= <-]. simpl.
  assert (Hsame : forall f, In f files <-> In f files').
  { intros f. split; apply Permutation_in; [exact Hperm|now symmetry]. }
  assert (Hsame' : forall f, In f files' <-> In f files)
    by (intros f; symmetry; apply Hsame).
  pose proof (singleOwner_spec _ _ Hown) as Howner.
  assert (Howner' : forall f1 f2 n,
            In f1 files' -> In f2 files' ->
            In n (definedNames readFileSync f1) ->
            In n (definedNames readFileSync f2) ->
            moduleOf f1 = moduleOf f2).
  { intros f1 f2 n H1 H2. apply Howner; now apply Hsame. }
  assert (Hkeys' : keysDistinct (map moduleOf files') = true).
  { apply keysDistinct_perm with (l := map moduleOf files); [|exact Hkeys].
    intros x Hx. apply in_map_iff in Hx as (f & <- & Hf).
    apply in_map. now apply Hsame. }
  assert (Hev : forall ev,
            In ev (allEvents readFileSync
                     (fold_left setDef (allDefs readFileSync files) []) files) <->
            In ev (allEvents readFileSync
                     (fold_left setDef (allDefs readFileSync files') []) files')).
  { intros ev. split.
    - now apply events_same.
    - now apply events_same. }
  split; fold (edgesOf (allEvents readFileSync
                 (fold_left setDef (allDefs readFileSync files) []) files));
    fold (edgesOf (allEvents readFileSync
            (fold_left setDef (allDefs readFileSync files') []) files')).
  - apply edgesOf_included; [now apply events_injective|exact Hev].
  - apply edgesOf_included; [now apply events_injective|].
    intros ev. symmetry. apply Hev.
Qed.

(** On Example 1: [a.c] before [b.c], and [b.c] before [a.c]. *)
Lemma edge_set_independent_of_file_order_witness :
  sameEdgeSet
    [(lit "a->b", mkEdge (lit "a") (lit "b") [lit "bar"])]
    [(lit "a->b", mkEdge (lit "a") (lit "b") [lit "bar"])].
Proof.
  apply (edge_set_independent_of_file_order example1
           [lit "proj/a.c"; lit "proj/b.c"] [lit "proj/b.c"; lit "proj/a.c"]
           (mkGraph [lit "a"; lit "b"]
              [(lit "a->b", mkEdge (lit "a") (lit "b") [lit "bar"])])
           (mkGraph [lit "b"; lit "a"]
              [(lit "a->b", mkEdge (lit "a") (lit "b") [lit "bar"])])).
  - apply perm_swap.
  - vm_compute. reflexivity.
  - vm_compute. reflexivity.
  - vm_compute. reflexivity.
  - vm_compute. reflexivity.
Defined.

(** C6 fails as stated: [a.c] and [b.c] both define [init] and [c.c]
    calls it.  With [a.c] before [b.c] the edges lead to [b]; with
    [b.c] before [a.c] they lead to [a]. *)
Lemma duplicate_definition_makes_order_matter :
  exists g1 g2,
    Permutation [lit "proj/a.c"; lit "proj/b.c"; lit "proj/c.c"]
                [lit "proj/b.c"; lit "proj/a.c"; lit "proj/c.c"] /\
    buildGraph example4 [lit "proj/a.c"; lit "proj/b.c"; lit "proj/c.c"] = Ok g1 /\
    buildGraph example4 [lit "proj/b.c"; lit "proj/a.c"; lit "proj/c.c"] = Ok g2 /\
    map (fun e => (fromModule e, toModule e)) (Map_values (edges g1))
      = [(lit "a", lit "b"); (lit "c", lit "b")] /\
    map (fun e => (fromModule e, toModule e)) (Map_values (edges g2))
      = [(lit "b", lit "a"); (lit "c", lit "a")] /\
    ~ sameEdgeSet (edges g1) (edges g2).
Proof.
  eexists. eexists. split; [apply perm_swap|].
  split; [vm_compute; reflexivity|]. split; [vm_compute; reflexivity|].
  split; [reflexivity|]. split; [reflexivity|].
  intros [H _]. destruct (H (mkEdge (lit "a") (lit "b") [lit "init"])) as (e2 & Hin & Hf & _).
  - simpl. left. reflexivity.
  - simpl in Hin. destruct Hin as [<-|[<-|[]]]; discriminate Hf.
Qed.

(** The other way the order can matter: two pairs of modules with one
    key.  The edge that is created first keeps its two modules and
    collects the callees of both pairs. *)
Lemma key_clash_makes_order_matter :
  exists g1 g2,
    buildGraph exampleKeyClash
      [lit "proj/a->b.c"; lit "proj/c.c"; lit "proj/a.c"; lit "proj/b->c.c"] = Ok g1 /\
    buildGraph exampleKeyClash
      [lit "proj/a.c"; lit "proj/b->c.c"; lit "proj/a->b.c"; lit "proj/c.c"] = Ok g2 /\
    Map_values (edges g1) = [mkEdge (lit "a->b") (lit "c") [lit "g"; lit "k"]] /\
    Map_values (edges g2) = [mkEdge (lit "a") (lit "b->c") [lit "k"; lit "g"]] /\
    singleOwner exampleKeyClash
      [lit "proj/a->b.c"; lit "proj/c.c"; lit "proj/a.c"; lit "proj/b->c.c"] = true /\
    keysDistinct
      (map moduleOf
         [lit "proj/a->b.c"; lit "proj/c.c"; lit "proj/a.c"; lit "proj/b->c.c"])
      = false.
Proof.
  eexists. eexists. split; [vm_compute; reflexivity|].
  split; [vm_compute; reflexivity|]. repeat split.
Qed.

(** ** The character classes *)

Lemma identStart_word (c : char) : isIdentStart c = true -> isWordChar c = true.
Proof.
  intros H. destruct (isWordChar c) eqn:E; [reflexivity|exfalso].
  unfold isIdentStart, isWordChar in *.
  apply orb_false_iff in E as [E E3]. apply orb_false_iff in E as [E E2].
  apply orb_false_iff in E as [E0 E1].
  rewrite E0, E1, E3 in H. discriminate.
Qed.

Lemma white_not_word (c : char) : isWhiteSpace c = true -> isWordChar c = false.
Proof.
  intros H. destruct (isWordChar c) eqn:E; [exfalso|reflexivity]. class_arith.
Qed.

Lemma identStart_not_white (c : char) :
  isIdentStart c = true -> isWhiteSpace c = false.
Proof.
  intros H. destruct (isWhiteSpace c) eqn:E; [exfalso|reflexivity].
  apply white_not_word in E. apply identStart_word in H. congruence.
Qed.

Lemma identifier_word (nm : str) :
  isIdentifier nm = true -> forallb isWordChar nm = true /\ nm <> [].
Proof.
  destruct nm as [|c cs]; simpl; [discriminate|]. intros H.
  apply andb_true_iff in H as [H1 H2]. rewrite (identStart_word _ H1), H2.
  split; [reflexivity|discriminate].
Qed.

Lemma run_unique (p : char -> bool) (w w' r r' : str) :
  forallb p w = true -> forallb p w' = true ->
  stopsAt p r -> stopsAt p r' ->
  w ++ r = w' ++ r' -> w = w' /\ r = r'.
Proof.
  revert w'; induction w as [|c w IH]; intros [|c' w']; simpl.
  - auto.
  - intros _ Hw' Hr _ E. subst r. simpl in Hr.
    apply andb_true_iff in Hw' as [H _]. congruence.
  - intros Hw _ _ Hr' E. subst r'. simpl in Hr'.
    apply andb_true_iff in Hw as [H _]. congruence.
  - intros Hw Hw' Hr Hr' [= <- E].
    apply andb_true_iff in Hw as [_ Hw]. apply andb_true_iff in Hw' as [_ Hw'].
    destruct (IH w' Hw Hw' Hr Hr' E) as [-> ->]. auto.
Qed.

(** Keys are distinct whenever no module name holds a [>]. *)
Lemma keysDistinct_without_gt (mods : list str) :
  (forall m, In m mods -> ~ In 62%N m) -> keysDistinct mods = true.
Proof.
  intros H. unfold keysDistinct.
  apply forallb_forall. intros a Ha. apply forallb_forall. intros b Hb.
  apply forallb_forall. intros a' Ha'. apply forallb_forall. intros b' Hb'.
  destruct (str_eqb (edgeKey a b) (edgeKey a' b')) eqn:E; [|reflexivity].
  apply str_eqb_eq in E. simpl. unfold edgeKey in E.
  assert (Hrun : forall m, In m mods ->
            forallb (fun c => negb (c =? 62)%N) (m ++ [45%N]) = true).
  { intros m Hm. apply forallb_forall. intros c Hc.
    apply in_app_or in Hc as [Hc|[<-|[]]]; [|reflexivity].
    apply negb_true_iff, N.eqb_neq. intros ->. now apply (H m Hm). }
  change (a ++ lit "->" ++ b) with (a ++ [45%N] ++ 62%N :: b) in E.
  change (a' ++ lit "->" ++ b') with (a' ++ [45%N] ++ 62%N :: b') in E.
  rewrite !app_assoc in E.
  apply run_unique with (p := fun c => negb (c =? 62)%N) in E as [E1 E2];
    auto; try reflexivity.
  apply app_inj_tail in E1 as [-> _]. injection E2 as ->.
  now rewrite !str_eqb_refl.
Qed.

(** ** Reading [Matches] backwards *)

Lemma Matches_Seq_inv (r1 r2 : regex) (st st2 : MatchState) :
  Matches (Seq r1 r2) st st2 ->
  exists st1, Matches r1 st st1 /\ Matches r2 st1 st2.
Proof. inversion 1; subst. eauto. Qed.

Lemma Matches_Disj_inv (r1 r2 : regex) (st st' : MatchState) :
  Matches (Disj r1 r2) st st' -> Matches r1 st st' \/ Matches r2 st st'.
Proof. inversion 1; subst; auto. Qed.

Lemma Matches_Chars_inv (s : str) (st st' : MatchState) :
  Matches (Chars s) st st' ->
  exists rest, input st = s ++ rest /\ st' = moved st s rest.
Proof. inversion 1; subst. eauto. Qed.

Lemma Matches_Class_inv (p : char -> bool) (st st' : MatchState) :
  Matches (Class p) st st' ->
  exists c rest, input st = c :: rest /\ p c = true /\ st' = moved st [c] rest.
Proof. inversion 1; subst. eauto. Qed.

Lemma Matches_Repeat_inv (g : bool) (p : char -> bool) (st st' : MatchState) :
  Matches (Repeat g p) st st' ->
  exists w rest,
    input st = w ++ rest /\ forallb p w = true /\ st' = moved st w rest.
Proof. inversion 1; subst. eauto. Qed.

Lemma Matches_Opt_inv (r : regex) (st st' : MatchState) :
  Matches (Opt r) st st' -> Matches r st st' \/ st' = st.
Proof. inversion 1; subst; [now left|right; apply moved_nil]. Qed.

Lemma Matches_Group_inv (n : nat) (r : regex) (st st' : MatchState) :
  Matches (Group n r) st st' ->
  exists st1, Matches r st st1 /\ st' = closeGroup n st st1.
Proof. inversion 1; subst. eauto. Qed.

Lemma Matches_WordBoundary_inv (st st' : MatchState) :
  Matches WordBoundary st st' -> atWordBoundary st = true /\ st' = st.
Proof. inversion 1; subst. split; [assumption|apply moved_nil]. Qed.

Lemma Matches_keyword (st st' : MatchState) :
  Matches keywordRegex st st' <->
  exists kw rest, In kw keywords /\ input st = kw ++ rest /\ st' = moved st kw rest.
Proof.
  unfold keywordRegex, keywords. split.
  - intros H.
    repeat (apply Matches_Disj_inv in H as [H|H]);
      apply Matches_Chars_inv in H as (rest & Hin & ->);
      eexists; exists rest; (split; [|split; [exact Hin|reflexivity]]);
      simpl; auto 10.
  - intros (kw & rest & Hkw & Hin & ->). simpl in Hkw.
    repeat (destruct Hkw as [<-|Hkw];
            [repeat first [ apply M_DisjL; now apply M_Chars
                          | now apply M_Chars
                          | apply M_DisjR ]|]).
    destruct Hkw.
Qed.

Lemma Matches_ident (st st' : MatchState) :
  Matches identRegex st st' <->
  exists nm rest,
    isIdentifier nm = true /\ input st = nm ++ rest /\ st' = afterIdent st nm rest.
Proof.
  unfold identRegex. split.
  - intros H. apply Matches_Group_inv in H as (st1 & H & ->).
    apply Matches_Seq_inv in H as (st0 & H0 & H).
    apply Matches_Class_inv in H0 as (c & r0 & Hin & Pc & ->).
    apply Matches_Repeat_inv in H as (w & rest & Hw & Pw & ->). simpl in Hw.
    exists (c :: w), rest. simpl. rewrite Pc, Pw. split; [reflexivity|].
    split; [now rewrite Hin, Hw|].
    unfold closeGroup, afterIdent, moved. simpl.
    rewrite Hin, Hw, lastOr_cons.
    replace (endIndex st + 1 + length w - endIndex st) with (S (length w)) by lia.
    simpl. rewrite firstn_app, firstn_all, Nat.sub_diag. simpl.
    rewrite app_nil_r. f_equal; try lia; now rewrite ?lastOr_cons.
  - intros (nm & rest & Hid & Hin & ->).
    destruct nm as [|c w]; [discriminate|]. simpl in Hid.
    apply andb_true_iff in Hid as [Pc Pw].
    assert (M : Matches (Class isIdentStart ;; Repeat true isWordChar)%re st
                  (moved (moved st [c] (w ++ rest)) w rest)).
    { apply M_Seq with (st1 := moved st [c] (w ++ rest)).
      - apply M_Class; [exact Hin|exact Pc].
      - apply M_Repeat; [reflexivity|exact Pw]. }
    apply M_Group with (n := 1) in M.
    replace (afterIdent st (c :: w) rest)
      with (closeGroup 1 st (moved (moved st [c] (w ++ rest)) w rest));
      [exact M|].
    unfold closeGroup, afterIdent, moved. simpl.
    rewrite Hin, lastOr_cons.
    replace (endIndex st + 1 + length w - endIndex st) with (S (length w)) by lia.
    simpl. rewrite firstn_app, firstn_all, Nat.sub_diag. simpl.
    rewrite app_nil_r. f_equal; try lia; now rewrite ?lastOr_cons.
Qed.

(** What a match of [funcRegex] has read, and what its group holds. *)
Lemma Matches_funcRegex_inv (st st' : MatchState) :
  Matches funcRegex st st' ->
  exists kw ws1 nm ws2 params rest,
    In kw keywords /\
    ws1 <> [] /\ forallb isWhiteSpace ws1 = true /\
    isIdentifier nm = true /\
    forallb isWhiteSpace ws2 = true /\
    forallb notRParen params = true /\
    input st = kw ++ ws1 ++ nm ++ ws2 ++ lit "(" ++ params ++ lit ")" ++ rest /\
    getCapture 1 (captures st') = Some nm /\
    endIndex st + length kw + length ws1 + length nm + length ws2 + 1
      <= endIndex st'.
Proof.
  unfold funcRegex. intros H.
  apply Matches_Seq_inv in H as (s1 & K & H).
  apply Matches_keyword in K as (kw & r0 & Hkw & E0 & ->).
  apply Matches_Seq_inv in H as (s2 & C & H).
  apply Matches_Class_inv in C as (c & r1 & E1 & Pc & ->).
  apply Matches_Seq_inv in H as (s3 & R & H).
  apply Matches_Repeat_inv in R as (w & r2 & E2 & Pw & ->).
  apply Matches_Seq_inv in H as (s4 & I & H).
  apply Matches_ident in I as (nm & r3 & Pn & E3 & ->).
  apply Matches_Seq_inv in H as (s5 & R & H).
  apply Matches_Repeat_inv in R as (ws2 & r4 & E4 & Pw2 & ->).
  apply Matches_Seq_inv in H as (s6 & P & H).
  apply Matches_Chars_inv in P as (r5 & E5 & ->).
  apply Matches_Seq_inv in H as (s7 & R & H).
  apply Matches_Repeat_inv in R as (params & r6 & E6 & Pp & ->).
  apply Matches_Seq_inv in H as (s8 & P & H).
  apply Matches_Chars_inv in P as (r7 & E7 & ->).
  apply Matches_Seq_inv in H as (s9 & R & H).
  apply Matches_Repeat_inv in R as (ws3 & r8 & E8 & Pw3 & ->).
  cbn [input moved afterIdent] in *.
  exists kw, (c :: w), nm, ws2, params, r7.
  split; [exact Hkw|]. split; [discriminate|].
  split; [simpl; now rewrite Pc, Pw|].
  split; [exact Pn|]. split; [exact Pw2|]. split; [exact Pp|]. split.
  - rewrite E0, E1, E2, E3, E4, E5, E6, E7. reflexivity.
  - apply Matches_Opt_inv in H as [H| ->].
    + apply Matches_Chars_inv in H as (r9 & _ & ->).
      split; [reflexivity|]. simpl. lia.
    + split; [reflexivity|]. simpl. lia.
Qed.

(** Where the text reads as a signature, [funcRegex] has a match. *)
Lemma funcRegex_Matches (st : MatchState) (kw ws1 nm ws2 params rest : str) :
  In kw keywords ->
  ws1 <> [] -> forallb isWhiteSpace ws1 = true ->
  isIdentifier nm = true ->
  forallb isWhiteSpace ws2 = true ->
  forallb notRParen params = true ->
  input st = kw ++ ws1 ++ nm ++ ws2 ++ lit "(" ++ params ++ lit ")" ++ rest ->
  exists st', Matches funcRegex st st'.
Proof.
  intros Hkw Hne Pws1 Pn Pws2 Pp E.
  destruct ws1 as [|c w]; [congruence|]. simpl in Pws1.
  apply andb_true_iff in Pws1 as [Pc Pw].
  eexists. unfold funcRegex.
  eapply M_Seq.
  { apply Matches_keyword. exists kw. eexists. split; [exact Hkw|].
    split; [exact E|reflexivity]. }
  eapply M_Seq.
  { apply M_Class with (c := c); [reflexivity|exact Pc]. }
  eapply M_Seq.
  { apply M_Repeat with (w := w); [reflexivity|exact Pw]. }
  eapply M_Seq.
  { apply Matches_ident. exists nm. eexists. split; [exact Pn|].
    split; reflexivity. }
  eapply M_Seq.
  { apply M_Repeat with (w := ws2); [reflexivity|exact Pws2]. }
  eapply M_Seq.
  { apply M_Chars with (s := lit "("). reflexivity. }
  eapply M_Seq.
  { apply M_Repeat with (w := params); [reflexivity|exact Pp]. }
  eapply M_Seq.
  { apply M_Chars with (s := lit ")"). reflexivity. }
  eapply M_Seq.
  { apply M_Repeat with (w := []); reflexivity. }
  apply M_OptNone.
Qed.

(** The same for [callRegex]. *)
Lemma Matches_callRegex_inv (st st' : MatchState) :
  Matches callRegex st st' ->
  exists nm ws rest,
    atWordBoundary st = true /\
    isIdentifier nm = true /\
    forallb isWhiteSpace ws = true /\
    input st = nm ++ ws ++ lit "(" ++ rest /\
    getCapture 1 (captures st') = Some nm /\
    endIndex st' = endIndex st + length nm + length ws + 1.
Proof.
  unfold callRegex. intros H.
  apply Matches_Seq_inv in H as (s1 & B & H).
  apply Matches_WordBoundary_inv in B as (Hb & ->).
  apply Matches_Seq_inv in H as (s2 & I & H).
  apply Matches_ident in I as (nm & r1 & Pn & E1 & ->).
  apply Matches_Seq_inv in H as (s3 & R & H).
  apply Matches_Repeat_inv in R as (ws & r2 & E2 & Pw & ->).
  apply Matches_Chars_inv in H as (r3 & E3 & ->).
  cbn [input moved afterIdent] in *.
  exists nm, ws, r3. split; [exact Hb|]. split; [exact Pn|].
  split; [exact Pw|]. split; [rewrite E1, E2, E3; reflexivity|].
  split; [reflexivity|simpl; lia].
Qed.

Lemma callRegex_Matches (st : MatchState) (nm ws rest : str) :
  atWordBoundary st = true ->
  isIdentifier nm = true ->
  forallb isWhiteSpace ws = true ->
  input st = nm ++ ws ++ lit "(" ++ rest ->
  exists st', Matches callRegex st st'.
Proof.
  intros Hb Pn Pw E. eexists. unfold callRegex.
  eapply M_Seq.
  { apply M_WordBoundary. exact Hb. }
  rewrite moved_nil.
  eapply M_Seq.
  { apply Matches_ident. exists nm. eexists. split; [exact Pn|].
    split; [exact E|reflexivity]. }
  eapply M_Seq.
  { apply M_Repeat with (w := ws); [reflexivity|exact Pw]. }
  apply M_Chars with (s := lit "("). reflexivity.
Qed.

(** ** The definition scanner *)

Lemma skipn_app_eq {A : Type} (l a b : list A) (i : nat) :
  skipn i l = a ++ b -> skipn (i + length a) l = b.
Proof.
  intros H. rewrite Nat.add_comm, <- skipn_skipn, H.
  rewrite skipn_app, skipn_all, Nat.sub_diag. reflexivity.
Qed.

Lemma keyword_prefix (kw kw' x x' : str) :
  In kw keywords -> In kw' keywords ->
  kw ++ x = kw' ++ x' -> kw = kw' /\ x = x'.
Proof.
  unfold keywords. simpl. intros H H' E.
  repeat (destruct H as [<-|H]; [|]); try contradiction;
    repeat (destruct H' as [<-|H']; [|]); try contradiction;
    first [ apply app_inv_head in E; now split
          | exfalso; cbn in E; discriminate E ].
Qed.

Lemma stops_after_ident (ws rest : str) :
  forallb isWhiteSpace ws = true -> stopsAt isWordChar (ws ++ lit "(" ++ rest).
Proof.
  destruct ws as [|c ws]; simpl; [reflexivity|]. intros H.
  apply andb_true_iff in H as [H _]. now apply white_not_word.
Qed.

Lemma stops_before_ident (nm rest : str) :
  isIdentifier nm = true -> stopsAt isWhiteSpace (nm ++ rest).
Proof.
  destruct nm as [|c nm]; simpl; [discriminate|]. intros H.
  apply andb_true_iff in H as [H _]. now apply identStart_not_white.
Qed.

(** At one offset the text reads as the signature of one name only. *)
Lemma signature_name_unique (text : str) (i : nat) (nm nm' : str) :
  signatureAt text i nm -> signatureAt text i nm' -> nm = nm'.
Proof.
  intros (kw & ws1 & ws2 & params & rest & Hkw & _ & Pw1 & Pn & Pw2 & _ & _ & E)
         (kw' & ws1' & ws2' & params' & rest' & Hkw' & _ & Pw1' & Pn' & Pw2' & _ & _ & E').
  rewrite E in E'.
  apply keyword_prefix in E' as [_ E']; [|assumption|assumption].
  apply run_unique with (p := isWhiteSpace) in E' as [_ E'];
    try assumption; try now apply stops_before_ident.
  apply run_unique with (p := isWordChar) in E' as [E' _];
    try (now apply identifier_word); try now apply stops_after_ident.
  exact E'.
Qed.

Lemma scan_funcRegex_signature (text : str) (m : MatchResult) :
  In m (execAll funcRegex text) -> signatureAt text (index m) (group1 m).
Proof.
  intros Hin.
  pose proof (Scan_matches (execAll_Scan funcRegex text minLen_funcRegex)) as H.
  rewrite Forall_forall in H.
  destruct (H m Hin) as (_ & Hlen & Hend & st' & _ & _ & Hg & M).
  apply Matches_funcRegex_inv in M
    as (kw & ws1 & nm & ws2 & params & rest & Hkw & Hne & P1 & Pn & P2 & Pp & E & Hc & _).
  unfold group1. rewrite Hg, Hc.
  exists kw, ws1, ws2, params, rest. repeat split; try assumption. lia.
Qed.

Lemma signature_matchAt (text : str) (i : nat) (nm : str) :
  signatureAt text i nm -> matchAt funcRegex text i <> None.
Proof.
  intros (kw & ws1 & ws2 & params & rest & Hkw & Hne & P1 & Pn & P2 & Pp & Hi & E).
  destruct (funcRegex_Matches (stateAt text i) kw ws1 nm ws2 params rest)
    as [st' M]; try assumption.
  unfold matchAt. apply (matcher_complete M). discriminate.
Qed.

(** C5, as the code has it.  The keyword is required.  Every recorded
    definition stands where the text reads: one of the keywords [void],
    [int], [float], [double], [char], [bool], [static], white space,
    the recorded name, optional white space, a parameter list; it has
    the module of the file and the offset of the keyword.  And every
    place where the text reads so is recorded with that name, unless
    it lies inside a match that started earlier. *)
Theorem definitions_need_keyword (fileName text : str) :
  (forall d, In d (scanDefs fileName text) ->
     signatureAt text (start d) (name d) /\ module d = fileName) /\
  (forall i nm, signatureAt text i nm ->
     (exists d, In d (scanDefs fileName text) /\ start d = i /\ name d = nm) \/
     (exists m, In m (execAll funcRegex text) /\ index m < i < lastIndex m)).
Proof.
  split.
  - intros d Hd. unfold scanDefs in Hd. apply in_map_iff in Hd as (m & <- & Hm).
    simpl. split; [now apply scan_funcRegex_signature|reflexivity].
  - intros i nm Hsig.
    pose proof Hsig as (_ & _ & _ & _ & _ & _ & _ & _ & _ & _ & _ & Hi & _).
    destruct (Scan_covers (execAll_Scan funcRegex text minLen_funcRegex) i)
      as (m & Hm & Hlo & Hhi); [lia|now apply signature_matchAt with (nm := nm)|].
    destruct (Nat.eq_dec (index m) i) as [E|E].
    + left. exists (mkFunctionDef (group1 m) fileName (index m)).
      split; [unfold scanDefs; apply in_map_iff; now exists m|].
      split; [exact E|]. simpl.
      apply (signature_name_unique text i); [|exact Hsig].
      rewrite <- E. now apply scan_funcRegex_signature.
    + right. exists m. split; [exact Hm|lia].
Qed.

(** C5 fails as stated: in [long count(){}] the name [count] is
    followed by a parameter list and is preceded by no keyword.  With
    the keyword optional the pattern matches at offset 5 and captures
    [count]; the scanner records nothing. *)
Lemma signature_without_keyword_not_recorded :
  map (fun m => (index m, group1 m))
      (execAll funcRegexOptionalKeyword exampleNoKeyword)
    = [(5, lit "count")] /\
  scanDefs (lit "m") exampleNoKeyword = [].
Proof. split; vm_compute; reflexivity. Qed.

(** The keyword is a run of letters wherever it stands: in
    [Point origin(){}] the letters [int] at offset 2 are followed by
    white space, a name and a parameter list, and [origin] is recorded
    at offset 2. *)
Lemma keyword_letters_inside_a_word :
  scanDefs (lit "m") exampleKeywordTail
    = [mkFunctionDef (lit "origin") (lit "m") 2] /\
  signatureAt exampleKeywordTail 2 (lit "origin").
Proof.
  split; [vm_compute; reflexivity|].
  assert (H : exists m, In m (execAll funcRegex exampleKeywordTail) /\
                        index m = 2 /\ group1 m = lit "origin").
  { vm_compute. eexists. split; [left; reflexivity|]. split; reflexivity. }
  destruct H as (m & Hm & Hi & Hg). rewrite <- Hi, <- Hg.
  now apply scan_funcRegex_signature.
Qed.

(** On the text of [a.c] in Example 1: the signature of [main] at offset 0. *)
Lemma definitions_need_keyword_witness :
  (signatureAt (lit "int main(){ bar(); }") 0 (lit "main") /\
   module (mkFunctionDef (lit "main") (lit "a") 0) = lit "a") /\
  ((exists d, In d (scanDefs (lit "a") (lit "int main(){ bar(); }")) /\
              start d = 0 /\ name d = lit "main") \/
   (exists m, In m (execAll funcRegex (lit "int main(){ bar(); }")) /\
              index m < 0 < lastIndex m)).
Proof.
  pose proof (definitions_need_keyword (lit "a") (lit "int main(){ bar(); }"))
    as [H1 H2].
  assert (S : signatureAt (lit "int main(){ bar(); }") 0 (lit "main") /\
              module (mkFunctionDef (lit "main") (lit "a") 0) = lit "a").
  { apply (H1 (mkFunctionDef (lit "main") (lit "a") 0)).
    vm_compute. left. reflexivity. }
  split; [exact S|]. apply H2. exact (proj1 S).
Defined.

(** ** Every signature is also a call site *)

Lemma forallb_nth_error {A : Type} [p : A -> bool] [w : list A] [j : nat] [x : A] :
  forallb p w = true -> nth_error w j = Some x -> p x = true.
Proof.
  intros H E. rewrite forallb_forall in H. apply H.
  now apply nth_error_In with (n := j).
Qed.

Lemma nth_error_skipn_at {A : Type} (l : list A) (i : nat) :
  nth_error l i = hd_error (skipn i l).
Proof.
  rewrite <- (Nat.add_0_r i) at 1. rewrite <- nth_error_skipn.
  now destruct (skipn i l).
Qed.

(** A name after a white-space character, before optional white space
    and a parenthesis, reads as a call. *)
Lemma call_after_space (text : str) (i : nat) (pre : str) (c : char)
  (nm ws rest : str) :
  skipn i text = pre ++ c :: nm ++ ws ++ lit "(" ++ rest ->
  isWhiteSpace c = true ->
  isIdentifier nm = true ->
  forallb isWhiteSpace ws = true ->
  callAt text (i + length pre + 1) nm.
Proof.
  intros E Pc Pn Pw.
  set (tail := nm ++ ws ++ lit "(" ++ rest) in *.
  assert (E2 : skipn i text = (pre ++ [c]) ++ tail)
    by (rewrite E, <- app_assoc; reflexivity).
  apply skipn_app_eq in E2. rewrite length_app, Nat.add_assoc in E2.
  simpl in E2. set (p := i + length pre + 1) in *.
  assert (Hc : charBefore text p = Some c).
  { unfold p. replace (i + length pre + 1) with (S (i + length pre)) by lia.
    simpl. rewrite <- nth_error_skipn, E.
    rewrite nth_error_app2, Nat.sub_diag by lia. reflexivity. }
  destruct nm as [|c0 nm0] eqn:En; [discriminate|].
  pose proof Pn as Pn'. simpl in Pn'. apply andb_true_iff in Pn' as [P0 _].
  exists ws, rest.
  split; [|split; [exact Pn|split; [exact Pw|split]]].
  - unfold atWordBoundary, stateAt. simpl. rewrite Hc, E2. simpl.
    now rewrite (white_not_word _ Pc), (identStart_word _ P0).
  - destruct (Nat.le_gt_cases p (length text)) as [H|H]; [exact H|].
    rewrite skipn_all2 in E2 by lia. discriminate.
  - rewrite E2. reflexivity.
Qed.

(** The call scanner reports every call site: no earlier match can
    run over a name that starts a word. *)
Lemma call_reported (text : str) (p : nat) (nm : str) :
  callAt text p nm ->
  exists m, In m (execAll callRegex text) /\ index m = p /\ group1 m = nm.
Proof.
  intros (ws & rest & Hb & Pn & Pw & Hp & E).
  assert (Hmatch : matchAt callRegex text p <> None).
  { destruct (callRegex_Matches (stateAt text p) nm ws rest) as [st' M];
      try assumption.
    unfold matchAt. apply (matcher_complete M). discriminate. }
  pose proof (execAll_Scan callRegex text minLen_callRegex) as Hscan.
  destruct (Scan_covers Hscan p) as (m & Hm & Hlo & Hhi); [lia|exact Hmatch|].
  pose proof (Scan_matches Hscan) as Hall. rewrite Forall_forall in Hall.
  destruct (Hall m Hm) as (_ & _ & Hend & st' & _ & Hl & Hg & M).
  apply Matches_callRegex_inv in M
    as (nm' & ws' & rest' & Hb' & Pn' & Pw' & E' & Hc & Hlen).
  cbn [input stateAt endIndex] in E', Hlen.
  destruct (identifier_word _ Pn) as [Wn _].
  destruct (identifier_word _ Pn') as [Wn' _].
  destruct nm as [|c0 nm0] eqn:En; [discriminate|].
  assert (W0 : isWordChar c0 = true)
    by (simpl in Wn; now apply andb_true_iff in Wn as [? _]).
  assert (Hat : nth_error text p = Some c0)
    by (rewrite nth_error_skipn_at, E; reflexivity).
  assert (Hidx : index m = p).
  { destruct (Nat.eq_dec (index m) p) as [Heq|Hne]; [exact Heq|exfalso].
    assert (Hq : nth_error (nm' ++ ws' ++ lit "(" ++ rest') (p - index m)
                 = Some c0).
    { rewrite <- E', nth_error_skipn.
      now replace (index m + (p - index m)) with p by lia. }
    destruct (Nat.lt_ge_cases (p - index m) (length nm')) as [Hin|Hout].
    - assert (Hprev : exists x, nth_error nm' (p - index m - 1) = Some x).
      { destruct (nth_error nm' (p - index m - 1)) eqn:N; [eauto|].
        apply nth_error_None in N. lia. }
      destruct Hprev as [x Hx].
      assert (Wx : isWordChar x = true) by exact (forallb_nth_error Wn' Hx).
      assert (Hbefore : charBefore text p = Some x).
      { destruct p as [|p']; [lia|]. simpl.
        replace p' with (index m + (S p' - index m - 1)) by lia.
        rewrite <- nth_error_skipn, E', nth_error_app1 by lia. exact Hx. }
      unfold atWordBoundary, stateAt in Hb. simpl in Hb.
      rewrite Hbefore, E in Hb. simpl in Hb. rewrite Wx, W0 in Hb. discriminate.
    - rewrite nth_error_app2 in Hq by exact Hout.
      destruct (Nat.lt_ge_cases (p - index m - length nm') (length ws'))
        as [Hin2|Hout2].
      + rewrite nth_error_app1 in Hq by exact Hin2.
        apply (forallb_nth_error Pw'), white_not_word in Hq. congruence.
      + rewrite nth_error_app2 in Hq by exact Hout2.
        replace (p - index m - length nm' - length ws') with 0 in Hq by lia.
        simpl in Hq. injection Hq as <-. discriminate W0. }
  exists m. split; [exact Hm|]. split; [exact Hidx|].
  unfold group1. rewrite Hg, Hc. rewrite Hidx in E'. rewrite E in E'.
  apply run_unique with (p := isWordChar) in E' as [E' _];
    try assumption; try now apply stops_after_ident.
  congruence.
Qed.

(** ** What [stripComments] leaves in place *)

Lemma firstn_split {A : Type} (l : list A) (a b : nat) :
  a <= b -> firstn b l = firstn a l ++ firstn (b - a) (skipn a l).
Proof.
  intros H. rewrite <- (firstn_skipn a (firstn b l)) at 1.
  rewrite firstn_firstn, Nat.min_l by exact H.
  now rewrite skipn_firstn_comm.
Qed.

(** A stretch of the text that touches none of the removed matches is
    still there, in one piece, after they are removed. *)
Lemma removeMatches_keeps (text : str) (ms : list MatchResult) :
  forall pos i j,
    StronglySorted precedes ms ->
    Forall (fun m => pos <= index m /\ index m <= lastIndex m /\
                     lastIndex m <= length text) ms ->
    pos <= i -> i <= j -> j <= length text ->
    (forall m, In m ms -> lastIndex m <= i \/ j <= index m) ->
    exists i' rest,
      skipn i' (removeMatches ms text pos)
        = firstn (j - i) (skipn i text) ++ rest.
Proof.
  induction ms as [|m ms IH]; intros pos i j Hs Hall Hpos Hij Hj Hout; simpl.
  - exists (i - pos), (skipn j text).
    rewrite skipn_skipn. replace (i - pos + pos) with i by lia.
    rewrite <- (firstn_skipn (j - i) (skipn i text)) at 1.
    rewrite skipn_skipn. now replace (j - i + i) with j by lia.
  - inversion Hs as [|? ? Hs' Hprec]; subst.
    inversion Hall as [|? ? (Hm1 & Hm2 & Hm3) Hall']; subst.
    assert (Hlen : length (firstn (index m - pos) (skipn pos text))
                   = index m - pos).
    { rewrite length_firstn, length_skipn. lia. }
    destruct (Hout m (or_introl eq_refl)) as [Hbefore|Hafter].
    + destruct (IH (lastIndex m) i j) as (i' & rest & E); try assumption.
      * rewrite Forall_forall in Hprec, Hall' |- *. intros m' Hm'.
        specialize (Hprec m' Hm'). specialize (Hall' m' Hm').
        unfold precedes in Hprec. lia.
      * intros m' Hm'. apply Hout. now right.
      * exists (index m - pos + i'), rest.
        rewrite skipn_app, Hlen, skipn_all2 by lia.
        replace (index m - pos + i' - (index m - pos)) with i' by lia.
        exact E.
    + exists (i - pos), (firstn (index m - j) (skipn j text) ++
                         removeMatches ms text (lastIndex m)).
      rewrite skipn_app, Hlen, skipn_firstn_comm, skipn_skipn.
      replace (i - pos - (index m - pos)) with 0 by lia.
      replace (i - pos + pos) with i by lia.
      replace (index m - pos - (i - pos)) with (index m - i) by lia.
      rewrite (firstn_split (skipn i text) (j - i) (index m - i)) by lia.
      rewrite skipn_skipn, <- app_assoc. simpl.
      replace (j - i + i) with j by lia.
      now replace (index m - i - (j - i)) with (index m - j) by lia.
Qed.

Lemma stripComments_keeps (text : str) (i j : nat) :
  i <= j -> j <= length text ->
  outsideComments text i j = true ->
  exists i' rest,
    skipn i' (stripComments text) = firstn (j - i) (skipn i text) ++ rest.
Proof.
  intros Hij Hj Hout. unfold stripComments, replaceAllEmpty.
  pose proof (execAll_Scan commentRegex text minLen_commentRegex) as Hscan.
  apply removeMatches_keeps; try assumption; try lia.
  - exact (Scan_sorted Hscan).
  - eapply Forall_impl; [|exact (Scan_matches Hscan)]. simpl.
    intros m (H1 & H2 & H3 & _). lia.
  - intros m Hm. unfold outsideComments in Hout.
    rewrite forallb_forall in Hout. specialize (Hout m Hm).
    apply orb_true_iff in Hout as [H|H]; apply Nat.leb_le in H; auto.
Qed.

(** A recorded signature that touches no comment is read again, in
    the second pass, as a call of its own name. *)
Lemma signature_is_call (text : str) (m : MatchResult) :
  In m (execAll funcRegex text) ->
  outsideComments text (index m) (lastIndex m) = true ->
  In (group1 m) (map fst (scanCalls text)).
Proof.
  intros Hm Hout.
  pose proof (Scan_matches (execAll_Scan funcRegex text minLen_funcRegex)) as H.
  rewrite Forall_forall in H.
  destruct (H m Hm) as (_ & Hlen & Hend & st' & _ & Hl & Hg & M).
  apply Matches_funcRegex_inv in M
    as (kw & ws1 & nm & ws2 & params & rest & Hkw & Hne & P1 & Pn & P2 & Pp
        & E & Hc & Hlast).
  cbn [input stateAt endIndex] in E, Hlast.
  assert (Hname : group1 m = nm) by (unfold group1; now rewrite Hg, Hc).
  destruct (exists_last Hne) as (ws0 & c & ->).
  rewrite forallb_app in P1. apply andb_true_iff in P1 as [_ Pc].
  simpl in Pc. rewrite andb_true_r in Pc.
  rewrite length_app in Hlast. simpl in Hlast.
  destruct (stripComments_keeps text (index m) (lastIndex m))
    as (i' & rest' & Ekeep); [lia|exact Hend|exact Hout|].
  set (sig := (kw ++ ws0) ++ c :: nm ++ ws2 ++ lit "(") in *.
  assert (Esig : skipn (index m) text = sig ++ params ++ lit ")" ++ rest).
  { unfold sig. rewrite E, <- !app_assoc. simpl. rewrite <- !app_assoc.
    reflexivity. }
  assert (Lsig : length sig <= lastIndex m - index m).
  { unfold sig. rewrite !length_app. simpl. rewrite !length_app. simpl. lia. }
  rewrite Esig, (firstn_split _ (length sig) (lastIndex m - index m)) in Ekeep
    by exact Lsig.
  rewrite firstn_app, firstn_all, Nat.sub_diag in Ekeep. simpl in Ekeep.
  rewrite app_nil_r, <- app_assoc in Ekeep. unfold sig in Ekeep.
  rewrite <- !app_assoc in Ekeep. simpl in Ekeep.
  rewrite <- !app_assoc in Ekeep.
  assert (Hcall : callAt (stripComments text) (i' + length (kw ++ ws0) + 1) nm).
  { eapply call_after_space with (c := c) (ws := ws2); try assumption.
    rewrite Ekeep, <- !app_assoc. reflexivity. }
  apply call_reported in Hcall as (m' & Hm' & _ & Hname').
  unfold scanCalls. rewrite map_map. simpl.
  apply in_map_iff. exists m'. split; [congruence|exact Hm'].
Qed.

(** A text without comments is outside comments everywhere. *)
Lemma outsideComments_plain (text : str) (i j : nat) :
  execAll commentRegex text = [] -> outsideComments text i j = true.
Proof. intros H. unfold outsideComments. now rewrite H. Qed.

(** C10, as the code has it.  A signature that the first pass records
    and that touches no comment is read again, in the second pass, as
    a call of its own name.  When the symbol table holds that name
    under another module (a file processed later defines it too), and
    different pairs of modules have different keys, the graph has an
    edge from the file's module to that module listing the name --
    whether or not the file calls the function anywhere. *)
Theorem own_signature_makes_edge (readFileSync : str -> str)
  (files : list str) (f : str) (m : MatchResult) (d' : FunctionDef) (g : Graph) :
  In f files ->
  In m (execAll funcRegex (readFileSync f)) ->
  outsideComments (readFileSync f) (index m) (lastIndex m) = true ->
  Map_get (fst (collectDefinitions readFileSync files)) (group1 m) = Some d' ->
  module d' <> moduleOf f ->
  keysDistinct (map moduleOf files) = true ->
  buildGraph readFileSync files = Ok g ->
  In (mkFunctionDef (group1 m) (moduleOf f) (index m))
     (definitionsOf readFileSync f) /\
  In (group1 m) (map fst (scanCalls (readFileSync f))) /\
  exists e, In e (Map_values (edges g)) /\
            fromModule e = moduleOf f /\ toModule e = module d' /\
            In (group1 m) (functions e).
Proof.
  intros Hf Hm Hout Hget Hne Hkeys. rewrite buildGraph_eq. intros [= <-].
  rewrite defs_eq in Hget. simpl.
  split; [unfold definitionsOf, scanDefs; apply in_map_iff; now exists m|].
  assert (Hcall : In (group1 m) (map fst (scanCalls (readFileSync f))))
    by now apply signature_is_call.
  split; [exact Hcall|].
  set (defs := fold_left setDef (allDefs readFileSync files) []) in *.
  assert (Hev : In (moduleOf f, module d', group1 m)
                   (allEvents readFileSync defs files)).
  { apply allEvents_In. exists f, d'. repeat split; auto. }
  fold (edgesOf (allEvents readFileSync defs files)).
  destruct (edgesOf_complete _ _ _ _ Hev) as (e & G & Hfn).
  destruct (edgesOf_sound _ _ _ G) as (Hk & [fn0 H0] & _).
  destruct (events_injective readFileSync files Hkeys _ _ _ _ _ _ Hev H0 Hk)
    as [Ef Et].
  exists e. split; [now apply Map_get_values with (k := edgeKey (moduleOf f) (module d'))|].
  auto.
Qed.

(** On two files that both define [init] and call nothing: the edge from
    [a] to [b] lists [init]. *)
Lemma own_signature_makes_edge_witness :
  In (mkFunctionDef (group1 (mkResult 13 25 [(1, lit "init")]))
        (moduleOf (lit "proj/a.c")) (index (mkResult 13 25 [(1, lit "init")])))
     (definitionsOf exampleTwoInits (lit "proj/a.c")) /\
  In (group1 (mkResult 13 25 [(1, lit "init")]))
     (map fst (scanCalls (exampleTwoInits (lit "proj/a.c")))) /\
  exists e, In e (Map_values
                    (edges (mkGraph [lit "b"]
                              [(lit "a->b",
                                mkEdge (lit "a") (lit "b") [lit "init"])]))) /\
            fromModule e = moduleOf (lit "proj/a.c") /\
            toModule e = module (mkFunctionDef (lit "init") (lit "b") 0) /\
            In (group1 (mkResult 13 25 [(1, lit "init")])) (functions e).
Proof.
  apply (own_signature_makes_edge exampleTwoInits
           [lit "proj/a.c"; lit "proj/b.c"] (lit "proj/a.c")
           (mkResult 13 25 [(1, lit "init")])
           (mkFunctionDef (lit "init") (lit "b") 0)
           (mkGraph [lit "b"]
              [(lit "a->b", mkEdge (lit "a") (lit "b") [lit "init"])])).
  - simpl. left. reflexivity.
  - vm_compute. left. reflexivity.
  - vm_compute. reflexivity.
  - vm_compute. reflexivity.
  - vm_compute. discriminate.
  - vm_compute. reflexivity.
  - vm_compute. reflexivity.
Defined.

(** C10 fails as stated: in [a.c] the signature of [init] stands
    inside a comment.  The first pass records it; the second pass, on
    the text without comments, reads no call of [init].  The symbol
    table holds [init] under [b], and the graph has no edge. *)
Lemma commented_signature_makes_no_edge :
  In (lit "init") (definedNames exampleCommented (lit "proj/a.c")) /\
  ~ In (lit "init") (map fst (scanCalls (exampleCommented (lit "proj/a.c")))) /\
  (exists d',
     Map_get (fst (collectDefinitions exampleCommented
                     [lit "proj/a.c"; lit "proj/b.c"])) (lit "init") = Some d' /\
     module d' = lit "b") /\
  buildGraph exampleCommented [lit "proj/a.c"; lit "proj/b.c"]
    = Ok (mkGraph [lit "b"; lit "a"] []).
Proof.
  split; [vm_compute; left; reflexivity|]. split.
  - vm_compute. intros [H|[]]. discriminate H.
  - split; [|vm_compute; reflexivity].
    eexists. split; [vm_compute; reflexivity|reflexivity].
Qed.

(* ================================================================= *)
(** * Part III: further properties of the code *)
(* ================================================================= *)

(** ** The two passes on texts that were read *)

(** Lines 72 and 92 read [fileFuncMap.get(file)!] and
    [edgesMap.get(key)!]: neither is ever [undefined].  On texts that
    were read, the two passes end without an exception. *)
Lemma buildGraph_returns (readFileSync : str -> str) (files : list str) :
  exists g, buildGraph readFileSync files = Ok g.
Proof. rewrite buildGraph_eq. eexists. reflexivity. Qed.

(** ** The edges of the graph *)

Lemma edgesOf_functions_NoDup (evs : list CallEvent) (k : str) (e : Edge) :
  Map_get (edgesOf evs) k = Some e ->
  NoDup (functions e) /\ functions e <> [].
Proof.
  revert e; induction evs as [|[[a b] fn] evs IH] using rev_ind; intros e.
  - discriminate.
  - rewrite edgesOf_snoc, addEdge_get.
    destruct (str_eqb k (edgeKey a b)); [|apply IH].
    destruct (Map_get (edgesOf evs) k) as [e0|].
    + destruct (IH e0 eq_refl) as [Hnd Hne].
      destruct (includes (functions e0) fn) eqn:I; intros [= <-]; [auto|].
      simpl. apply includes_not_In in I. split.
      * apply NoDup_app; [exact Hnd|constructor; [tauto|constructor]|].
        intros x Hx [<-|[]]. contradiction.
      * intros E. apply app_eq_nil in E as [_ E]. discriminate.
    + intros [= <-]. simpl. split; [|discriminate].
      constructor; [tauto|constructor].
Qed.

(** X2.  On every edge of the graph the list of functions is not empty
    and names no function twice, and the edge stands in [edgesMap]
    under the key made of its two modules. *)
Theorem edge_lists_distinct_functions (readFileSync : str -> str)
  (files : list str) (g : Graph) (k : str) (e : Edge) :
  buildGraph readFileSync files = Ok g ->
  In (k, e) (edges g) ->
  NoDup (functions e) /\ functions e <> [] /\
  k = edgeKey (fromModule e) (toModule e).
Proof.
  rewrite buildGraph_eq. intros [= <-]. simpl. intros Hin.
  apply Map_In_get in Hin; [|apply edgesOf_NoDup].
  destruct (edgesOf_functions_NoDup _ _ _ Hin) as [H1 H2].
  destruct (edgesOf_sound _ _ _ Hin) as (Hk & _). auto.
Qed.

(** On Example 1: the edge from [a] to [b]. *)
Lemma edge_lists_distinct_functions_witness :
  NoDup (functions (mkEdge (lit "a") (lit "b") [lit "bar"])) /\
  functions (mkEdge (lit "a") (lit "b") [lit "bar"]) <> [] /\
  lit "a->b" = edgeKey (fromModule (mkEdge (lit "a") (lit "b") [lit "bar"]))
                       (toModule (mkEdge (lit "a") (lit "b") [lit "bar"])).
Proof.
  apply (edge_lists_distinct_functions example1
           [lit "proj/a.c"; lit "proj/b.c"]
           (mkGraph [lit "a"; lit "b"]
              [(lit "a->b", mkEdge (lit "a") (lit "b") [lit "bar"])])).
  - vm_compute. reflexivity.
  - simpl. left. reflexivity.
Defined.

(** X3.  The graph has at most one edge for an ordered pair of
    modules: two edges with the same source and the same target are
    one and the same (whatever the module names are). *)
Theorem one_edge_per_module_pair (readFileSync : str -> str)
  (files : list str) (g : Graph) (e1 e2 : Edge) :
  buildGraph readFileSync files = Ok g ->
  In e1 (Map_values (edges g)) -> In e2 (Map_values (edges g)) ->
  fromModule e1 = fromModule e2 -> toModule e1 = toModule e2 ->
  e1 = e2.
Proof.
  rewrite buildGraph_eq. intros [= <-]. simpl. unfold Map_values.
  intros H1 H2 Hf Ht.
  apply in_map_iff in H1 as ([k1 x1] & E1 & H1).
  apply in_map_iff in H2 as ([k2 x2] & E2 & H2). simpl in E1, E2. subst x1 x2.
  apply Map_In_get in H1; [|apply edgesOf_NoDup].
  apply Map_In_get in H2; [|apply edgesOf_NoDup].
  destruct (edgesOf_sound _ _ _ H1) as (K1 & _).
  destruct (edgesOf_sound _ _ _ H2) as (K2 & _).
  rewrite Hf, Ht, <- K2 in K1. subst k1. congruence.
Qed.

(** On Example 1: the only edge, twice. *)
Lemma one_edge_per_module_pair_witness :
  mkEdge (lit "a") (lit "b") [lit "bar"] = mkEdge (lit "a") (lit "b") [lit "bar"].
Proof.
  apply (one_edge_per_module_pair example1 [lit "proj/a.c"; lit "proj/b.c"]
           (mkGraph [lit "a"; lit "b"]
              [(lit "a->b", mkEdge (lit "a") (lit "b") [lit "bar"])])).
  - vm_compute. reflexivity.
  - simpl. left. reflexivity.
  - simpl. left. reflexivity.
  - reflexivity.
  - reflexivity.
Defined.

(** X4.  When different pairs of modules have different keys, every
    function listed on an edge is called (as the call scanner reads
    calls) in a scanned file of the edge's source module, and the
    symbol table holds it with a definition of the edge's target
    module.  A name that no file defines is on no edge. *)
Theorem edge_functions_are_resolved_calls (readFileSync : str -> str)
  (files : list str) (g : Graph) (e : Edge) (fn : str) :
  keysDistinct (map moduleOf files) = true ->
  buildGraph readFileSync files = Ok g ->
  In e (Map_values (edges g)) ->
  In fn (functions e) ->
  (exists f, In f files /\ moduleOf f = fromModule e /\
             In fn (map fst (scanCalls (readFileSync f)))) /\
  (exists d, Map_get (fst (collectDefinitions readFileSync files)) fn = Some d /\
             name d = fn /\ module d = toModule e).
Proof.
  intros Hkeys. rewrite buildGraph_eq, defs_eq. intros [= <-]. simpl.
  unfold Map_values. intros He Hfn.
  apply in_map_iff in He as ([k x] & E & He). simpl in E. subst x.
  apply Map_In_get in He; [|apply edgesOf_NoDup].
  apply (edgesOf_functions _ k e (events_injective readFileSync files Hkeys) He)
    in Hfn.
  apply allEvents_In in Hfn as (f & d & Hf & Ha & Hc & G & Hb & _).
  split.
  - exists f. auto.
  - exists d. split; [exact G|]. split; [|exact Hb].
    now apply setDef_fold_get in G.
Qed.

(** On Example 1: [bar] on the edge from [a] to [b]. *)
Lemma edge_functions_are_resolved_calls_witness :
  (exists f, In f [lit "proj/a.c"; lit "proj/b.c"] /\
             moduleOf f = fromModule (mkEdge (lit "a") (lit "b") [lit "bar"]) /\
             In (lit "bar") (map fst (scanCalls (example1 f)))) /\
  (exists d, Map_get (fst (collectDefinitions example1
                             [lit "proj/a.c"; lit "proj/b.c"])) (lit "bar")
               = Some d /\
             name d = lit "bar" /\
             module d = toModule (mkEdge (lit "a") (lit "b") [lit "bar"])).
Proof.
  apply (edge_functions_are_resolved_calls example1
           [lit "proj/a.c"; lit "proj/b.c"]
           (mkGraph [lit "a"; lit "b"]
              [(lit "a->b", mkEdge (lit "a") (lit "b") [lit "bar"])])).
  - vm_compute. reflexivity.
  - vm_compute. reflexivity.
  - simpl. left. reflexivity.
  - simpl. left. reflexivity.
Defined.

(** X5.  Files of one and the same module give a graph without edges:
    calls between a header and the source file of the same base name,
    or between equally named files of different directories, are
    never shown. *)
Theorem one_module_no_edges (readFileSync : str -> str) (files : list str)
  (moduleName : str) (g : Graph) :
  (forall f, In f files -> moduleOf f = moduleName) ->
  buildGraph readFileSync files = Ok g ->
  edges g = [].
Proof.
  intros Hone. rewrite buildGraph_eq. intros [= <-]. simpl.
  destruct (fold_left addEdge _ []) as [|[k e] rest] eqn:E; [reflexivity|].
  exfalso. fold (edgesOf (allEvents readFileSync
                   (fold_left setDef (allDefs readFileSync files) []) files)) in E.
  assert (G : Map_get (edgesOf (allEvents readFileSync
                (fold_left setDef (allDefs readFileSync files) []) files)) k
              = Some e).
  { apply Map_In_get; [apply edgesOf_NoDup|]. rewrite E. now left. }
  apply edgesOf_sound in G as (_ & [fn Hev] & _).
  pose proof Hev as Hev'. apply events_modules in Hev' as [Ha Hb].
  apply allEvents_In in Hev as (_ & _ & _ & _ & _ & _ & _ & Hne).
  apply in_map_iff in Ha as (fa & Ea & Hfa).
  apply in_map_iff in Hb as (fb & Eb & Hfb).
  rewrite (Hone fa Hfa) in Ea. rewrite (Hone fb Hfb) in Eb. congruence.
Qed.

(** On a header and a source file of one base name. *)
Lemma one_module_no_edges_witness :
  edges (mkGraph [lit "a"] []) = [].
Proof.
  apply (one_module_no_edges exampleHeader [lit "proj/a.h"; lit "proj/a.c"]
           (lit "a") (mkGraph [lit "a"] [])).
  - intros f [<-|[<-|[]]]; vm_compute; reflexivity.
  - vm_compute. reflexivity.
Defined.

(** X6.  The caller chosen for a call site always has the module of
    the file being scanned, whatever the offset of the call: where a
    definition starts has no part in the graph. *)
Theorem caller_module_is_file_module (readFileSync : str -> str)
  (files : list str) (file : str) (o : nat) :
  In file files ->
  exists funcsInFile,
    Map_get (snd (collectDefinitions readFileSync files)) file
      = Some funcsInFile /\
    module (callerOf funcsInFile (moduleOf file) o) = moduleOf file.
Proof.
  intros Hin. exists (definitionsOf readFileSync file).
  split; [now apply fileFuncMap_get|].
  apply callerOf_module, scanDefs_module.
Qed.

(** On Example 1: a call at offset 12 of [a.c]. *)
Lemma caller_module_is_file_module_witness :
  exists funcsInFile,
    Map_get (snd (collectDefinitions example1 [lit "proj/a.c"; lit "proj/b.c"]))
            (lit "proj/a.c") = Some funcsInFile /\
    module (callerOf funcsInFile (moduleOf (lit "proj/a.c")) 12)
      = moduleOf (lit "proj/a.c").
Proof.
  apply (caller_module_is_file_module example1 [lit "proj/a.c"; lit "proj/b.c"]
           (lit "proj/a.c") 12).
  simpl. left. reflexivity.
Defined.

(** ** The symbol table and the modules *)

Lemma Map_keys_get {V : Type} (m : JsMap V) (k : str) :
  In k (map fst m) <-> exists v, Map_get m k = Some v.
Proof.
  destruct (Map_get m k) as [v|] eqn:E.
  - split; [eauto|]. intros _. apply Map_get_In in E.
    change k with (fst (k, v)). now apply in_map.
  - split; [|intros [v H]; discriminate].
    intros H. now apply Map_get_None in E.
Qed.

Lemma Map_values_get {V : Type} (m : JsMap V) (v : V) :
  NoDup (map fst m) ->
  In v (Map_values m) <-> exists k, Map_get m k = Some v.
Proof.
  intros Hnd. unfold Map_values. rewrite in_map_iff. split.
  - intros ([k v0] & E & Hin). simpl in E. subst v0.
    exists k. now apply Map_In_get.
  - intros [k G]. exists (k, v). split; [reflexivity|now apply Map_get_In].
Qed.

(** X7.  After the first pass the symbol table has exactly the names
    that some file defines, each once, and under a name it holds a
    definition of that very name taken from one of the files. *)
Theorem symbol_table_holds_defined_names (readFileSync : str -> str)
  (files : list str) (n : str) :
  NoDup (map fst (fst (collectDefinitions readFileSync files))) /\
  (In n (map fst (fst (collectDefinitions readFileSync files))) <->
   exists f, In f files /\ In n (definedNames readFileSync f)) /\
  (forall d, Map_get (fst (collectDefinitions readFileSync files)) n = Some d ->
     name d = n /\
     exists f, In f files /\ In d (definitionsOf readFileSync f)).
Proof.
  rewrite defs_eq. split; [apply setDef_fold_NoDup; constructor|]. split.
  - rewrite Map_keys_get, <- allDefs_names. split.
    + intros [d G]. apply setDef_fold_get in G as [Hd <-]. now apply in_map.
    + apply setDef_fold_defined.
  - intros d G. apply setDef_fold_get in G as [Hd Hn].
    split; [exact Hn|]. now apply allDefs_In.
Qed.

Lemma Set_add_NoDup (s : list str) (x : str) : NoDup s -> NoDup (Set_add s x).
Proof.
  intros H. unfold Set_add. destruct (includes s x) eqn:E; [exact H|].
  apply includes_not_In in E.
  apply NoDup_app; [exact H|constructor; [tauto|constructor]|].
  intros y Hy [<-|[]]. contradiction.
Qed.

Lemma newSet_NoDup (l : list str) : NoDup (newSet l).
Proof.
  unfold newSet. assert (H : NoDup (@nil str)) by constructor.
  revert H. generalize (@nil str). induction l as [|x l IH]; intros acc H; simpl.
  - exact H.
  - apply IH. now apply Set_add_NoDup.
Qed.

(** X8.  The modules of the graph are listed once each, and they are
    the modules of the definitions the symbol table holds: a module is
    listed exactly when some file of that module defines a name whose
    entry in the table is (still) a definition of that module. *)
Theorem modules_are_symbol_owners (readFileSync : str -> str)
  (files : list str) (g : Graph) (m : str) :
  buildGraph readFileSync files = Ok g ->
  NoDup (modules g) /\
  (In m (modules g) <->
   exists f d, In f files /\ moduleOf f = m /\
               In d (definitionsOf readFileSync f) /\
               Map_get (fst (collectDefinitions readFileSync files)) (name d)
                 = Some d).
Proof.
  rewrite buildGraph_eq, defs_eq. intros [= <-]. simpl.
  split; [apply newSet_NoDup|].
  unfold moduleNames. rewrite newSet_In, in_map_iff. split.
  - intros (d & <- & Hd).
    apply Map_values_get in Hd; [|apply setDef_fold_NoDup; constructor].
    destruct Hd as [k G]. pose proof G as G'.
    apply setDef_fold_get in G' as [Hin Hn]. subst k.
    apply allDefs_In in Hin as (f & Hf & Hd).
    exists f, d. split; [exact Hf|]. split; [|split; [exact Hd|exact G]].
    symmetry. now apply definitionsOf_module with (readFileSync := readFileSync).
  - intros (f & d & Hf & <- & Hd & G). exists d.
    split; [now apply definitionsOf_module with (readFileSync := readFileSync)|].
    now apply Map_get_values with (k := name d).
Qed.

(** On Example 1: the module [b]. *)
Lemma modules_are_symbol_owners_witness :
  NoDup (modules (mkGraph [lit "a"; lit "b"]
                    [(lit "a->b", mkEdge (lit "a") (lit "b") [lit "bar"])])) /\
  (In (lit "b") (modules (mkGraph [lit "a"; lit "b"]
                    [(lit "a->b", mkEdge (lit "a") (lit "b") [lit "bar"])])) <->
   exists f d, In f [lit "proj/a.c"; lit "proj/b.c"] /\ moduleOf f = lit "b" /\
               In d (definitionsOf example1 f) /\
               Map_get (fst (collectDefinitions example1
                               [lit "proj/a.c"; lit "proj/b.c"])) (name d)
                 = Some d).
Proof.
  apply (modules_are_symbol_owners example1 [lit "proj/a.c"; lit "proj/b.c"]
           (mkGraph [lit "a"; lit "b"]
              [(lit "a->b", mkEdge (lit "a") (lit "b") [lit "bar"])]) (lit "b")).
  vm_compute. reflexivity.
Defined.

(** ** The two scanners *)

(** X9.  The call scanner reports exactly the places where, in the
    text without comments, an identifier starts a word and is followed
    by optional white space and an opening parenthesis -- keywords
    such as [if] and [while] included; it misses none of them and
    reports nothing else. *)
Theorem call_sites_exactly (text nm : str) (p : nat) :
  In (nm, p) (scanCalls text) <-> callAt (stripComments text) p nm.
Proof.
  split.
  - unfold scanCalls. intros H. apply in_map_iff in H as (m & [= <- <-] & Hm).
    pose proof (Scan_matches
                  (execAll_Scan callRegex (stripComments text) minLen_callRegex))
      as Hall.
    rewrite Forall_forall in Hall.
    destruct (Hall m Hm) as (_ & Hlen & Hend & st' & _ & _ & Hg & M).
    apply Matches_callRegex_inv in M
      as (nm' & ws & rest & Hb & Pn & Pw & E & Hc & _).
    assert (Hname : group1 m = nm') by (unfold group1; now rewrite Hg, Hc).
    rewrite Hname. exists ws, rest. repeat split; try assumption. lia.
  - intros H. apply call_reported in H as (m & Hm & <- & <-).
    unfold scanCalls. apply in_map_iff. now exists m.
Qed.

Lemma Scan_count [r : regex] [text : str] [from : nat] [ms : list MatchResult] :
  Scan r text from ms -> from <= length text ->
  from + minLen r * length ms <= length text.
Proof.
  induction 1 as [from Hnone|from m ms st' Hb Hnone Hm Hl Hg Hscan IH];
    intros Hfrom; simpl; [lia|].
  destruct (matchAt_bounds r text (index m) st' (proj2 Hb) Hm) as (H1 & H2 & _).
  rewrite <- Hl in H1, H2. specialize (IH H2). lia.
Qed.

(** X10.  The definitions recorded for a file come in strictly
    increasing order of their start offsets; each starts at least 7
    code units before the end of the text (the shortest signature, as
    [int f()], has 7), each is named by an identifier, and a text of
    [n] code units gives at most [n / 7] of them. *)
Theorem definitions_in_text_order (fileName text : str) :
  StronglySorted startsBefore (scanDefs fileName text) /\
  (forall d, In d (scanDefs fileName text) ->
     start d + 7 <= length text /\ isIdentifier (name d) = true) /\
  7 * length (scanDefs fileName text) <= length text.
Proof.
  split; [apply scanDefs_sorted|]. split.
  - intros d Hd. unfold scanDefs in Hd. apply in_map_iff in Hd as (m & <- & Hm).
    simpl. split.
    + pose proof (Scan_matches (execAll_Scan funcRegex text minLen_funcRegex))
        as Hall.
      rewrite Forall_forall in Hall.
      destruct (Hall m Hm) as (_ & Hlen & Hend & _).
      change (minLen funcRegex) with 7 in Hlen. lia.
    + apply scan_funcRegex_signature in Hm
        as (_ & _ & _ & _ & _ & _ & _ & _ & Pn & _). exact Pn.
  - unfold scanDefs. rewrite length_map.
    pose proof (Scan_count (execAll_Scan funcRegex text minLen_funcRegex)
                  (Nat.le_0_l _)) as H.
    change (minLen funcRegex) with 7 in H. lia.
Qed.

(** ** Stripping comments *)

Lemma removeMatches_length (text : str) (ms : list MatchResult) :
  forall pos,
    StronglySorted precedes ms ->
    Forall (fun m => pos <= index m /\ index m <= lastIndex m /\
                     lastIndex m <= length text) ms ->
    length (removeMatches ms text pos) <= length text - pos.
Proof.
  induction ms as [|m ms IH]; intros pos Hs Hall; simpl.
  - rewrite length_skipn. lia.
  - inversion Hs as [|? ? Hs' Hprec]; subst.
    inversion Hall as [|? ? (H0 & H1 & H2) Hall']; subst.
    rewrite length_app, length_firstn, length_skipn.
    assert (IH' : length (removeMatches ms text (lastIndex m))
                  <= length text - lastIndex m).
    { apply IH; [exact Hs'|].
      rewrite Forall_forall in Hprec, Hall' |- *. intros m' Hm'.
      specialize (Hprec m' Hm'). specialize (Hall' m' Hm').
      unfold precedes in Hprec. lia. }
    lia.
Qed.

Lemma In_skipn {A : Type} (l : list A) (n : nat) (x : A) :
  In x (skipn n l) -> In x l.
Proof.
  intros H. rewrite <- (firstn_skipn n l). apply in_or_app. now right.
Qed.

Lemma Matches_commentRegex_slash (st st' : MatchState) :
  Matches commentRegex st st' -> exists rest, input st = slash :: rest.
Proof.
  unfold commentRegex. intros H.
  apply Matches_Disj_inv in H as [H|H];
    apply Matches_Seq_inv in H as (s1 & H & _);
    apply Matches_Chars_inv in H as (rest & E & _);
    rewrite E; eexists; reflexivity.
Qed.

(** X11.  Stripping the comments never makes a text longer, and a
    text without a slash is left exactly as it is. *)
Theorem strip_shortens_or_keeps (text : str) :
  length (stripComments text) <= length text /\
  (~ In slash text -> stripComments text = text).
Proof.
  unfold stripComments, replaceAllEmpty.
  pose proof (Scan_matches (execAll_Scan commentRegex text minLen_commentRegex))
    as Hall.
  split.
  - pose proof (removeMatches_length text (execAll commentRegex text) 0) as H.
    rewrite Nat.sub_0_r in H. apply H.
    + exact (Scan_sorted
               (execAll_Scan commentRegex text minLen_commentRegex)).
    + eapply Forall_impl; [|exact Hall]. simpl.
      intros m (H0 & H1 & H2 & _). lia.
  - intros Hno. destruct (execAll commentRegex text) as [|m ms]; [reflexivity|].
    exfalso. inversion Hall as [|? ? (_ & _ & _ & st' & _ & _ & _ & M) _]; subst.
    apply Matches_commentRegex_slash in M as [rest E]. simpl in E.
    apply Hno. apply In_skipn with (n := index m). rewrite E. now left.
Qed.

(** X12.  A stretch of the text that touches no comment is still
    there, in one piece, in the text without comments: stripping
    removes the comments and moves the rest together, nothing else. *)
Theorem strip_keeps_text_outside_comments (text : str) (i j : nat) :
  i <= j -> j <= length text ->
  outsideComments text i j = true ->
  exists i' rest,
    skipn i' (stripComments text) = firstn (j - i) (skipn i text) ++ rest.
Proof. apply stripComments_keeps. Qed.

(** On [exampleComment]: the stretch [void f(){ g(); }] from 50 to 66
    stands at 12 after stripping. *)
Lemma strip_keeps_text_outside_comments_witness :
  exists i' rest,
    skipn i' (stripComments exampleComment)
      = firstn (66 - 50) (skipn 50 exampleComment) ++ rest.
Proof.
  apply (strip_keeps_text_outside_comments exampleComment 50 66).
  - lia.
  - vm_compute. lia.
  - vm_compute. reflexivity.
Defined.

(** ** The walk *)

Lemma walkEntries_Ok_readable (walk : Node -> str -> Result (list str))
  (dir : str) (exts : list str) (items : list (str * Node)) :
  Forall (fun entry => forall path files,
            walk (snd entry) path = Ok files -> readable (snd entry) = true)
         items ->
  forall results files,
    walkEntries walk dir exts items results = Ok files ->
    forallb (fun entry => readable (snd entry)) items = true.
Proof.
  induction 1 as [|[file child] rest Hchild _ IH]; simpl; [reflexivity|].
  intros results files. simpl in Hchild.
  destruct child as [|entries| |]; simpl.
  - destruct (includes exts (extname file)); apply IH.
  - destruct (walk (Dir entries) (join dir file)) as [sub|e] eqn:W;
      simpl; [|discriminate].
    intros H. change (readable (Dir entries) && forallb (fun entry => readable (snd entry)) rest = true).
    rewrite (Hchild _ _ W). simpl. now apply IH in H.
  - destruct (walk NoAccessDir (join dir file)) as [sub|e] eqn:W;
      simpl; [|discriminate].
    apply Hchild in W. discriminate.
  - discriminate.
Qed.

Lemma walkFiles_Ok_readable (exts : list str) (node : Node) :
  forall dir files, walkFiles node dir exts = Ok files -> readable node = true.
Proof.
  induction node as [| | |entries IH] using Node_nested_ind; intros dir files;
    simpl; try discriminate.
  intros H. apply walkEntries_Ok_readable in H; [exact H|].
  eapply Forall_impl; [|exact IH]. simpl. intros entry Hentry path fs.
  apply Hentry.
Qed.

(** X13.  The walk returns a list of files exactly when the folder can
    be listed and everything under it can be listed and stat'ed; in
    every other case it throws. *)
Theorem walk_returns_iff_readable (node : Node) (dir : str) (exts : list str) :
  (exists files, walkFiles node dir exts = Ok files) <->
  (readable node = true /\ isDirectory node = true).
Proof.
  split.
  - intros [files H]. split; [now apply walkFiles_Ok_readable in H|].
    destruct node; simpl in *; try reflexivity; discriminate.
  - intros [Hr Hd]. now apply walkFiles_returns.
Qed.

Lemma walkEntries_lists (walk : Node -> str -> Result (list str))
  (dir : str) (exts : list str) (items : list (str * Node)) :
  Forall (fun entry => forall path files,
            walk (snd entry) path = Ok files ->
            forall p, In p files <-> Listed exts (snd entry) path p) items ->
  forall results files,
    walkEntries walk dir exts items results = Ok files ->
    forall p,
      In p files <->
      In p results \/
      exists file child,
        In (file, child) items /\
        ((child = File /\ includes exts (extname file) = true /\
          p = join dir file) \/
         Listed exts child (join dir file) p).
Proof.
  induction 1 as [|[file child] rest Hchild _ IH]; simpl.
  - intros results files [= <-] p. split; [auto|].
    intros [Hx|(? & ? & [] & _)]. exact Hx.
  - intros results files Hwalk p. simpl in Hchild.
    assert (Hrest : forall results',
      walkEntries walk dir exts rest results' = Ok files ->
      (In p results' <->
       In p results \/
       (child = File /\ includes exts (extname file) = true /\
        p = join dir file) \/
       Listed exts child (join dir file) p) ->
      In p files <->
      In p results \/
      exists file0 child0,
        ((file, child) = (file0, child0) \/ In (file0, child0) rest) /\
        ((child0 = File /\ includes exts (extname file0) = true /\
          p = join dir file0) \/
         Listed exts child0 (join dir file0) p)).
    { intros results' Hw Hres. rewrite (IH _ _ Hw p), Hres. split.
      - intros [[Hx|Hx]|(f0 & c0 & Hin & Hx)].
        + now left.
        + right. exists file, child. split; [now left|exact Hx].
        + right. exists f0, c0. split; [now right|exact Hx].
      - intros [Hx|(f0 & c0 & [[= <- <-]|Hin] & Hx)].
        + left. now left.
        + left. now right.
        + right. exists f0, c0. split; assumption. }
    destruct child as [|entries| |].
    + destruct (includes exts (extname file)) eqn:I.
      * apply (Hrest _ Hwalk). rewrite in_app_iff. simpl. split.
        -- intros [Hx|[<-|[]]]; [now left|]. right. left. auto.
        -- intros [Hx|[(_ & _ & ->)|Hx]]; [now left|right; now left|inversion Hx].
      * apply (Hrest _ Hwalk). split; [now left|].
        intros [Hx|[(_ & Hi & _)|Hx]]; [exact Hx|congruence|inversion Hx].
    + destruct (walk (Dir entries) (join dir file)) as [sub|e] eqn:W;
        simpl in Hwalk; [|discriminate].
      apply (Hrest _ Hwalk). rewrite in_app_iff, (Hchild _ _ W p). split.
      * intros [Hx|Hx]; [now left|right; now right].
      * intros [Hx|[(Hc & _)|Hx]]; [now left|discriminate|now right].
    + destruct (walk NoAccessDir (join dir file)) as [sub|e] eqn:W;
        simpl in Hwalk; [|discriminate].
      apply (Hrest _ Hwalk). rewrite in_app_iff, (Hchild _ _ W p). split.
      * intros [Hx|Hx]; [now left|right; now right].
      * intros [Hx|[(Hc & _)|Hx]]; [now left|discriminate|now right].
    + discriminate.
Qed.

Lemma walkFiles_lists (exts : list str) (node : Node) :
  forall dir files,
    walkFiles node dir exts = Ok files ->
    forall p, In p files <-> Listed exts node dir p.
Proof.
  induction node as [| | |entries IH] using Node_nested_ind; intros dir files;
    simpl; try discriminate.
  intros H p.
  rewrite (walkEntries_lists _ dir exts entries
             (Forall_impl _ (fun entry Hentry path fs => Hentry path fs) IH)
             _ _ H p).
  split.
  - intros [[]|(file & child & Hin & [(-> & Hi & ->)|Hl])].
    + now apply Listed_here.
    + now apply Listed_below with (file := file) (child := child).
  - intros Hl. right. inversion Hl; subst.
    + exists file, File. split; [assumption|]. left. auto.
    + exists file, child. split; [assumption|]. now right.
Qed.

(** X14.  When the walk returns, it returns exactly the regular files
    under the folder, at any depth, whose names have one of the given
    extensions: each of them, and nothing else. *)
Theorem walk_lists_exactly (node : Node) (dir : str) (exts files : list str)
  (p : str) :
  walkFiles node dir exts = Ok files ->
  (In p files <-> Listed exts node dir p).
Proof. intros H. now apply walkFiles_lists. Qed.

(** On a folder with a subdirectory: [lib/b.h] is found. *)
Lemma walk_lists_exactly_witness :
  In (lit "proj/lib/b.h") [lit "proj/a.c"; lit "proj/lib/b.h"] <->
  Listed sourceExts exampleNested (lit "proj") (lit "proj/lib/b.h").
Proof.
  apply (walk_lists_exactly exampleNested (lit "proj") sourceExts
           [lit "proj/a.c"; lit "proj/lib/b.h"] (lit "proj/lib/b.h")).
  vm_compute. reflexivity.
Defined.

(** ** Module names *)

Lemma takeWhile_app_stop (p : char -> bool) (w : str) (c : char) (r : str) :
  forallb p w = true -> p c = false -> takeWhile p (w ++ c :: r) = w.
Proof.
  intros Hw Hc. induction w as [|x w IH]; simpl.
  - now rewrite Hc.
  - simpl in Hw. apply andb_true_iff in Hw as [Hx Hw]. rewrite Hx.
    now rewrite IH.
Qed.

Lemma dropWhile_none (p : char -> bool) (w r : str) :
  w <> [] -> forallb (fun c => negb (p c)) w = true ->
  dropWhile p (w ++ r) = w ++ r.
Proof.
  destruct w as [|x w]; [congruence|]. intros _ Hw. simpl in *.
  apply andb_true_iff in Hw as [Hx _]. apply negb_true_iff in Hx.
  now rewrite Hx.
Qed.

Lemma forallb_not_In (x : char) (w : str) :
  ~ In x w -> forallb (fun c => negb (c =? x)%N) w = true.
Proof.
  intros H. apply forallb_forall. intros c Hc.
  apply negb_true_iff, N.eqb_neq. intros ->. contradiction.
Qed.

Lemma forallb_rev {A : Type} (p : A -> bool) (w : list A) :
  forallb p w = true -> forallb p (rev w) = true.
Proof.
  rewrite !forallb_forall. intros H x Hx. apply H. now apply in_rev.
Qed.

Lemma lastComponent_join (dir file : str) :
  file <> [] -> ~ In slash file -> lastComponent (join dir file) = file.
Proof.
  intros Hne Hno. unfold lastComponent, join.
  rewrite rev_app_distr. simpl. rewrite <- app_assoc. simpl.
  assert (Hrev : forallb (fun c => negb (c =? slash)%N) (rev file) = true)
    by now apply forallb_rev, forallb_not_In.
  rewrite dropWhile_none; [|intros E; apply Hne; now rewrite <- (rev_involutive file), E|exact Hrev].
  rewrite takeWhile_app_stop; [apply rev_involutive|exact Hrev|].
  now rewrite N.eqb_refl.
Qed.

(** X16.  The module of a file is its name without directory and
    without extension: for a name [stem.ext] (no slash in it, no dot
    in [ext]) in any directory, [moduleOf] gives [stem].  So files of
    one name in different directories, and [x.c] beside [x.h], are one
    module. *)
Theorem module_is_stem (dir stem ext : str) :
  stem <> [] -> ext <> [] ->
  ~ In slash stem -> ~ In slash ext -> ~ In dot ext ->
  extname (join dir (stem ++ dot :: ext)) = dot :: ext /\
  moduleOf (join dir (stem ++ dot :: ext)) = stem.
Proof.
  intros Hs He Hss Hse Hde.
  set (file := stem ++ dot :: ext).
  assert (Hfile : lastComponent (join dir file) = file).
  { apply lastComponent_join.
    - unfold file. destruct stem; discriminate.
    - unfold file. rewrite in_app_iff. simpl. intros [H|[H|H]]; try contradiction.
      discriminate H. }
  assert (Hlen : length file = length stem + S (length ext))
    by (unfold file; rewrite length_app; reflexivity).
  assert (Hs' : 0 < length stem) by (destruct stem; [congruence|simpl; lia]).
  assert (He' : 0 < length ext) by (destruct ext; [congruence|simpl; lia]).
  assert (Hext : extname (join dir file) = dot :: ext).
  { assert (Htw : rev (takeWhile (fun c => negb (c =? dot)%N) (rev file)) = ext).
    { unfold file. rewrite rev_app_distr. simpl. rewrite <- app_assoc. simpl.
      rewrite takeWhile_app_stop;
        [|now apply forallb_rev, forallb_not_In|now rewrite N.eqb_refl].
      apply rev_involutive. }
    unfold extname. rewrite Hfile. cbv zeta. rewrite Htw.
    replace (length file <=? length ext) with false
      by (symmetry; apply Nat.leb_gt; lia).
    replace (length file =? S (length ext)) with false
      by (symmetry; apply Nat.eqb_neq; lia).
    replace (str_eqb file [dot; dot]) with false; [reflexivity|].
    symmetry. apply str_eqb_neq. intros E.
    apply (f_equal (@length char)) in E. simpl in E. lia. }
  split; [exact Hext|].
  unfold moduleOf. rewrite Hext. unfold basename. rewrite Hfile.
  replace (str_eqb (dot :: ext) (join dir file)) with false.
  2:{ symmetry. apply str_eqb_neq. intros E.
      apply (f_equal (@length char)) in E. unfold join in E.
      rewrite !length_app in E. simpl in E. lia. }
  replace (endsWith file (dot :: ext)) with true.
  2:{ symmetry. unfold endsWith. apply andb_true_iff. split.
      - apply Nat.leb_le. simpl. lia.
      - replace (length file - length (dot :: ext)) with (length stem)
          by (simpl; lia).
        unfold file. rewrite skipn_app, skipn_all, Nat.sub_diag. simpl.
        apply str_eqb_refl. }
  replace (str_eqb file (dot :: ext)) with false.
  2:{ symmetry. apply str_eqb_neq. intros E.
      apply (f_equal (@length char)) in E. simpl in E. lia. }
  simpl. replace (length file - S (length ext)) with (length stem) by lia.
  unfold file. rewrite firstn_app, firstn_all, Nat.sub_diag. simpl.
  apply app_nil_r.
Qed.

(** On [lib/util.cpp]. *)
Lemma module_is_stem_witness :
  extname (join (lit "proj/lib") (lit "util" ++ dot :: lit "cpp"))
    = dot :: lit "cpp" /\
  moduleOf (join (lit "proj/lib") (lit "util" ++ dot :: lit "cpp")) = lit "util".
Proof.
  apply (module_is_stem (lit "proj/lib") (lit "util") (lit "cpp")).
  - discriminate.
  - discriminate.
  - vm_compute. intuition discriminate.
  - vm_compute. intuition discriminate.
  - vm_compute. intuition discriminate.
Defined.

Lemma takeWhile_all (p : char -> bool) (w : str) :
  forallb p w = true -> takeWhile p w = w.
Proof.
  induction w as [|x w IH]; simpl; [reflexivity|].
  intros H. apply andb_true_iff in H as [Hx Hw]. rewrite Hx. now rewrite IH.
Qed.

Lemma lastComponent_plain (file : str) :
  file <> [] -> ~ In slash file -> lastComponent file = file.
Proof.
  intros Hne Hno. unfold lastComponent.
  assert (Hrev : forallb (fun c => negb (c =? slash)%N) (rev file) = true)
    by now apply forallb_rev, forallb_not_In.
  rewrite <- (app_nil_r (rev file)) at 1.
  rewrite dropWhile_none;
    [|intros E; apply Hne; now rewrite <- (rev_involutive file), E|exact Hrev].
  rewrite app_nil_r, takeWhile_all by exact Hrev.
  apply rev_involutive.
Qed.

(** The extension of a path is the extension of its last name. *)
Lemma extname_join (dir file : str) :
  file <> [] -> ~ In slash file -> extname (join dir file) = extname file.
Proof.
  intros Hne Hno. unfold extname.
  now rewrite lastComponent_join, lastComponent_plain.
Qed.

Lemma Listed_plain (exts : list str) (node : Node) (dir p : str) :
  Listed exts node dir p ->
  plainNames node = true ->
  exists d file, p = join d file /\ file <> [] /\ ~ In slash file /\
                 includes exts (extname file) = true.
Proof.
  induction 1 as [entries dir file Hin Hi|entries dir file child p Hin Hl IH];
    cbn [plainNames]; intros Hall; rewrite forallb_forall in Hall.
  - specialize (Hall _ Hin). cbn [fst snd] in Hall.
    apply andb_true_iff in Hall as [Hall _].
    apply andb_true_iff in Hall as [Hlen Hsl].
    exists dir, file. split; [reflexivity|]. split; [|split; [|exact Hi]].
    + intros ->. discriminate Hlen.
    + intros Hc. rewrite forallb_forall in Hsl. specialize (Hsl _ Hc).
      now rewrite N.eqb_refl in Hsl.
  - specialize (Hall _ Hin). cbn [fst snd] in Hall.
    apply andb_true_iff in Hall as [_ Hchild]. now apply IH.
Qed.

(** X15.  When the names in the folder are names as [readdirSync]
    gives them (not empty, without a slash), every path the walk
    returns has itself one of the given extensions: [path.extname] of
    the whole path, which lines 53 and 73 strip to name the module, is
    the accepted extension of the file's name. *)
Theorem walk_paths_have_accepted_extensions (node : Node) (dir : str)
  (exts files : list str) (p : str) :
  walkFiles node dir exts = Ok files ->
  plainNames node = true ->
  In p files ->
  includes exts (extname p) = true /\
  extname p = extname (lastComponent p).
Proof.
  intros H Hplain Hin. apply (walkFiles_lists exts node dir files H) in Hin.
  destruct (Listed_plain exts node dir p Hin Hplain)
    as (d & file & -> & Hne & Hno & Hext).
  rewrite lastComponent_join, extname_join by assumption. auto.
Qed.

(** On a folder with a subdirectory: the path of [lib/b.h]. *)
Lemma walk_paths_have_accepted_extensions_witness :
  includes sourceExts (extname (lit "proj/lib/b.h")) = true /\
  extname (lit "proj/lib/b.h") = extname (lastComponent (lit "proj/lib/b.h")).
Proof.
  apply (walk_paths_have_accepted_extensions exampleNested (lit "proj")
           sourceExts [lit "proj/a.c"; lit "proj/lib/b.h"]).
  - vm_compute. reflexivity.
  - reflexivity.
  - simpl. right. left. reflexivity.
Defined.

(** ** How a run can fail *)

Lemma walkEntries_no_TypeError (walk : Node -> str -> Result (list str))
  (dir : str) (exts : list str) (items : list (str * Node)) :
  Forall (fun entry => forall path, walk (snd entry) path <> Throw TypeError)
         items ->
  forall results, walkEntries walk dir exts items results <> Throw TypeError.
Proof.
  induction 1 as [|[file child] rest Hchild _ IH]; simpl; [discriminate|].
  intros results. simpl in Hchild. destruct child as [|entries| |].
  - destruct (includes exts (extname file)); apply IH.
  - destruct (walk (Dir entries) (join dir file)) as [sub|e] eqn:W; simpl.
    + apply IH.
    + intros [= ->]. now apply (Hchild (join dir file)).
  - destruct (walk NoAccessDir (join dir file)) as [sub|e] eqn:W; simpl.
    + apply IH.
    + intros [= ->]. now apply (Hchild (join dir file)).
  - discriminate.
Qed.

Lemma walkFiles_no_TypeError (exts : list str) (node : Node) :
  forall dir, walkFiles node dir exts <> Throw TypeError.
Proof.
  induction node as [| | |entries IH] using Node_nested_ind; intros dir; simpl;
    try discriminate.
  apply walkEntries_no_TypeError.
  eapply Forall_impl; [|exact IH]. simpl. intros entry H path. apply H.
Qed.

Lemma collectFile_textOf (readFileSync : str -> Result str)
  (acc : JsMap FunctionDef * JsMap (list FunctionDef)) (file text : str) :
  readFileSync file = Ok text ->
  collectFile (fun _ => text) acc file
  = collectFile (textOf readFileSync) acc file.
Proof. intros E. unfold collectFile, textOf. now rewrite E. Qed.

Lemma scanFile_textOf (readFileSync : str -> Result str)
  (defs : JsMap FunctionDef) (fileFuncMap : JsMap (list FunctionDef))
  (edgesMap : JsMap Edge) (file text : str) :
  readFileSync file = Ok text ->
  scanFile (fun _ => text) defs fileFuncMap edgesMap file
  = scanFile (textOf readFileSync) defs fileFuncMap edgesMap file.
Proof. intros E. unfold scanFile, textOf. now rewrite E. Qed.

(** The first pass stops at the first file that cannot be read. *)
Lemma collectDefinitions_io_eq (readFileSync : str -> Result str)
  (files : list str) (acc : JsMap FunctionDef * JsMap (list FunctionDef)) :
  forEachM (collectFile_io readFileSync) files acc =
  match firstReadError readFileSync files with
  | Some e => Throw e
  | None => Ok (fold_left (collectFile (textOf readFileSync)) files acc)
  end.
Proof.
  revert acc; induction files as [|f files IH]; intros acc;
    cbn [forEachM firstReadError fold_left]; [reflexivity|].
  unfold collectFile_io at 1.
  destruct (readFileSync f) as [text|e] eqn:E; cbn [bind]; [|reflexivity].
  rewrite IH. now rewrite (collectFile_textOf _ _ _ _ E).
Qed.

Lemma collectEdges_io_eq (readFileSync : str -> Result str)
  (defs : JsMap FunctionDef) (fileFuncMap : JsMap (list FunctionDef))
  (files : list str) (edgesMap : JsMap Edge) :
  firstReadError readFileSync files = None ->
  forEachM (scanFile_io readFileSync defs fileFuncMap) files edgesMap
  = forEachM (scanFile (textOf readFileSync) defs fileFuncMap) files edgesMap.
Proof.
  revert edgesMap; induction files as [|f files IH]; intros edgesMap;
    cbn [forEachM firstReadError]; [reflexivity|].
  unfold scanFile_io at 1.
  destruct (readFileSync f) as [text|e] eqn:E; [|discriminate].
  intros Hnone. cbn [bind]. rewrite (scanFile_textOf _ _ _ _ _ _ E).
  destruct (scanFile (textOf readFileSync) defs fileFuncMap edgesMap f);
    cbn [bind]; [now apply IH|reflexivity].
Qed.

(** With reads that may throw, the two passes throw at the first file
    that cannot be read, and are the two passes on the texts when
    there is none. *)
Lemma buildGraph_io_eq (readFileSync : str -> Result str) (files : list str) :
  buildGraph_io readFileSync files =
  match firstReadError readFileSync files with
  | Some e => Throw e
  | None => buildGraph (textOf readFileSync) files
  end.
Proof.
  unfold buildGraph_io, collectDefinitions_io.
  rewrite collectDefinitions_io_eq.
  destruct (firstReadError readFileSync files) as [e|] eqn:E; [reflexivity|].
  cbn [bind]. unfold collectEdges_io. rewrite collectEdges_io_eq by exact E.
  reflexivity.
Qed.

Lemma firstReadError_Some (readFileSync : str -> Result str) (files : list str)
  (e : Thrown) :
  firstReadError readFileSync files = Some e ->
  exists before f after,
    files = before ++ f :: after /\
    (forall g, In g before -> exists text, readFileSync g = Ok text) /\
    readFileSync f = Throw e.
Proof.
  induction files as [|f files IH]; cbn [firstReadError]; [discriminate|].
  destruct (readFileSync f) as [text|e0] eqn:E.
  - intros H. destruct (IH H) as (before & f' & after & -> & Hb & Hf).
    exists (f :: before), f', after. split; [reflexivity|]. split; [|exact Hf].
    intros g [<-|Hg]; [now exists text|now apply Hb].
  - intros [= ->]. exists [], f, files. split; [reflexivity|].
    split; [intros g []|exact E].
Qed.

Lemma firstReadError_None (readFileSync : str -> Result str) (files : list str) :
  (forall f, In f files -> exists text, readFileSync f = Ok text) ->
  firstReadError readFileSync files = None.
Proof.
  induction files as [|f files IH]; cbn [firstReadError]; [reflexivity|].
  intros H. destruct (H f (or_introl eq_refl)) as [text ->].
  apply IH. intros g Hg. apply H. now right.
Qed.

(** X1.  The two passes throw only what [readFileSync] throws: the
    exception of the first listed file that cannot be read, with every
    file before it read.  Lines 72 and 92 read
    [fileFuncMap.get(file)!] and [edgesMap.get(key)!], and neither is
    ever [undefined]: when every listed file can be read, the passes
    return a graph, the one built from the texts. *)
Theorem two_passes_throw_only_read_errors (readFileSync : str -> Result str)
  (files : list str) :
  (forall e, buildGraph_io readFileSync files = Throw e <->
             firstReadError readFileSync files = Some e) /\
  (forall e, buildGraph_io readFileSync files = Throw e ->
     exists before f after,
       files = before ++ f :: after /\
       (forall g, In g before -> exists text, readFileSync g = Ok text) /\
       readFileSync f = Throw e) /\
  ((forall f, In f files -> exists text, readFileSync f = Ok text) ->
   exists g, buildGraph_io readFileSync files = Ok g /\
             buildGraph (textOf readFileSync) files = Ok g).
Proof.
  assert (Hiff : forall e, buildGraph_io readFileSync files = Throw e <->
                           firstReadError readFileSync files = Some e).
  { intros e. rewrite buildGraph_io_eq.
    destruct (firstReadError readFileSync files) as [e0|].
    - split; intros [= ->]; reflexivity.
    - destruct (buildGraph_returns (textOf readFileSync) files) as [g ->].
      split; discriminate. }
  split; [exact Hiff|]. split.
  - intros e He. apply firstReadError_Some. now apply Hiff.
  - intros Hall. rewrite buildGraph_io_eq.
    rewrite (firstReadError_None _ _ Hall).
    destruct (buildGraph_returns (textOf readFileSync) files) as [g Hg].
    exists g. auto.
Qed.

(** X17.  The command is rejected with an exception in two cases only:
    the walk over the selected folder threw it (a failure to list or
    stat, never a [TypeError]), or the walk returned the files and
    [readFileSync] threw it for the first of them that cannot be
    read. *)
Theorem run_rejected_only_by_walk_or_read (fs : Disk) (inv : Invocation)
  (e : Thrown) :
  generate_io fs inv = Rejected e <->
  workspaceFolders inv = true /\
  exists selectedFolder,
    folderUri inv = Some selectedFolder /\
    ((walkFiles (entryAt fs selectedFolder) selectedFolder sourceExts = Throw e
      /\ e <> TypeError)
     \/ exists files,
          walkFiles (entryAt fs selectedFolder) selectedFolder sourceExts
            = Ok files /\
          firstReadError (readOrThrow fs) files = Some e).
Proof.
  unfold generate_io. split.
  - destruct (workspaceFolders inv); cbn [negb]; [|discriminate].
    destruct (folderUri inv) as [folder|]; [|discriminate].
    destruct (walkFiles (entryAt fs folder) folder sourceExts)
      as [files|e0] eqn:W.
    + destruct files as [|f files]; [discriminate|].
      rewrite buildGraph_io_eq.
      destruct (firstReadError (readOrThrow fs) (f :: files)) as [e0|] eqn:E.
      * intros [= ->]. split; [reflexivity|]. exists folder.
        split; [reflexivity|]. right. now exists (f :: files).
      * destruct (buildGraph_returns (textOf (readOrThrow fs)) (f :: files))
          as [g ->]. discriminate.
    + intros [= ->]. split; [reflexivity|]. exists folder.
      split; [reflexivity|]. left. split; [exact W|].
      intros ->. exact (walkFiles_no_TypeError sourceExts _ folder W).
  - intros (Hw & folder & Hf & [[W _]|(files & W & E)]);
      rewrite Hw, Hf; cbn [negb]; rewrite W; [reflexivity|].
    destruct files as [|f files]; [discriminate E|].
    rewrite buildGraph_io_eq, E. reflexivity.
Qed.

(** Example 1 with [b.c] listed and not readable: the walk returns both
    files, and the command is rejected with the exception of the read. *)
Lemma run_rejected_only_by_walk_or_read_witness :
  walkFiles (entryAt example1Unreadable (lit "proj")) (lit "proj") sourceExts
    = Ok [lit "proj/a.c"; lit "proj/b.c"] /\
  generate_io example1Unreadable (mkInvocation true (Some (lit "proj")))
    = Rejected (EACCES (lit "proj/b.c")).
Proof.
  split; [vm_compute; reflexivity|].
  apply (proj2 (run_rejected_only_by_walk_or_read example1Unreadable
                  (mkInvocation true (Some (lit "proj")))
                  (EACCES (lit "proj/b.c")))).
  split; [reflexivity|]. exists (lit "proj"). split; [reflexivity|].
  right. exists [lit "proj/a.c"; lit "proj/b.c"].
  split; vm_compute; reflexivity.
Defined.

(** ** Exporting the chart *)

Lemma Map_get_delete_same {V : Type} (m : JsMap V) (k : str) :
  Map_get (Map_delete m k) k = None.
Proof.
  unfold Map_delete. induction m as [|[k' v] m IH]; simpl; [reflexivity|].
  destruct (str_eqb k k') eqn:E; simpl; [exact IH|].
  now rewrite E.
Qed.

Lemma Map_get_delete_other {V : Type} (m : JsMap V) (k k' : str) :
  k <> k' -> Map_get (Map_delete m k) k' = Map_get m k'.
Proof.
  intros Hne. unfold Map_delete.
  induction m as [|[k0 v] m IH]; simpl; [reflexivity|].
  destruct (str_eqb k k0) eqn:E; simpl.
  - apply str_eqb_eq in E. subst k0.
    destruct (str_eqb k' k) eqn:E'; [|exact IH].
    apply str_eqb_eq in E'. congruence.
  - now rewrite IH.
Qed.

Lemma endsWith_app (s x : str) : endsWith (s ++ x) x = true.
Proof.
  unfold endsWith. rewrite length_app.
  replace (length s + length x - length x) with (length s) by lia.
  rewrite skipn_app, skipn_all, Nat.sub_diag. simpl.
  rewrite str_eqb_refl.
  apply andb_true_iff. split; [apply Nat.leb_le; lia|reflexivity].
Qed.

Lemma extMap_includes (cmd type : str) :
  extMap cmd = Some type -> includes exportCommands cmd = true.
Proof.
  unfold extMap, exportCommands, includes. simpl existsb.
  destruct (str_eqb cmd (lit "exportPNG")); [reflexivity|].
  destruct (str_eqb cmd (lit "exportJPEG")); [reflexivity|].
  destruct (str_eqb cmd (lit "exportPDF")); [reflexivity|discriminate].
Qed.

Lemma includes_extMap (cmd : str) :
  includes exportCommands cmd = true -> exists type, extMap cmd = Some type.
Proof.
  unfold extMap, exportCommands, includes. simpl existsb.
  destruct (str_eqb cmd (lit "exportPNG")); [eexists; reflexivity|].
  destruct (str_eqb cmd (lit "exportJPEG")); [eexists; reflexivity|].
  destruct (str_eqb cmd (lit "exportPDF")); [eexists; reflexivity|discriminate].
Qed.

Lemma export_returned b tmpHtmlPath savePath type st st' :
  exportDiagramPuppeteer b tmpHtmlPath savePath type st = (st', Returned) ->
  store st' = match outputOf b savePath type with
              | Some (p, c) => Map_set (store st) p c
              | None => store st
              end
  /\ notices st' = notices st
  /\ exists acts, trace st' = trace st ++ acts ++ [Closed].
Proof.
  destruct st as [files acts0 msgs].
  export_cases b; intros H; inversion H; subst; clear H;
    (split; [reflexivity|split; [reflexivity|]]);
    repeat rewrite <- app_assoc; simpl;
    match goal with
    | |- exists acts, ?l ++ ?r = ?l ++ acts ++ [Closed] =>
        exists (removelast r); reflexivity
    end.
Qed.

Lemma export_failed b tmpHtmlPath savePath type st st' r :
  exportDiagramPuppeteer b tmpHtmlPath savePath type st = (st', Failed r) ->
  (exists s, r = BrowserRejected s /\ rejects b s = true /\
     exists acts a, trace st' = trace st ++ acts ++ [a] /\
                    stepOf a = s /\ ~ In Closed acts)
  /\ notices st' = notices st
  /\ (store st' = store st
      \/ exists p c, outputOf b savePath type = Some (p, c)
                     /\ store st' = Map_set (store st) p c).
Proof.
  destruct st as [files acts0 msgs]. unfold outputOf.
  export_cases b; intros H; inversion H; subst; clear H;
    (split;
     [ eexists; split; [reflexivity|]; split; [eassumption|];
       repeat rewrite <- app_assoc; cbn [app];
       match goal with
       | |- exists acts a, ?l ++ ?r = ?l ++ acts ++ [a] /\ _ =>
           exists (removelast r), (last r Closed);
           split; [reflexivity|];
           split; [reflexivity|cbn; intuition discriminate]
       end
     | split;
       [ reflexivity
       | first [left; reflexivity
               |right; eexists; eexists; split; reflexivity] ] ]).
Qed.

Lemma export_runs b tmpHtmlPath savePath type st :
  (forall s, rejects b s = false) ->
  snd (exportDiagramPuppeteer b tmpHtmlPath savePath type st) = Returned.
Proof.
  intros Hno.
  cbv beta iota zeta delta [exportDiagramPuppeteer await].
  rewrite !Hno.
  destruct (str_eqb type (lit "pdf")); [reflexivity|].
  destruct (element b); [|reflexivity].
  destruct (box b); reflexivity.
Qed.

Lemma Map_has_set {V : Type} (m : JsMap V) (k k' : str) (v : V) :
  Map_has m k' = true -> Map_has (Map_set m k v) k' = true.
Proof.
  unfold Map_has. intros H.
  destruct (list_eq_dec N.eq_dec k k') as [<-|Hne].
  - now rewrite Map_get_set_same.
  - now rewrite Map_get_set_other.
Qed.

Lemma Map_has_set_same {V : Type} (m : JsMap V) (k : str) (v : V) :
  Map_has (Map_set m k v) k = true.
Proof. unfold Map_has. now rewrite Map_get_set_same. Qed.

(** What the handler does when nothing stands in its way. *)
Lemma handler_runs acc b extensionPath fsPath message st type :
  extMap (command message) = Some type ->
  (forall s, rejects b s = false) ->
  mayWrite acc (tmpDiagram extensionPath) = true ->
  mayUnlink acc (tmpDiagram extensionPath) = true ->
  exists st',
    onDidReceiveMessage acc b extensionPath (Some fsPath) message st
      = (st', Returned)
    /\ notices st' = notices st ++ [lit "Saved " ++ fsPath]
    /\ store st' =
         Map_delete
           (match outputOf b fsPath type with
            | Some (p, c) =>
                Map_set (Map_set (store st) (tmpDiagram extensionPath)
                           (tempHtml (svg message))) p c
            | None =>
                Map_set (store st) (tmpDiagram extensionPath)
                  (tempHtml (svg message))
            end)
           (tmpDiagram extensionPath).
Proof.
  intros Hext Hno Hw Hu.
  unfold onDidReceiveMessage.
  rewrite (extMap_includes _ _ Hext), Hext. cbn [negb].
  unfold createTempHtml, writeFileSync. rewrite Hw. cbn [bind].
  cbv zeta.
  pose proof (export_runs b (tmpDiagram extensionPath) fsPath type
                (mkSession (Map_set (store st) (tmpDiagram extensionPath)
                              (tempHtml (svg message)))
                   (trace st) (notices st)) Hno) as Hrun.
  destruct (exportDiagramPuppeteer b (tmpDiagram extensionPath) fsPath type _)
    as [st1 c] eqn:E.
  cbn [fst snd] in *. subst c.
  apply export_returned in E. destruct E as (Hstore & Hnot & _).
  cbn [store notices] in Hstore, Hnot.
  assert (Hhas : Map_has (store st1) (tmpDiagram extensionPath) = true).
  { rewrite Hstore. destruct (outputOf b fsPath type) as [[p c]|].
    - apply Map_has_set, Map_has_set_same.
    - apply Map_has_set_same. }
  unfold unlinkSync. rewrite Hhas, Hu. cbn [negb].
  eexists. split; [reflexivity|]. cbn [store notices].
  split; [now rewrite Hnot|now rewrite Hstore].
Qed.

(** X18.  A message whose command is none of [exportPNG], [exportJPEG]
    and [exportPDF], and an export whose save dialog was dismissed,
    change nothing: no file is written, the browser is not started and
    no message is shown. *)
Theorem other_messages_change_nothing acc b extensionPath uri message st :
  includes exportCommands (command message) = false \/ uri = None ->
  onDidReceiveMessage acc b extensionPath uri message st = (st, Returned).
Proof.
  intros H. unfold onDidReceiveMessage.
  destruct (includes exportCommands (command message)) eqn:E; cbn [negb];
    [|reflexivity].
  destruct H as [H|H]; [discriminate|]. subst uri.
  destruct (includes_extMap _ E) as [type ->]. reflexivity.
Qed.

Lemma other_messages_change_nothing_witness :
  onDidReceiveMessage fullAccess goodBrowser (lit "/ext")
    (Some (lit "/home/u/chart"))
    (mkMessage (lit "exportSVG") (lit "<svg/>")) emptySession
  = (emptySession, Returned).
Proof.
  apply other_messages_change_nothing. left. reflexivity.
Defined.

(** X19.  The handler fails in two ways only: an awaited browser call
    rejects, or the system refuses to write or to remove
    [tmp_diagram.html] in the extension's directory. *)
Theorem export_failures acc b extensionPath uri message st st' r :
  onDidReceiveMessage acc b extensionPath uri message st = (st', Failed r) ->
  (exists s, r = BrowserRejected s /\ rejects b s = true)
  \/ (r = Exception (EACCES (tmpDiagram extensionPath))
      /\ (mayWrite acc (tmpDiagram extensionPath) = false
          \/ mayUnlink acc (tmpDiagram extensionPath) = false)).
Proof.
  unfold onDidReceiveMessage.
  destruct (includes exportCommands (command message)) eqn:Einc; cbn [negb];
    [|discriminate].
  destruct (includes_extMap _ Einc) as [type ->].
  destruct uri as [fsPath|]; [|discriminate].
  unfold createTempHtml, writeFileSync.
  destruct (mayWrite acc (tmpDiagram extensionPath)) eqn:Ew; cbn [bind].
  2:{ intros H. inversion H; subst. right. split; [reflexivity|now left]. }
  cbv zeta.
  destruct (exportDiagramPuppeteer b (tmpDiagram extensionPath) fsPath type _)
    as [st1 c] eqn:E.
  cbn [fst snd]. destruct c as [|r1].
  - apply export_returned in E. destruct E as (Hstore & _ & _).
    cbn [store] in Hstore.
    assert (Hhas : Map_has (store st1) (tmpDiagram extensionPath) = true).
    { rewrite Hstore. destruct (outputOf b fsPath type) as [[p c]|].
      - apply Map_has_set, Map_has_set_same.
      - apply Map_has_set_same. }
    unfold unlinkSync. rewrite Hhas. cbn [negb].
    destruct (mayUnlink acc (tmpDiagram extensionPath)) eqn:Eu; [discriminate|].
    intros H. inversion H; subst. right. split; [reflexivity|now right].
  - intros H. inversion H; subst.
    apply export_failed in E. destruct E as ((s & Hr & Hs & _) & _).
    left. exists s. auto.
Qed.

Lemma export_failures_witness :
  (exists s, BrowserRejected waitForSelector = BrowserRejected s
             /\ rejects stuckBrowser s = true)
  \/ (BrowserRejected waitForSelector
        = Exception (EACCES (tmpDiagram (lit "/ext")))
      /\ (mayWrite fullAccess (tmpDiagram (lit "/ext")) = false
          \/ mayUnlink fullAccess (tmpDiagram (lit "/ext")) = false)).
Proof.
  eapply (export_failures fullAccess stuckBrowser (lit "/ext")
            (Some (lit "/home/u/chart.pdf"))
            (mkMessage (lit "exportPDF") (lit "<svg/>")) emptySession).
  vm_compute. reflexivity.
Defined.

(** X20.  When an awaited browser call rejects, the handler leaves
    [tmp_diagram.html] behind in the extension's directory and shows
    no message.  The rejected call is the last call made on the
    browser, and [browser.close()] was not called before it: unless it
    is [close] itself that rejects, the browser is never asked to
    close. *)
Theorem rejected_call_leaves_temp_file acc b extensionPath uri message st st' s :
  onDidReceiveMessage acc b extensionPath uri message st
    = (st', Failed (BrowserRejected s)) ->
  Map_has (store st') (tmpDiagram extensionPath) = true
  /\ notices st' = notices st
  /\ exists acts a,
       trace st' = trace st ++ acts ++ [a]
       /\ stepOf a = s
       /\ ~ In Closed acts
       /\ (s <> close -> ~ In Closed (acts ++ [a])).
Proof.
  unfold onDidReceiveMessage.
  destruct (includes exportCommands (command message)) eqn:Einc; cbn [negb];
    [|discriminate].
  destruct (includes_extMap _ Einc) as [type ->].
  destruct uri as [fsPath|]; [|discriminate].
  unfold createTempHtml, writeFileSync.
  destruct (mayWrite acc (tmpDiagram extensionPath)) eqn:Ew; cbn [bind];
    [|discriminate].
  cbv zeta.
  destruct (exportDiagramPuppeteer b (tmpDiagram extensionPath) fsPath type _)
    as [st1 c] eqn:E.
  cbn [fst snd]. destruct c as [|r1].
  - destruct (unlinkSync acc (store st1) (tmpDiagram extensionPath));
      discriminate.
  - intros H. inversion H; subst.
    apply export_failed in E.
    destruct E as ((s0 & Hr & _ & acts & a & Htrace & Hstep & Hacts)
                   & Hnot & Hstore).
    injection Hr as Hs0. rewrite <- Hs0 in Hstep. clear Hs0.
    cbn [store trace notices] in *.
    split; [|split; [exact Hnot|]].
    + destruct Hstore as [->|(p & c & _ & ->)].
      * apply Map_has_set_same.
      * apply Map_has_set, Map_has_set_same.
    + exists acts, a. split; [exact Htrace|]. split; [exact Hstep|].
      split; [exact Hacts|].
      intros Hs Hin. apply in_app_or in Hin as [Hin|[Ha|[]]].
      * now apply Hacts.
      * apply Hs. rewrite <- Hstep, Ha. reflexivity.
Qed.

Lemma rejected_call_leaves_temp_file_witness :
  exists st',
    onDidReceiveMessage fullAccess stuckBrowser (lit "/ext")
      (Some (lit "/home/u/chart.pdf"))
      (mkMessage (lit "exportPDF") (lit "<svg/>")) emptySession
    = (st', Failed (BrowserRejected waitForSelector))
    /\ Map_has (store st') (tmpDiagram (lit "/ext")) = true
    /\ notices st' = notices emptySession
    /\ exists acts a,
         trace st' = trace emptySession ++ acts ++ [a]
         /\ stepOf a = waitForSelector
         /\ ~ In Closed acts
         /\ (waitForSelector <> close -> ~ In Closed (acts ++ [a])).
Proof.
  eexists. split; [vm_compute; reflexivity|].
  eapply (rejected_call_leaves_temp_file fullAccess stuckBrowser (lit "/ext")
            (Some (lit "/home/u/chart.pdf"))
            (mkMessage (lit "exportPDF") (lit "<svg/>")) emptySession).
  vm_compute. reflexivity.
Defined.

(** When it is [browser.close()] that rejects, it was called: the
    export is otherwise done, the file is written, and the temporary
    file stays. *)
Lemma rejected_close_was_called :
  onDidReceiveMessage fullAccess
    (mkBrowser (fun s => match s with close => true | _ => false end)
       true None (lit "%PDF") (lit "PNG"))
    (lit "/ext") (Some (lit "/home/u/chart.pdf"))
    (mkMessage (lit "exportPDF") (lit "<svg/>")) emptySession
  = (mkSession
       [(tmpDiagram (lit "/ext"), tempHtml (lit "<svg/>"));
        (lit "/home/u/chart.pdf", lit "%PDF")]
       [Launched; PageOpened; WentTo (lit "file://" ++ tmpDiagram (lit "/ext"));
        Waited; Printed (lit "/home/u/chart.pdf"); Closed]
       [],
     Failed (BrowserRejected close)).
Proof. vm_compute. reflexivity. Qed.

(** X21.  When the handler of an export finishes, [tmp_diagram.html]
    is gone, the browser was closed last, and the message shown is
    "Saved " followed by the path the dialog gave. *)
Theorem finished_export_removes_temp_file acc b extensionPath fsPath message
  st st' :
  includes exportCommands (command message) = true ->
  onDidReceiveMessage acc b extensionPath (Some fsPath) message st
    = (st', Returned) ->
  Map_get (store st') (tmpDiagram extensionPath) = None
  /\ notices st' = notices st ++ [lit "Saved " ++ fsPath]
  /\ exists acts, trace st' = trace st ++ acts ++ [Closed].
Proof.
  intros Einc. unfold onDidReceiveMessage. rewrite Einc. cbn [negb].
  destruct (includes_extMap _ Einc) as [type ->].
  unfold createTempHtml, writeFileSync.
  destruct (mayWrite acc (tmpDiagram extensionPath)) eqn:Ew; cbn [bind];
    [|discriminate].
  cbv zeta.
  destruct (exportDiagramPuppeteer b (tmpDiagram extensionPath) fsPath type _)
    as [st1 c] eqn:E.
  cbn [fst snd]. destruct c as [|r1]; [|discriminate].
  apply export_returned in E. destruct E as (_ & Hnot & Hacts).
  cbn [trace notices] in *.
  unfold unlinkSync.
  destruct (Map_has (store st1) (tmpDiagram extensionPath)); cbn [negb];
    [|discriminate].
  destruct (mayUnlink acc (tmpDiagram extensionPath)); [|discriminate].
  intros H. inversion H; subst. cbn [store trace notices].
  split; [apply Map_get_delete_same|].
  split; [now rewrite Hnot|exact Hacts].
Qed.

Lemma finished_export_removes_temp_file_witness :
  exists st',
    Map_get (store st') (tmpDiagram (lit "/ext")) = None
    /\ notices st' = notices emptySession ++ [lit "Saved " ++ lit "/home/u/chart"]
    /\ exists acts, trace st' = trace emptySession ++ acts ++ [Closed].
Proof.
  eexists.
  eapply (finished_export_removes_temp_file fullAccess goodBrowser (lit "/ext")
            (lit "/home/u/chart")
            (mkMessage (lit "exportPNG") (lit "<svg/>")) emptySession).
  - reflexivity.
  - vm_compute. reflexivity.
Defined.

(** X22.  The path of the image always ends in a dot and the type: a
    chosen path that ends so is kept, any other gets them appended;
    doing it twice is doing it once. *)
Theorem screenshot_path_ends_with_type savePath type :
  endsWith (screenshotPath savePath type) (dot :: type) = true
  /\ (exists front, screenshotPath savePath type = front ++ dot :: type)
  /\ screenshotPath (screenshotPath savePath type) type
     = screenshotPath savePath type.
Proof.
  assert (H : endsWith (screenshotPath savePath type) (dot :: type) = true).
  { unfold screenshotPath.
    destruct (endsWith savePath (dot :: type)) eqn:E; [exact E|].
    apply endsWith_app. }
  split; [exact H|]. split.
  - unfold endsWith in H. apply andb_true_iff in H. destruct H as [Hl He].
    apply str_eqb_eq in He.
    set (n := length (screenshotPath savePath type) - length (dot :: type)) in *.
    exists (firstn n (screenshotPath savePath type)).
    transitivity (firstn n (screenshotPath savePath type)
                  ++ skipn n (screenshotPath savePath type)).
    + symmetry. apply firstn_skipn.
    + f_equal. exact He.
  - unfold screenshotPath at 1. now rewrite H.
Qed.

(** X23.  An export to PDF that nothing stands in the way of writes
    the printed page to the chosen path exactly as the dialog gave it,
    unless that path is the temporary file's, and says so. *)
Theorem pdf_written_where_chosen acc b extensionPath fsPath svgContent st :
  (forall s, rejects b s = false) ->
  mayWrite acc (tmpDiagram extensionPath) = true ->
  mayUnlink acc (tmpDiagram extensionPath) = true ->
  fsPath <> tmpDiagram extensionPath ->
  exists st',
    onDidReceiveMessage acc b extensionPath (Some fsPath)
      (mkMessage (lit "exportPDF") svgContent) st = (st', Returned)
    /\ Map_get (store st') fsPath = Some (printed b)
    /\ notices st' = notices st ++ [lit "Saved " ++ fsPath].
Proof.
  intros Hno Hw Hu Hne.
  destruct (handler_runs acc b extensionPath fsPath
              (mkMessage (lit "exportPDF") svgContent) st (lit "pdf")
              eq_refl Hno Hw Hu) as (st' & Hrun & Hnot & Hstore).
  exists st'. split; [exact Hrun|]. split; [|exact Hnot].
  rewrite Hstore. unfold outputOf.
  replace (str_eqb (lit "pdf") (lit "pdf")) with true by reflexivity.
  rewrite Map_get_delete_other by congruence.
  apply Map_get_set_same.
Qed.

Lemma pdf_written_where_chosen_witness :
  exists st',
    onDidReceiveMessage fullAccess goodBrowser (lit "/ext")
      (Some (lit "/home/u/chart"))
      (mkMessage (lit "exportPDF") (lit "<svg/>")) emptySession
    = (st', Returned)
    /\ Map_get (store st') (lit "/home/u/chart") = Some (printed goodBrowser)
    /\ notices st' = notices emptySession ++ [lit "Saved " ++ lit "/home/u/chart"].
Proof.
  apply (pdf_written_where_chosen fullAccess goodBrowser (lit "/ext")
           (lit "/home/u/chart") (lit "<svg/>") emptySession).
  - reflexivity.
  - reflexivity.
  - reflexivity.
  - intros H. vm_compute in H. discriminate H.
Defined.

(** X24.  An export to PNG or JPEG that nothing stands in the way of,
    of an SVG that has a box, writes the image to the chosen path with
    a dot and the type appended when it does not end so already.  The
    message shown still names the chosen path, where in that case
    nothing was written. *)
Theorem image_written_with_extension acc b extensionPath fsPath message st
  type bx :
  extMap (command message) = Some type ->
  type <> lit "pdf" ->
  (forall s, rejects b s = false) ->
  mayWrite acc (tmpDiagram extensionPath) = true ->
  mayUnlink acc (tmpDiagram extensionPath) = true ->
  element b = true ->
  box b = Some bx ->
  screenshotPath fsPath type <> tmpDiagram extensionPath ->
  exists st',
    onDidReceiveMessage acc b extensionPath (Some fsPath) message st
      = (st', Returned)
    /\ Map_get (store st') (screenshotPath fsPath type) = Some (image b)
    /\ notices st' = notices st ++ [lit "Saved " ++ fsPath]
    /\ (endsWith fsPath (dot :: type) = false ->
        fsPath <> tmpDiagram extensionPath ->
        screenshotPath fsPath type = fsPath ++ dot :: type
        /\ Map_get (store st') fsPath = Map_get (store st) fsPath).
Proof.
  intros Hext Hpdf Hno Hw Hu Hel Hbox Hne.
  destruct (handler_runs acc b extensionPath fsPath message st type
              Hext Hno Hw Hu) as (st' & Hrun & Hnot & Hstore).
  exists st'. split; [exact Hrun|].
  assert (Hout : outputOf b fsPath type
                 = Some (screenshotPath fsPath type, image b)).
  { unfold outputOf. apply str_eqb_neq in Hpdf. now rewrite Hpdf, Hel, Hbox. }
  rewrite Hout in Hstore.
  split; [|split; [exact Hnot|]].
  - rewrite Hstore. rewrite Map_get_delete_other by congruence.
    apply Map_get_set_same.
  - intros Hends Hne'.
    assert (Hpath : screenshotPath fsPath type = fsPath ++ dot :: type).
    { unfold screenshotPath. now rewrite Hends. }
    split; [exact Hpath|].
    rewrite Hstore. rewrite Map_get_delete_other by congruence.
    rewrite Map_get_set_other.
    + apply Map_get_set_other. congruence.
    + rewrite Hpath. intros Heq.
      apply (f_equal (@length char)) in Heq.
      rewrite length_app in Heq. simpl in Heq. lia.
Qed.

Lemma image_written_with_extension_witness :
  exists st',
    onDidReceiveMessage fullAccess goodBrowser (lit "/ext")
      (Some (lit "/home/u/chart"))
      (mkMessage (lit "exportJPEG") (lit "<svg/>")) emptySession
    = (st', Returned)
    /\ Map_get (store st') (screenshotPath (lit "/home/u/chart") (lit "jpeg"))
       = Some (image goodBrowser)
    /\ notices st' = notices emptySession ++ [lit "Saved " ++ lit "/home/u/chart"]
    /\ (endsWith (lit "/home/u/chart") (dot :: lit "jpeg") = false ->
        lit "/home/u/chart" <> tmpDiagram (lit "/ext") ->
        screenshotPath (lit "/home/u/chart") (lit "jpeg")
          = lit "/home/u/chart" ++ dot :: lit "jpeg"
        /\ Map_get (store st') (lit "/home/u/chart")
           = Map_get (store emptySession) (lit "/home/u/chart")).
Proof.
  eapply (image_written_with_extension fullAccess goodBrowser (lit "/ext")
            (lit "/home/u/chart")
            (mkMessage (lit "exportJPEG") (lit "<svg/>")) emptySession
            (lit "jpeg")).
  - reflexivity.
  - intros H. vm_compute in H. discriminate H.
  - reflexivity.
  - reflexivity.
  - reflexivity.
  - reflexivity.
  - reflexivity.
  - intros H. vm_compute in H. discriminate H.
Defined.

(** X25.  When the page has no SVG element to hand back, or the
    element has no box, an export to PNG or JPEG writes no image at
    all: every file but the temporary one is as before.  The handler
    still shows "Saved " and the chosen path. *)
Theorem unmeasured_svg_saves_nothing acc b extensionPath fsPath message st
  type :
  extMap (command message) = Some type ->
  type <> lit "pdf" ->
  (forall s, rejects b s = false) ->
  mayWrite acc (tmpDiagram extensionPath) = true ->
  mayUnlink acc (tmpDiagram extensionPath) = true ->
  element b = false \/ box b = None ->
  exists st',
    onDidReceiveMessage acc b extensionPath (Some fsPath) message st
      = (st', Returned)
    /\ notices st' = notices st ++ [lit "Saved " ++ fsPath]
    /\ forall p, p <> tmpDiagram extensionPath ->
                 Map_get (store st') p = Map_get (store st) p.
Proof.
  intros Hext Hpdf Hno Hw Hu Hnone.
  destruct (handler_runs acc b extensionPath fsPath message st type
              Hext Hno Hw Hu) as (st' & Hrun & Hnot & Hstore).
  exists st'. split; [exact Hrun|]. split; [exact Hnot|].
  assert (Hout : outputOf b fsPath type = None).
  { unfold outputOf. apply str_eqb_neq in Hpdf. rewrite Hpdf.
    destruct Hnone as [->| ->]; [reflexivity|].
    destruct (element b); reflexivity. }
  rewrite Hout in Hstore.
  intros p Hp. rewrite Hstore.
  rewrite Map_get_delete_other by congruence.
  apply Map_get_set_other. congruence.
Qed.

Lemma unmeasured_svg_saves_nothing_witness :
  exists st',
    onDidReceiveMessage fullAccess hiddenBrowser (lit "/ext")
      (Some (lit "/home/u/chart.png"))
      (mkMessage (lit "exportPNG") (lit "<svg/>")) emptySession
    = (st', Returned)
    /\ notices st'
       = notices emptySession ++ [lit "Saved " ++ lit "/home/u/chart.png"]
    /\ forall p, p <> tmpDiagram (lit "/ext") ->
                 Map_get (store st') p = Map_get (store emptySession) p.
Proof.
  eapply (unmeasured_svg_saves_nothing fullAccess hiddenBrowser (lit "/ext")
            (lit "/home/u/chart.png")
            (mkMessage (lit "exportPNG") (lit "<svg/>")) emptySession
            (lit "png")).
  - reflexivity.
  - intros H. vm_compute in H. discriminate H.
  - reflexivity.
  - reflexivity.
  - reflexivity.
  - right. reflexivity.
Defined.
